(** * smol2: a shallow embedding of the cartoon/ribbon pipeline

    The JavaScript sources modelled here are
      - [public/js/spline-math.js]            (BSplineCurve, PDBParser)
      - [public/js/pymol-cartoon-generator.js] (CartoonGenerator)
      - [public/js/ribbon-geometry.js]         (RibbonGeometryGenerator)
      - the cartoon support classes (CartoonType, CartoonExtrude,
        CartoonShapes, CartoonInterpolation, CartoonMath)
      - the SecondaryStructureAnalyzer class.

    Conventions.
      - A JavaScript number that takes part in geometry is a real number
        ([R]); [Math.sqrt], [Math.abs], [Math.min], [Math.max],
        [Math.floor] and [Math.acos] are [sqrt], [Rabs], [Rmin], [Rmax],
        [Int_part] and [acos].  Rounding to binary64 is not modelled
        there.
      - [calculateLigandBonds] decides a bond by comparing a distance
        with 1.3 times a sum of two radii, and such a comparison can
        turn on the last bit: its numbers are binary64 numbers, the
        primitive floats, with IEEE 754 addition, subtraction,
        multiplication, square root and comparison, as JavaScript has
        them.
      - The numbers read by the parser may be not-a-number; they live in
        the type [jsnum] of the [Parser] part.
      - A JavaScript array is a list; [a[i]] is stdpp's [a !! i] and an
        assignment [a[i] = v] that is in range is [<[i:=v]> a].
      - A [for] loop over an index is a recursive function on the number
        of iterations that remain, which carries the index and the state
        the loop mutates. *)

From Stdlib Require Import Reals Lra Lia ZArith Ascii String.
From Stdlib Require Floats.
From stdpp Require Import base decidable list strings gmap.

(** A decimal literal of the source stands for the nearest binary64
    number, in JavaScript and here. *)
Set Warnings "-inexact-float".

(** ** Comparisons of numbers *)

#[global] Instance Rlt_decision (a b : R) : Decision (a < b)%R := Rlt_dec a b.
#[global] Instance Rle_decision (a b : R) : Decision (a <= b)%R := Rle_dec a b.
#[global] Instance Rgt_decision (a b : R) : Decision (a > b)%R := Rgt_dec a b.
#[global] Instance Rge_decision (a b : R) : Decision (a >= b)%R := Rge_dec a b.
#[global] Instance Req_decision : EqDecision R := Req_dec_T.

(** ** Loops

    [for (let i = start; i < start + steps; i++) state = body(i, state)] *)

Fixpoint forLoop {St : Type} (steps i : nat) (body : nat -> St -> St) (s : St) : St :=
  match steps with
  | O => s
  | S steps' => forLoop steps' (S i) body (body i s)
  end.

(** The same loop when the body can raise an exception ([None]): the
    exception leaves the loop. *)
Fixpoint forLoopM {St : Type} (steps i : nat) (body : nat -> St -> option St)
    (s : St) : option St :=
  match steps with
  | O => Some s
  | S steps' => s' ← body i s; forLoopM steps' (S i) body s'
  end.

(** [a[k]] for an index computed as a number: [undefined] ([None]) when
    [k] is negative or past the end. *)
Definition lookupZ {A : Type} (a : list A) (k : Z) : option A :=
  if bool_decide (0 <= k)%Z then a !! Z.to_nat k else None.

(** A read [a[i]] of a numeric (typed) array.  The arrays below are
    allocated with the size their readers assume; a read out of range,
    [undefined] in JavaScript, is given the value 0. *)
Definition rd (a : list R) (i : nat) : R := default 0%R (a !! i).

(** ** Points and vectors: objects with fields [x], [y], [z] *)

Record Vec3 : Type := mkVec3 { vx : R; vy : R; vz : R }.

(** ** CartoonMath (static vector helpers of the cartoon generator) *)

Module CartoonMath.
Local Open Scope R_scope.

Definition normalize (v : Vec3) : Vec3 :=
    let length := sqrt (vx v * vx v + vy v * vy v + vz v * vz v) in
    if bool_decide (length > 0)
    then mkVec3 (vx v / length) (vy v / length) (vz v / length)
    else mkVec3 0 0 1.

Definition cross (a b : Vec3) : Vec3 :=
    mkVec3 (vy a * vz b - vz a * vy b)
           (vz a * vx b - vx a * vz b)
           (vx a * vy b - vy a * vx b).

Definition dot (a b : Vec3) : R :=
    vx a * vx b + vy a * vy b + vz a * vz b.

Definition subtract (a b : Vec3) : Vec3 :=
    mkVec3 (vx a - vx b) (vy a - vy b) (vz a - vz b).

Definition add (a b : Vec3) : Vec3 :=
    mkVec3 (vx a + vx b) (vy a + vy b) (vz a + vz b).

Definition scale (v : Vec3) (s : R) : Vec3 :=
    mkVec3 (vx v * s) (vy v * s) (vz v * s).

Definition length (v : Vec3) : R :=
    sqrt (vx v * vx v + vy v * vy v + vz v * vz v).

Definition distance (a b : Vec3) : R := length (subtract a b).
End CartoonMath.

(* A vector of length one, stated on the squared length. *)
Definition unitVec (v : Vec3) : Prop := CartoonMath.dot v v = 1%R.

(** A frame of the cartoon generator: [{ tangent, normal, binormal }]. *)

Record Frame : Type := mkFrame {
  tangent : Vec3;
  normal : Vec3;
  binormal : Vec3
}.

(** ** CartoonGenerator.minimizeFrameTwisting *)

Module Twist.
Import CartoonMath.
Local Open Scope R_scope.

(** The body of the loop: [prevFrame] is [frames[i-1]] as the earlier
    iterations left it, [currFrame] is [frames[i]]. *)
Definition twistBody (prevFrame currFrame : Frame) : Frame :=
    let normalDot := dot (normal prevFrame) (normal currFrame) in
    let currFrame :=
      if bool_decide (normalDot < 0)
      then mkFrame (tangent currFrame)
                   (scale (normal currFrame) (-1))
                   (scale (binormal currFrame) (-1))
      else currFrame in
    let binormalDot := dot (binormal prevFrame) (binormal currFrame) in
    if bool_decide (binormalDot < 0)
    then mkFrame (tangent currFrame) (normal currFrame)
                 (scale (binormal currFrame) (-1))
    else currFrame.

(** [for (let i = 1; i < frames.length; i++)], with [steps] iterations
    left. *)
Fixpoint twistLoop (steps i : nat) (frames : list Frame) : list Frame :=
    match steps with
    | O => frames
    | S steps' =>
        match frames !! (i - 1)%nat, frames !! i with
        | Some prevFrame, Some currFrame =>
            twistLoop steps' (S i) (<[i := twistBody prevFrame currFrame]> frames)
        | _, _ => frames
        end
    end.

Definition minimizeFrameTwisting (frames : list Frame) : list Frame :=
    if bool_decide (List.length frames < 2)%nat then frames
    else twistLoop (List.length frames - 1) 1 frames.
(** Pairs of neighbours below index [i] are consistently oriented. *)
Definition aligned_below (i : nat) (frames : list Frame) : Prop :=
  forall j f g, (S j < i)%nat ->
    frames !! j = Some f -> frames !! S j = Some g ->
    0 <= dot (normal f) (normal g).

End Twist.

(** ** BABYLON.Vector3

    The spline code works on Babylon.js vectors.  The methods it calls are
    modelled after the library: [add], [subtract] and [scale] return a new
    vector, [normalize] divides by the length unless the length is 0 (or
    1), in which case the vector is returned as it is. *)

Module Vector3.
Local Open Scope R_scope.

Definition Zero : Vec3 := mkVec3 0 0 0.
Definition Right : Vec3 := mkVec3 1 0 0.
Definition Up : Vec3 := mkVec3 0 1 0.
Definition Forward : Vec3 := mkVec3 0 0 1.

Definition add (a b : Vec3) : Vec3 :=
  mkVec3 (vx a + vx b) (vy a + vy b) (vz a + vz b).

Definition subtract (a b : Vec3) : Vec3 :=
  mkVec3 (vx a - vx b) (vy a - vy b) (vz a - vz b).

Definition scale (v : Vec3) (s : R) : Vec3 :=
  mkVec3 (vx v * s) (vy v * s) (vz v * s).

Definition length (v : Vec3) : R :=
  sqrt (vx v * vx v + vy v * vy v + vz v * vz v).

Definition normalize (v : Vec3) : Vec3 :=
  let len := length v in
  if bool_decide (len = 0 \/ len = 1) then v else scale v (1 / len).

Definition Cross (a b : Vec3) : Vec3 :=
  mkVec3 (vy a * vz b - vz a * vy b)
         (vz a * vx b - vx a * vz b)
         (vx a * vy b - vy a * vx b).

Definition Dot (a b : Vec3) : R :=
  vx a * vx b + vy a * vy b + vz a * vz b.

Definition Distance (a b : Vec3) : R := length (subtract a b).
End Vector3.

(** ** BSplineCurve

    A curve is its list of control points; [degree] is the constant 3.
    A curve made by the constructor has no tangent cache (only
    [invalidateCache] allocates one, and nothing calls it), so
    [getTangentAt] always computes.

    Reading a control point out of range gives [undefined], and calling
    a method on it raises a TypeError: the functions return [None]
    then. *)

Record SplineFrame : Type := mkSplineFrame {
  sf_position : Vec3;
  sf_tangent : Vec3;
  sf_normal : Vec3;
  sf_binormal : Vec3
}.

Module BSplineCurve.
Import Vector3.
Local Open Scope R_scope.

Definition degree : nat := 3.

(** [throw new Error(...)] unless there are exactly 4 control points. *)
Definition evaluateBSpline (controlPoints : list Vec3) (t : R) : option Vec3 :=
  match controlPoints with
  | [c0; c1; c2; c3] =>
      let t2 := t * t in
      let t3 := t2 * t in
      let w0 := (- t3 + 3 * t2 - 3 * t + 1) / 6 in
      let w1 := (3 * t3 - 6 * t2 + 4) / 6 in
      let w2 := (- 3 * t3 + 3 * t2 + 3 * t + 1) / 6 in
      let w3 := t3 / 6 in
      Some (add (add (add (scale c0 w0) (scale c1 w1)) (scale c2 w2)) (scale c3 w3))
  | _ => None
  end.

(** [t = Math.max(0, Math.min(1, t))] *)
Definition clampT (t : R) : R := Rmax 0 (Rmin 1 t).

(** [numSpans = this.controlPoints.length - this.degree] *)
Definition numSpans (controlPoints : list Vec3) : Z :=
  (Z.of_nat (List.length controlPoints) - Z.of_nat degree)%Z.

(** [span = Math.floor(t * numSpans)], for the clamped [t]. *)
Definition spanOf (controlPoints : list Vec3) (t : R) : Z :=
  Int_part (t * IZR (numSpans controlPoints)).

(** [startIndex = Math.max(0, Math.min(span, this.controlPoints.length - 4))] *)
Definition startIndexOf (controlPoints : list Vec3) (span : Z) : Z :=
  Z.max 0 (Z.min span (Z.of_nat (List.length controlPoints) - 4)).

Definition getPointAt (controlPoints : list Vec3) (t : R) : option Vec3 :=
  if bool_decide (List.length controlPoints < 4)%nat then
    if bool_decide (List.length controlPoints = 0)%nat
    then Some (mkVec3 0 0 0)
    else p ← controlPoints !! 0%nat; Some p
  else
    let t := clampT t in
    let span := spanOf controlPoints t in
    let localT := t * IZR (numSpans controlPoints) - IZR span in
    let startIndex := Z.to_nat (startIndexOf controlPoints span) in
    p0 ← controlPoints !! startIndex;
    p1 ← controlPoints !! (startIndex + 1)%nat;
    p2 ← controlPoints !! (startIndex + 2)%nat;
    p3 ← controlPoints !! (startIndex + 3)%nat;
    evaluateBSpline [p0; p1; p2; p3] localT.

Definition getTangentAt (controlPoints : list Vec3) (t : R) : option Vec3 :=
  let delta := 0.001 in
  let t1 := Rmax 0 (t - delta) in
  let t2 := Rmin 1 (t + delta) in
  p1 ← getPointAt controlPoints t1;
  p2 ← getPointAt controlPoints t2;
  Some (normalize (subtract p2 p1)).

Definition getPerpendicularVector (vector : Vec3) : Vec3 :=
  let absX := Rabs (vx vector) in
  let absY := Rabs (vy vector) in
  let absZ := Rabs (vz vector) in
  if bool_decide (absX <= absY) && bool_decide (absX <= absZ)
  then normalize (Cross vector Right)
  else if bool_decide (absY <= absZ)
  then normalize (Cross vector Up)
  else normalize (Cross vector Forward).

Definition getFrenetFrameAt (controlPoints : list Vec3) (t : R) : option SplineFrame :=
  position ← getPointAt controlPoints t;
  tangent ← getTangentAt controlPoints t;
  let delta := 0.001 in
  let t1 := Rmax 0 (t - delta) in
  let t2 := Rmin 1 (t + delta) in
  tangent1 ← getTangentAt controlPoints t1;
  tangent2 ← getTangentAt controlPoints t2;
  let normal := subtract tangent2 tangent1 in
  let normal :=
    if bool_decide (length normal < 0.001)
    then getPerpendicularVector tangent
    else normalize normal in
  let binormal := normalize (Cross tangent normal) in
  let normal := normalize (Cross binormal tangent) in
  Some (mkSplineFrame position tangent normal binormal).

(** [createSmoothCurve(points, tension)]: the control points of the new
    curve. *)
Definition createSmoothCurve (points : list Vec3) (tension : R) : list Vec3 :=
  if bool_decide (List.length points < 2)%nat then points
  else
    match points !! 0%nat, points !! 1%nat,
          points !! (List.length points - 2)%nat,
          points !! (List.length points - 1)%nat with
    | Some first, Some second, Some secondLast, Some last =>
        let phantomStart := add first (scale (subtract first second) tension) in
        let phantomEnd := add last (scale (subtract last secondLast) tension) in
        phantomStart :: points ++ [phantomEnd]
    | _, _, _, _ => points
    end.
End BSplineCurve.

(** ** Strings

    [toUpperCase] on the ASCII letters; the sets and tables below have
    ASCII keys only. *)

Definition upperChar (c : ascii) : ascii :=
  let n := nat_of_ascii c in
  if bool_decide (97 <= n)%nat && bool_decide (n <= 122)%nat
  then ascii_of_nat (n - 32)
  else c.

Definition lowerChar (c : ascii) : ascii :=
  let n := nat_of_ascii c in
  if bool_decide (65 <= n)%nat && bool_decide (n <= 90)%nat
  then ascii_of_nat (n + 32)
  else c.

Fixpoint toLowerCase (s : string) : string :=
  match s with
  | EmptyString => EmptyString
  | String c s' => String (lowerChar c) (toLowerCase s')
  end.

Fixpoint toUpperCase (s : string) : string :=
  match s with
  | EmptyString => EmptyString
  | String c s' => String (upperChar c) (toUpperCase s')
  end.

(** ** Atoms

    The record that [parseAtom] builds.  It is parametric in the type of
    its numeric fields: the parser fills them with [jsnum], the geometry
    reads them as real numbers, the search for bonds as binary64
    numbers. *)

Record Atom (num : Type) : Type := mkAtom {
  a_id : num;
  a_name : string;
  a_altLoc : string;
  a_resName : string;
  a_chainId : string;
  a_resSeq : num;
  a_iCode : string;
  a_x : num;
  a_y : num;
  a_z : num;
  a_occupancy : num;
  a_tempFactor : num;
  a_element : string;
  a_charge : string;
  a_isHetAtom : bool
}.
Arguments mkAtom {num}.
Arguments a_id {num}.
Arguments a_name {num}.
Arguments a_altLoc {num}.
Arguments a_resName {num}.
Arguments a_chainId {num}.
Arguments a_resSeq {num}.
Arguments a_iCode {num}.
Arguments a_x {num}.
Arguments a_y {num}.
Arguments a_z {num}.
Arguments a_occupancy {num}.
Arguments a_tempFactor {num}.
Arguments a_element {num}.
Arguments a_charge {num}.
Arguments a_isHetAtom {num}.

(** ** PDBParser.calculateLigandBonds

    A bond holds references to two atom objects of the array; a
    reference is modelled by the atom's index in [atoms].  The numbers
    are binary64 numbers. *)

Record Bond : Type := mkBond {
  b_atom1 : nat;
  b_atom2 : nat;
  b_distance : PrimFloat.float
}.

Module Ligand.
Import PrimFloat.
Local Open Scope float_scope.

Definition covalentRadii : gmap string float :=
  list_to_map
    [ ("H", 0.31); ("C", 0.76); ("N", 0.71); ("O", 0.66); ("S", 1.05);
      ("P", 1.07); ("F", 0.57); ("CL", 1.02); ("BR", 1.20); ("I", 1.39);
      ("FE", 1.32); ("MG", 1.41); ("CA", 1.76); ("ZN", 1.22) ]%string.

(** [value || fallback] for a value that is a number or [undefined]:
    [undefined], the two zeros and not-a-number are falsy. *)
Definition orElse (value : option float) (fallback : float) : float :=
  match value with
  | Some r => if (r =? 0) || is_nan r then fallback else r
  | None => fallback
  end.

(** The body of the inner loop for the pair [(i, j)]: the bond it pushes,
    if any.  A comparison with not-a-number is false. *)
Definition bondBody (atoms : list (Atom float)) (i j : nat) : option Bond :=
  atom1 ← atoms !! i;
  atom2 ← atoms !! j;
  let dx := a_x atom2 - a_x atom1 in
  let dy := a_y atom2 - a_y atom1 in
  let dz := a_z atom2 - a_z atom1 in
  let distance := sqrt (dx * dx + dy * dy + dz * dz) in
  let r1 := orElse (covalentRadii !! toUpperCase (a_element atom1)) 0.76 in
  let r2 := orElse (covalentRadii !! toUpperCase (a_element atom2)) 0.76 in
  let maxDist := (r1 + r2) * 1.3 in
  if (distance <? maxDist) && (0.4 <? distance)
  then Some (mkBond i j distance)
  else None.

(** [for (let j = i + 1; j < atoms.length; j++)] *)
Fixpoint innerLoop (steps j : nat) (atoms : list (Atom float)) (i : nat)
    (bonds : list Bond) : list Bond :=
  match steps with
  | O => bonds
  | S steps' =>
      let bonds :=
        match bondBody atoms i j with
        | Some b => bonds ++ [b]
        | None => bonds
        end in
      innerLoop steps' (S j) atoms i bonds
  end.

(** [for (let i = 0; i < atoms.length; i++)] *)
Fixpoint outerLoop (steps i : nat) (atoms : list (Atom float))
    (bonds : list Bond) : list Bond :=
  match steps with
  | O => bonds
  | S steps' =>
      outerLoop steps' (S i) atoms
        (innerLoop (List.length atoms - (i + 1)) (i + 1) atoms i bonds)
  end.

Definition calculateLigandBonds (atoms : list (Atom float)) : list Bond :=
  outerLoop (List.length atoms) 0 atoms [].

(** The radius of the claim: the table entry of the upper-cased element
    symbol, 0.76 when there is none. *)
Definition tableRadius (element : string) : float :=
  default 0.76 (covalentRadii !! toUpperCase element).
End Ligand.

(** ** CartoonType, CartoonExtrude, CartoonShapes *)

Inductive CartoonType : Type :=
  | AUTO | TUBE | LOOP | HELIX | SHEET | ARROW | DASH | PUTTY
  | SKIP | SKIP_HELIX | SKIP_SHEET | SKIP_LOOP.

#[global] Instance CartoonType_eq_dec : EqDecision CartoonType.
Proof. solve_decision. Defined.

(** The fields of [CartoonExtrude] that the generator reads or writes
    ([alphas], [indices], [radius] and [scaleFactors] are only
    allocated). *)
Record CartoonExtrude : Type := mkExtrude {
  ex_n : nat;
  ex_points : list R;
  ex_normals : list R;
  ex_colors : list R;
  ex_shapeVertices : list R;
  ex_shapeNormals : list R;
  ex_nShapePoints : nat
}.

Module CartoonExtrudeOps.
Local Open Scope R_scope.

(** [new CartoonExtrude()] *)
Definition new : CartoonExtrude := mkExtrude 0 [] [] [] [] [] 0.

(** Typed arrays are zero-filled when allocated. *)
Definition allocatePointsNormalsColors (e : CartoonExtrude) (n : nat) : CartoonExtrude :=
  mkExtrude n (replicate (n * 3) 0) (replicate (n * 9) 0) (replicate (n * 3) 0)
            (ex_shapeVertices e) (ex_shapeNormals e) (ex_nShapePoints e).
End CartoonExtrudeOps.

Module CartoonShapes.
Local Open Scope R_scope.

(** The body of the loop of [circle]: it writes entry [i] of the two
    shape arrays. *)
Definition circleBody (n : nat) (size : R) (i : nat)
    (arrays : list R * list R) : list R * list R :=
  let '(shapeVertices, shapeNormals) := arrays in
  let angle := (2 * PI * INR i) / INR n in
  let x := size * cos angle in
  let y := size * sin angle in
  let z := 0 in
  let idx := (i * 3)%nat in
  (<[(idx + 2)%nat := z]> (<[(idx + 1)%nat := y]> (<[idx := x]> shapeVertices)),
   <[(idx + 2)%nat := 0]> (<[(idx + 1)%nat := sin angle]> (<[idx := cos angle]> shapeNormals))).

(** [circle(extrude, n, size)]: [for (let i = 0; i <= n; i++)] over two
    fresh arrays of [(n + 1) * 3] numbers; [nShapePoints = n + 1]. *)
Definition circle (extrude : CartoonExtrude) (n : nat) (size : R) : CartoonExtrude :=
  let shapeVertices := replicate ((n + 1) * 3) 0 in
  let shapeNormals := replicate ((n + 1) * 3) 0 in
  let '(shapeVertices, shapeNormals) :=
    forLoop (n + 1) 0 (circleBody n size) (shapeVertices, shapeNormals) in
  mkExtrude (ex_n extrude) (ex_points extrude) (ex_normals extrude) (ex_colors extrude)
            shapeVertices shapeNormals (n + 1).

(** One edge of [rectangle]: [for (let i = 0; i < 4; i++)] pushes a point
    and a normal. *)
Definition edgeLoop (point : R -> list R) (normal : list R)
    (acc : list (list R) * list (list R)) : list (list R) * list (list R) :=
  forLoop 4 0 (fun i '(points, normals) =>
                 let t := INR i / 3 in
                 (points ++ [point t], normals ++ [normal])) acc.

Definition writeShape (i : nat) (points normals : list (list R))
    (arrays : list R * list R) : list R * list R :=
  let '(shapeVertices, shapeNormals) := arrays in
  let idx := (i * 3)%nat in
  let p := default [] (points !! i) in
  let nrm := default [] (normals !! i) in
  (<[(idx + 2)%nat := rd p 2]> (<[(idx + 1)%nat := rd p 1]> (<[idx := rd p 0]> shapeVertices)),
   <[(idx + 2)%nat := rd nrm 2]> (<[(idx + 1)%nat := rd nrm 1]> (<[idx := rd nrm 0]> shapeNormals))).

(** [rectangle(extrude, width, length)] *)
Definition rectangle (extrude : CartoonExtrude) (width length : R) : CartoonExtrude :=
  let w := width / 2 in
  let l := length / 2 in
  let acc := ([], []) in
  let acc := edgeLoop (fun t => [- l + t * 2 * l; w; 0]) [0; 1; 0] acc in
  let acc := edgeLoop (fun t => [l; w - t * 2 * w; 0]) [1; 0; 0] acc in
  let acc := edgeLoop (fun t => [l - t * 2 * l; - w; 0]) [0; -1; 0] acc in
  let acc := edgeLoop (fun t => [- l; - w + t * 2 * w; 0]) [-1; 0; 0] acc in
  let '(points, normals) := acc in
  let '(shapeVertices, shapeNormals) :=
    forLoop (List.length points) 0 (fun i => writeShape i points normals)
            (replicate (16 * 3) 0, replicate (16 * 3) 0) in
  mkExtrude (ex_n extrude) (ex_points extrude) (ex_normals extrude) (ex_colors extrude)
            shapeVertices shapeNormals (List.length points).
End CartoonShapes.

(** ** CartoonGenerator.generateGeometry *)

Record Geometry : Type := mkGeometry {
  g_vertices : list R;
  g_normals : list R;
  g_colors : list R;
  g_indices : list nat
}.

Module CartoonGeometry.
Local Open Scope R_scope.

(** The body of the inner vertex loop, for cross-section [i] and shape
    point [j]. *)
Definition vertexBody (extrude : CartoonExtrude) (i j : nat)
    (acc : list R * list R * list R) : list R * list R * list R :=
  let '(vertices, normals, colors) := acc in
  let pointIdx := (i * 3)%nat in
  let frameIdx := (i * 9)%nat in
  let colorIdx := (i * 3)%nat in
  let point := mkVec3 (rd (ex_points extrude) pointIdx)
                      (rd (ex_points extrude) (pointIdx + 1))
                      (rd (ex_points extrude) (pointIdx + 2)) in
  let normal := mkVec3 (rd (ex_normals extrude) (frameIdx + 3))
                       (rd (ex_normals extrude) (frameIdx + 4))
                       (rd (ex_normals extrude) (frameIdx + 5)) in
  let binormal := mkVec3 (rd (ex_normals extrude) (frameIdx + 6))
                         (rd (ex_normals extrude) (frameIdx + 7))
                         (rd (ex_normals extrude) (frameIdx + 8)) in
  let color := mkVec3 (rd (ex_colors extrude) colorIdx)
                      (rd (ex_colors extrude) (colorIdx + 1))
                      (rd (ex_colors extrude) (colorIdx + 2)) in
  let shapeIdx := (j * 3)%nat in
  let shapePoint := mkVec3 (rd (ex_shapeVertices extrude) shapeIdx)
                           (rd (ex_shapeVertices extrude) (shapeIdx + 1))
                           (rd (ex_shapeVertices extrude) (shapeIdx + 2)) in
  let shapeNormal := mkVec3 (rd (ex_shapeNormals extrude) shapeIdx)
                            (rd (ex_shapeNormals extrude) (shapeIdx + 1))
                            (rd (ex_shapeNormals extrude) (shapeIdx + 2)) in
  let worldPoint :=
    mkVec3 (vx point + vx shapePoint * vx normal + vy shapePoint * vx binormal)
           (vy point + vx shapePoint * vy normal + vy shapePoint * vy binormal)
           (vz point + vx shapePoint * vz normal + vy shapePoint * vz binormal) in
  let worldNormal :=
    mkVec3 (vx shapeNormal * vx normal + vy shapeNormal * vx binormal)
           (vx shapeNormal * vy normal + vy shapeNormal * vy binormal)
           (vx shapeNormal * vz normal + vy shapeNormal * vz binormal) in
  (vertices ++ [vx worldPoint; vy worldPoint; vz worldPoint],
   normals ++ [vx worldNormal; vy worldNormal; vz worldNormal],
   colors ++ [vx color; vy color; vz color; 1]).

(** The body of the inner index loop: two triangles. *)
Definition indexBody (shapePoints i j : nat) (indices : list nat) : list nat :=
  let nextJ := ((j + 1) mod shapePoints)%nat in
  let i1 := (i * shapePoints + j)%nat in
  let i2 := (i * shapePoints + nextJ)%nat in
  let i3 := ((i + 1) * shapePoints + j)%nat in
  let i4 := ((i + 1) * shapePoints + nextJ)%nat in
  (indices ++ [i1; i2; i3]) ++ [i2; i4; i3].

Definition generateGeometry (extrude : CartoonExtrude) : Geometry :=
  let n := ex_n extrude in
  let shapePoints := ex_nShapePoints extrude in
  if bool_decide (n < 2)%nat || bool_decide (shapePoints < 3)%nat
  then mkGeometry [] [] [] []
  else
    let '(vertices, normals, colors) :=
      forLoop n 0 (fun i => forLoop shapePoints 0 (vertexBody extrude i))
              ([], [], []) in
    let indices :=
      forLoop (n - 1) 0 (fun i => forLoop shapePoints 0 (indexBody shapePoints i)) [] in
    mkGeometry vertices normals colors indices.

(** [vertices] is flat, three numbers per vertex. *)
Definition vertexCount (g : Geometry) : nat := (List.length (g_vertices g) / 3)%nat.
End CartoonGeometry.

(** ** Residues and chains *)

Record Residue : Type := mkResidue {
  r_chainId : string;
  r_resSeq : Z;
  r_iCode : string;
  r_resName : string;
  r_atoms : list (Atom R);
  r_secondaryStructure : string;
  r_ssConfidence : option R;
  r_isProtein : bool;
  r_isNucleic : bool;
  r_isWater : bool;
  r_ca : option (Atom R)
}.

Record Chain : Type := mkChain {
  c_id : string;
  c_residues : list Residue;
  c_type : string
}.

(** [parser.chains.find(c => c.id === chainId)] *)
Definition findChain (chains : list Chain) (chainId : string) : option Chain :=
  List.find (fun c => bool_decide (c_id c = chainId)) chains.

(** ** CartoonInterpolation and CartoonMath.computeFrenetFrame *)

Module CartoonInterpolation.
Local Open Scope R_scope.

Definition catmullRom (p0 p1 p2 p3 : Vec3) (t : R) : Vec3 :=
  let t2 := t * t in
  let t3 := t2 * t in
  mkVec3
    (0.5 * ((2 * vx p1) + (- vx p0 + vx p2) * t +
            (2 * vx p0 - 5 * vx p1 + 4 * vx p2 - vx p3) * t2 +
            (- vx p0 + 3 * vx p1 - 3 * vx p2 + vx p3) * t3))
    (0.5 * ((2 * vy p1) + (- vy p0 + vy p2) * t +
            (2 * vy p0 - 5 * vy p1 + 4 * vy p2 - vy p3) * t2 +
            (- vy p0 + 3 * vy p1 - 3 * vy p2 + vy p3) * t3))
    (0.5 * ((2 * vz p1) + (- vz p0 + vz p2) * t +
            (2 * vz p0 - 5 * vz p1 + 4 * vz p2 - vz p3) * t2 +
            (- vz p0 + 3 * vz p1 - 3 * vz p2 + vz p3) * t3)).

Definition linearInterpolate (p1 p2 : Vec3) (t : R) : Vec3 :=
  mkVec3 (vx p1 + t * (vx p2 - vx p1))
         (vy p1 + t * (vy p2 - vy p1))
         (vz p1 + t * (vz p2 - vz p1)).
End CartoonInterpolation.

Module CartoonFrames.
Import CartoonMath.
Local Open Scope R_scope.

(** The "arbitrary perpendicular vector" that [computeFrenetFrame]
    takes at the ends and as a fallback. *)
Definition arbitraryPerpendicular (tangent : Vec3) : Vec3 :=
  if bool_decide (Rabs (vy tangent) < 0.9)
  then cross tangent (mkVec3 0 1 0)
  else cross tangent (mkVec3 1 0 0).

Definition computeFrenetFrame (points : list Vec3) (index : nat) : option Frame :=
  let n := List.length points in
  tangent ←
    (if bool_decide (index = 0)%nat then
       p1 ← points !! 1%nat; p0 ← points !! 0%nat; Some (subtract p1 p0)
     else if bool_decide (index = n - 1)%nat then
       a ← points !! (n - 1)%nat; b ← points !! (n - 2)%nat; Some (subtract a b)
     else
       a ← points !! (index + 1)%nat; b ← points !! (index - 1)%nat;
       Some (subtract a b));
  let tangent := normalize tangent in
  normal ←
    (if bool_decide (index = 0)%nat || bool_decide (index = n - 1)%nat then
       Some (arbitraryPerpendicular tangent)
     else
       prev ← points !! (index - 1)%nat;
       curr ← points !! index;
       next ← points !! (index + 1)%nat;
       let d1 := subtract curr prev in
       let d2 := subtract next curr in
       let curvature := subtract d2 d1 in
       let proj := scale tangent (dot curvature tangent) in
       let normal := subtract curvature proj in
       if bool_decide (length normal < 1e-6)
       then Some (arbitraryPerpendicular tangent)
       else Some normal);
  let normal := normalize normal in
  let binormal := normalize (cross tangent normal) in
  Some (mkFrame tangent normal binormal).
End CartoonFrames.

(** ** CartoonGenerator *)

Record Settings : Type := mkSettings {
  sampling : nat;
  helix_radius : R;
  sheet_width : R;
  sheet_length : R;
  loop_radius : R;
  smooth_power : R;
  arrow_scale : R;
  putty_scale : R
}.

(** A backbone point [{x, y, z, residue, atomName}]. *)
Record BackbonePoint : Type := mkBackbonePoint {
  bp_pos : Vec3;
  bp_residue : Residue;
  bp_atomName : string
}.

Record CSegment : Type := mkCSegment {
  cs_point1 : BackbonePoint;
  cs_point2 : BackbonePoint;
  cs_cartoonType : CartoonType;
  cs_residue : Residue;
  cs_index : nat
}.

Record Group : Type := mkGroup {
  gr_cartoonType : CartoonType;
  gr_segments : list CSegment;
  gr_points : list BackbonePoint
}.

Record Curve : Type := mkCurve {
  cv_cartoonType : CartoonType;
  cv_points : list Vec3;
  cv_frames : list Frame;
  cv_colors : list (list R);
  cv_segments : list CSegment
}.

(** What [generateMesh] hands to the renderer: the vertex data and the
    cartoon type that names the mesh.  It sets no [metadata]. *)
Record CartoonMesh : Type := mkCartoonMesh {
  cm_cartoonType : CartoonType;
  cm_vertexData : Geometry
}.

Module CartoonGenerator.
Import CartoonMath.
Local Open Scope R_scope.

Definition defaultSettings : Settings :=
  mkSettings 20 1.8 2.5 0.3 0.8 2.0 1.5 2.0.

Definition extractBackboneCoordinates (chain : Chain) : list BackbonePoint :=
  foldl (fun points residue =>
           match r_ca residue with
           | Some ca => points ++ [mkBackbonePoint (mkVec3 (a_x ca) (a_y ca) (a_z ca)) residue "CA"]
           | None => points
           end) [] (c_residues chain).

(** The body of the loop of [autoDetectSecondaryStructure] over the
    window [segmentPoints]. *)
Definition autoDetectBody (segmentPoints : list Vec3) (i : nat) (acc : R * R) : option (R * R) :=
  let '(totalCurvature, regularityScore) := acc in
  p1 ← segmentPoints !! (i - 1)%nat;
  p2 ← segmentPoints !! i;
  p3 ← segmentPoints !! (i + 1)%nat;
  let v1 := normalize (subtract p2 p1) in
  let v2 := normalize (subtract p3 p2) in
  let angle := acos (Rmax (-1) (Rmin 1 (dot v1 v2))) in
  let d1 := distance p1 p2 in
  let d2 := distance p2 p3 in
  Some (totalCurvature + angle, regularityScore + Rabs (d1 - d2)).

Definition autoDetectSecondaryStructure (points : list Vec3) (index : nat) : option CartoonType :=
  let windowSize := 4%nat in
  let start := (index - windowSize)%nat in
  let end_ := Nat.min (List.length points) (index + windowSize + 1) in
  if bool_decide (end_ - start < 3)%nat then Some LOOP
  else
    let segmentPoints := take (end_ - start) (drop start points) in
    '(totalCurvature, regularityScore) ←
      forLoopM (List.length segmentPoints - 2) 1 (autoDetectBody segmentPoints) (0, 0);
    let avgCurvature := totalCurvature / (INR (List.length segmentPoints) - 2) in
    let avgRegularity := regularityScore / (INR (List.length segmentPoints) - 2) in
    if bool_decide (avgCurvature < 0.3) && bool_decide (avgRegularity < 1.0) then Some HELIX
    else if bool_decide (avgCurvature < 0.5) && bool_decide (avgRegularity < 2.0) then Some SHEET
    else Some LOOP.

(** The [switch] on [residue.secondaryStructure.toLowerCase()]. *)
Definition cartoonTypeOfLabel (label : string) : CartoonType :=
  let l := toLowerCase label in
  if bool_decide (l = "helix") || bool_decide (l = "h") then HELIX
  else if bool_decide (l = "sheet") || bool_decide (l = "strand") || bool_decide (l = "e")
  then SHEET
  else LOOP.

(** [groupSegmentsByType]: the loop state is [(groups, currentGroup)]. *)
Definition groupBody (segment : CSegment)
    (st : list Group * option Group) : list Group * option Group :=
  let '(groups, currentGroup) := st in
  match currentGroup with
  | Some g =>
      if bool_decide (gr_cartoonType g <> cs_cartoonType segment) then
        (groups ++ [g],
         Some (mkGroup (cs_cartoonType segment) [segment]
                       [cs_point1 segment; cs_point2 segment]))
      else
        (groups,
         Some (mkGroup (gr_cartoonType g) (gr_segments g ++ [segment])
                       (gr_points g ++ [cs_point2 segment])))
  | None =>
      (groups,
       Some (mkGroup (cs_cartoonType segment) [segment]
                     [cs_point1 segment; cs_point2 segment]))
  end.

Definition groupSegmentsByType (segments : list CSegment) : list Group :=
  let '(groups, currentGroup) :=
    foldl (fun st segment => groupBody segment st) ([], None) segments in
  match currentGroup with
  | Some g => groups ++ [g]
  | None => groups
  end.

Definition detectBody (points : list BackbonePoint) (i : nat)
    (segments : list CSegment) : option (list CSegment) :=
  point1 ← points !! i;
  point2 ← points !! (i + 1)%nat;
  let residue := bp_residue point1 in
  cartoonType ←
    (if bool_decide (r_secondaryStructure residue <> "")
     then Some (cartoonTypeOfLabel (r_secondaryStructure residue))
     else autoDetectSecondaryStructure (bp_pos <$> points) i);
  Some (segments ++ [mkCSegment point1 point2 cartoonType residue i]).

Definition detectSecondaryStructure (points : list BackbonePoint) : option (list Group) :=
  segments ← forLoopM (List.length points - 1) 0 (detectBody points) [];
  Some (groupSegmentsByType segments).

(** The body of the loop of [interpolateSmooth].  ([smoothT] is computed
    and never used.) *)
Definition interpolateBody (points : list Vec3) (totalSegments : nat) (i : nat)
    (smoothPoints : list Vec3) : option (list Vec3) :=
  let len := Z.of_nat (List.length points) in
  let t := INR i / (INR totalSegments - 1) in
  let segmentIndex := Int_part (t * (IZR len - 1)) in
  let localT := (t * (IZR len - 1)) - IZR segmentIndex in
  interpolatedPoint ←
    (if bool_decide (List.length points = 2)%nat then
       a ← points !! 0%nat; b ← points !! 1%nat;
       Some (CartoonInterpolation.linearInterpolate a b localT)
     else
       p0 ← lookupZ points (Z.max 0 (segmentIndex - 1));
       p1 ← lookupZ points segmentIndex;
       p2 ← lookupZ points (Z.min (len - 1) (segmentIndex + 1));
       p3 ← lookupZ points (Z.min (len - 1) (segmentIndex + 2));
       Some (CartoonInterpolation.catmullRom p0 p1 p2 p3 localT));
  Some (smoothPoints ++ [interpolatedPoint]).

Definition interpolateSmooth (points : list Vec3) (sampling : nat) : option (list Vec3) :=
  if bool_decide (List.length points < 2)%nat then Some points
  else
    let totalSegments := ((List.length points - 1) * sampling)%nat in
    forLoopM totalSegments 0 (interpolateBody points totalSegments) [].

Definition computeFrenetFrames (points : list Vec3) : option (list Frame) :=
  frames ← forLoopM (List.length points) 0
             (fun i frames => frame ← CartoonFrames.computeFrenetFrame points i;
                              Some (frames ++ [frame])) [];
  Some (Twist.minimizeFrameTwisting frames).

Definition colorOf (cartoonType : CartoonType) : list R :=
  match cartoonType with
  | HELIX => [0.8; 0.2; 0.2]
  | SHEET => [0.2; 0.2; 0.8]
  | _ => [0.2; 0.8; 0.2]
  end.

Definition generateColors (segments : list CSegment) : list (list R) :=
  foldl (fun colors segment => colors ++ [colorOf (cs_cartoonType segment)]) [] segments.

(** The body of the loop of [generateSmoothCurves] ([continue] for a
    group of fewer than two points). *)
Definition curveBody (settings : Settings) (group : Group)
    (curves : list Curve) : option (list Curve) :=
  let points := gr_points group in
  if bool_decide (List.length points < 2)%nat then Some curves
  else
    smoothPoints ← interpolateSmooth (bp_pos <$> points) (sampling settings);
    frames ← computeFrenetFrames smoothPoints;
    let colors := generateColors (gr_segments group) in
    Some (curves ++ [mkCurve (gr_cartoonType group) smoothPoints frames colors
                             (gr_segments group)]).

Definition generateSmoothCurves (segmentGroups : list Group) (settings : Settings)
    : option (list Curve) :=
  foldl (fun acc group => curves ← acc; curveBody settings group curves)
        (Some []) segmentGroups.

Definition copyPoint (curve : Curve) (i : nat) (e : CartoonExtrude) : option CartoonExtrude :=
  point ← cv_points curve !! i;
  let idx := (i * 3)%nat in
  Some (mkExtrude (ex_n e)
          (<[(idx + 2)%nat := vz point]> (<[(idx + 1)%nat := vy point]> (<[idx := vx point]> (ex_points e))))
          (ex_normals e) (ex_colors e)
          (ex_shapeVertices e) (ex_shapeNormals e) (ex_nShapePoints e)).

Definition copyFrame (curve : Curve) (i : nat) (e : CartoonExtrude) : option CartoonExtrude :=
  frame ← cv_frames curve !! i;
  let idx := (i * 9)%nat in
  let normals := ex_normals e in
  let normals := <[idx := vx (tangent frame)]> normals in
  let normals := <[(idx + 1)%nat := vy (tangent frame)]> normals in
  let normals := <[(idx + 2)%nat := vz (tangent frame)]> normals in
  let normals := <[(idx + 3)%nat := vx (normal frame)]> normals in
  let normals := <[(idx + 4)%nat := vy (normal frame)]> normals in
  let normals := <[(idx + 5)%nat := vz (normal frame)]> normals in
  let normals := <[(idx + 6)%nat := vx (binormal frame)]> normals in
  let normals := <[(idx + 7)%nat := vy (binormal frame)]> normals in
  let normals := <[(idx + 8)%nat := vz (binormal frame)]> normals in
  Some (mkExtrude (ex_n e) (ex_points e) normals (ex_colors e)
          (ex_shapeVertices e) (ex_shapeNormals e) (ex_nShapePoints e)).

Definition setColor (color : list R) (i : nat) (e : CartoonExtrude) : CartoonExtrude :=
  let idx := (i * 3)%nat in
  mkExtrude (ex_n e) (ex_points e) (ex_normals e)
    (<[(idx + 2)%nat := rd color 2]> (<[(idx + 1)%nat := rd color 1]> (<[idx := rd color 0]> (ex_colors e))))
    (ex_shapeVertices e) (ex_shapeNormals e) (ex_nShapePoints e).

Definition createExtrusion (curve : Curve) (settings : Settings) : option CartoonExtrude :=
  let n := List.length (cv_points curve) in
  let extrude := CartoonExtrudeOps.allocatePointsNormalsColors CartoonExtrudeOps.new n in
  extrude ← forLoopM n 0 (copyPoint curve) extrude;
  extrude ← forLoopM n 0 (copyFrame curve) extrude;
  let colorIndex := (List.length (cv_colors curve) / 2)%nat in
  let color := default [0.8; 0.8; 0.8] (cv_colors curve !! colorIndex) in
  let extrude := forLoop n 0 (setColor color) extrude in
  Some
    match cv_cartoonType curve with
    | HELIX => CartoonShapes.circle extrude 12 (helix_radius settings)
    | SHEET => CartoonShapes.rectangle extrude (sheet_width settings) (sheet_length settings)
    | _ => CartoonShapes.circle extrude 8 (loop_radius settings)
    end.

(** [generateMesh]: [null] ([None]) for an empty geometry. *)
Definition generateMesh (extrude : CartoonExtrude) (cartoonType : CartoonType)
    : option CartoonMesh :=
  let geometry := CartoonGeometry.generateGeometry extrude in
  if bool_decide (List.length (g_vertices geometry) = 0)%nat then None
  else Some (mkCartoonMesh cartoonType geometry).

Definition meshBody (settings : Settings) (curve : Curve)
    (meshes : list CartoonMesh) : option (list CartoonMesh) :=
  extrude ← createExtrusion curve settings;
  match generateMesh extrude (cv_cartoonType curve) with
  | Some mesh => Some (meshes ++ [mesh])
  | None => Some meshes
  end.

(** [generateCartoon(parser, chainId)]: the meshes it returns; [None]
    when an exception leaves it. *)
Definition generateCartoon (chains : list Chain) (chainId : string) (settings : Settings)
    : option (list CartoonMesh) :=
  match findChain chains chainId with
  | None => Some []
  | Some chain =>
      if bool_decide (List.length (c_residues chain) < 2)%nat then Some []
      else
        let backbonePoints := extractBackboneCoordinates chain in
        if bool_decide (List.length backbonePoints < 2)%nat then Some []
        else
          cartoonSegments ← detectSecondaryStructure backbonePoints;
          smoothCurves ← generateSmoothCurves cartoonSegments settings;
          foldl (fun acc curve => meshes ← acc; meshBody settings curve meshes)
                (Some []) smoothCurves
  end.
End CartoonGenerator.

(** ** RibbonGeometryGenerator *)

Record ProfilePoint : Type := mkProfilePoint {
  pp_x : R;
  pp_y : R;
  pp_isCircular : bool
}.

Record Segment : Type := mkSegment {
  s_position : Vec3;
  s_tangent : Vec3;
  s_normal : Vec3;
  s_binormal : Vec3;
  s_profile : list ProfilePoint;
  s_residue : Residue;
  s_t : R;
  s_segmentIndex : nat
}.

Record Metadata : Type := mkMetadata {
  md_chainId : string;
  md_secondaryStructure : string;
  md_rangeStart : Z;
  md_rangeEnd : Z
}.

(** A ribbon mesh: its name [`${chainId}_${i}`] as the pair, the vertex
    data that the generator computes itself, and the metadata.  (The
    vertex normals are computed by Babylon from positions and indices.) *)
Record RibbonMesh : Type := mkRibbonMesh {
  rm_name : string * nat;
  rm_positions : list R;
  rm_indices : list nat;
  rm_uvs : list R;
  rm_metadata : Metadata
}.

Module Ribbon.
Local Open Scope R_scope.

(** A backbone entry [{residue, x, y, z, secondaryStructure}]. *)
Definition extractBackbone (residues : list Residue) : list (Residue * Vec3) :=
  foldl (fun backbone residue =>
           match r_ca residue with
           | Some ca =>
               if r_isProtein residue
               then backbone ++ [(residue, mkVec3 (a_x ca) (a_y ca) (a_z ca))]
               else backbone
           | None => backbone
           end) [] residues.

(** [BSplineCurve.createProteinBackbone(caAtoms)]: the control points. *)
Definition createProteinBackbone (caAtoms : list (Residue * Vec3)) : list Vec3 :=
  if bool_decide (List.length caAtoms < 2)%nat then []
  else BSplineCurve.createSmoothCurve (snd <$> caAtoms) 0.3.

Definition getHelixProfile : list ProfilePoint :=
  let radius := 1.2 in
  let segments := 12%nat in
  forLoop segments 0
    (fun i profile =>
       let angle := (INR i / INR segments) * 2 * PI in
       profile ++ [mkProfilePoint (cos angle * radius) (sin angle * radius) true])
    [].

Definition getSheetProfile : list ProfilePoint :=
  let width := 2.5 in
  let thickness := 0.3 in
  [ mkProfilePoint (- width / 2) (- thickness / 2) false;
    mkProfilePoint (width / 2) (- thickness / 2) false;
    mkProfilePoint (width / 2) (thickness / 2) false;
    mkProfilePoint (- width / 2) (thickness / 2) false ].

Definition getCoilProfile : list ProfilePoint :=
  let width := 0.8 in
  let thickness := 0.2 in
  [ mkProfilePoint (- width / 2) (- thickness / 2) false;
    mkProfilePoint (width / 2) (- thickness / 2) false;
    mkProfilePoint (width / 2) (thickness / 2) false;
    mkProfilePoint (- width / 2) (thickness / 2) false ].

Definition getProfileForSecondaryStructure (ssType : string) : list ProfilePoint :=
  if bool_decide (ssType = "helix") then getHelixProfile
  else if bool_decide (ssType = "sheet") then getSheetProfile
  else getCoilProfile.

(** [interpolateProfiles]: [profile[i % profile.length]] of an empty
    profile is [undefined], and reading its [x] raises. *)
Definition interpolateProfiles (profile1 profile2 : list ProfilePoint) (t : R)
    : option (list ProfilePoint) :=
  let maxLength := Nat.max (List.length profile1) (List.length profile2) in
  forLoopM maxLength 0
    (fun i result =>
       if bool_decide (List.length profile1 = 0)%nat || bool_decide (List.length profile2 = 0)%nat
       then None
       else
         p1 ← profile1 !! (i mod List.length profile1)%nat;
         p2 ← profile2 !! (i mod List.length profile2)%nat;
         Some (result ++ [mkProfilePoint (pp_x p1 * (1 - t) + pp_x p2 * t)
                                         (pp_y p1 * (1 - t) + pp_y p2 * t) false]))
    [].

Definition withProfile (s : Segment) (profile : list ProfilePoint) : Segment :=
  mkSegment (s_position s) (s_tangent s) (s_normal s) (s_binormal s) profile
            (s_residue s) (s_t s) (s_segmentIndex s).

(** The body of the loop of [smoothTransitions]; it replaces the profile
    of [segments[i]] in place. *)
Definition smoothBody (i : nat) (segments : list Segment) : option (list Segment) :=
  prev ← segments !! (i - 1)%nat;
  current ← segments !! i;
  next ← segments !! (i + 1)%nat;
  let ssPrev := r_secondaryStructure (s_residue prev) in
  let ssCurrent := r_secondaryStructure (s_residue current) in
  let ssNext := r_secondaryStructure (s_residue next) in
  if bool_decide (ssPrev <> ssCurrent) || bool_decide (ssCurrent <> ssNext) then
    let blendFactor := 0.3 in
    if bool_decide (ssPrev <> ssCurrent) then
      profile ← interpolateProfiles (s_profile prev) (s_profile current) blendFactor;
      Some (<[i := withProfile current profile]> segments)
    else Some segments
  else Some segments.

Definition smoothTransitions (segments : list Segment) : option (list Segment) :=
  forLoopM (List.length segments - 2) 1 smoothBody segments.

Definition segmentBody (spline : list Vec3) (residues : list Residue)
    (pointsPerResidue totalPoints : nat) (i : nat) (segments : list Segment)
    : option (list Segment) :=
  let t := INR i / (INR totalPoints - 1) in
  frame ← BSplineCurve.getFrenetFrameAt spline t;
  let residueIndex := (i / pointsPerResidue)%nat in
  residue ← residues !! Nat.min residueIndex (List.length residues - 1);
  let profile := getProfileForSecondaryStructure (r_secondaryStructure residue) in
  Some (segments ++ [mkSegment (sf_position frame) (sf_tangent frame) (sf_normal frame)
                               (sf_binormal frame) profile residue t i]).

Definition generateSegments (spline : list Vec3) (residues : list Residue)
    : option (list Segment) :=
  let pointsPerResidue := 8%nat in
  let totalPoints := (List.length residues * pointsPerResidue)%nat in
  segments ← forLoopM totalPoints 0
                (segmentBody spline residues pointsPerResidue totalPoints) [];
  smoothTransitions segments.

Definition transformProfileToWorld (segment : Segment) : list Vec3 :=
  foldl (fun worldPoints point =>
           let localX := pp_x point in
           let localY := pp_y point in
           worldPoints ++
             [Vector3.add (Vector3.add (s_position segment)
                                       (Vector3.scale (s_normal segment) localX))
                          (Vector3.scale (s_binormal segment) localY)])
        [] (s_profile segment).

(** The vertex loop of [createSegmentMesh] for segment [i]: positions
    and uvs ([worldProfile.indexOf(point)] is the position [k] of the
    point, the points of a profile being distinct objects). *)
Definition positionsBody (count : nat) (i : nat) (segment : Segment)
    (acc : list R * list R) : list R * list R :=
  let worldProfile := transformProfileToWorld segment in
  forLoop (List.length worldProfile) 0
    (fun k '(positions, uvs) =>
       let point := default Vector3.Zero (worldProfile !! k) in
       let u := INR i / (INR count - 1) in
       let v := INR k / (INR (List.length worldProfile) - 1) in
       (positions ++ [vx point; vy point; vz point], uvs ++ [u; v]))
    acc.

Definition facesBody (segments : list Segment) (i : nat) (indices : list nat) : list nat :=
  let profileSize := List.length (default [] (s_profile <$> segments !! i)) in
  forLoop profileSize 0
    (fun j indices =>
       let next := ((j + 1) mod profileSize)%nat in
       let c1 := (i * profileSize + j)%nat in
       let c2 := (i * profileSize + next)%nat in
       let n1 := ((i + 1) * profileSize + j)%nat in
       let n2 := ((i + 1) * profileSize + next)%nat in
       (indices ++ [c1; n1; c2]) ++ [c2; n1; n2])
    indices.

(** [createSegmentMesh(segments, name)]: [null] ([None]) for fewer than
    two segments. *)
Definition createSegmentMesh (segments : list Segment) (name : string * nat)
    : option RibbonMesh :=
  if bool_decide (List.length segments < 2)%nat then None
  else
    let '(positions, uvs) :=
      forLoop (List.length segments) 0
        (fun i acc =>
           match segments !! i with
           | Some segment => positionsBody (List.length segments) i segment acc
           | None => acc
           end) ([], []) in
    let indices := forLoop (List.length segments - 1) 0 (facesBody segments) [] in
    first ← segments !! 0%nat;
    last ← segments !! (List.length segments - 1)%nat;
    let ssType := r_secondaryStructure (s_residue first) in
    Some (mkRibbonMesh name positions indices uvs
            (mkMetadata (r_chainId (s_residue first)) ssType
                        (r_resSeq (s_residue first)) (r_resSeq (s_residue last)))).

(** [for (let i = 0; i < segments.length - segmentLength; i += segmentLength)],
    with [fuel] iterations at most. *)
Fixpoint ribbonLoop (fuel i : nat) (segments : list Segment) (chainId : string)
    (meshes : list RibbonMesh) : list RibbonMesh :=
  let segmentLength := 4%nat in
  match fuel with
  | O => meshes
  | S fuel' =>
      if bool_decide (Z.of_nat i < Z.of_nat (List.length segments) - Z.of_nat segmentLength)%Z
      then
        let segmentGroup := take (segmentLength + 1) (drop i segments) in
        let meshes :=
          match createSegmentMesh segmentGroup (chainId, i) with
          | Some mesh => meshes ++ [mesh]
          | None => meshes
          end in
        ribbonLoop fuel' (i + segmentLength) segments chainId meshes
      else meshes
  end.

Definition createRibbonMeshes (segments : list Segment) (chainId : string)
    : list RibbonMesh :=
  ribbonLoop (List.length segments) 0 segments chainId [].

(** The residue of sample [j] in [generateSegments]:
    [residues[Math.min(Math.floor(j / 8), residues.length - 1)]]. *)
Definition residueOfSample (residues : list Residue) (j : nat) : option Residue :=
  residues !! Nat.min (j / 8) (List.length residues - 1).

(** The metadata that the loop of [createRibbonMeshes] attaches, read off
    the residues of the segments: a chunk that starts at segment [i]
    ends at segment [i + 4]. *)
Fixpoint chunkMetadata (fuel i : nat) (residues : list Residue) : list Metadata :=
  match fuel with
  | O => []
  | S fuel' =>
      if bool_decide (Z.of_nat i < Z.of_nat (List.length residues) - 4)%Z then
        match residues !! i, residues !! (i + 4)%nat with
        | Some first, Some last =>
            mkMetadata (r_chainId first) (r_secondaryStructure first)
                       (r_resSeq first) (r_resSeq last)
            :: chunkMetadata fuel' (i + 4) residues
        | _, _ => []
        end
      else []
  end.

(** [generateRibbon(parser, chainId)] *)
Definition generateRibbon (chains : list Chain) (chainId : string)
    : option (list RibbonMesh) :=
  match findChain chains chainId with
  | None => Some []
  | Some chain =>
      if bool_decide (c_type chain <> "protein") then Some []
      else
        let backboneAtoms := extractBackbone (c_residues chain) in
        if bool_decide (List.length backboneAtoms < 4)%nat then Some []
        else
          let spline := createProteinBackbone backboneAtoms in
          segments ← generateSegments spline (c_residues chain);
          Some (createRibbonMeshes segments chainId)
  end.
End Ribbon.

(** ** SecondaryStructureAnalyzer *)

Record Score : Type := mkScore {
  sc_index : nat;
  sc_helixScore : R;
  sc_sheetScore : R;
  sc_coilScore : R;
  sc_confidence : R
}.

Record LocalGeometry : Type := mkLocalGeometry {
  lg_helix : R;
  lg_sheet : R;
  lg_coil : R;
  lg_confidence : R
}.

Record Assignment : Type := mkAssignment {
  as_index : nat;
  as_assignment : string;
  as_score : Score;
  as_residue : option Residue
}.

(** [a.assignment = label] *)
Definition setAssignment (label : string) (a : Assignment) : Assignment :=
  mkAssignment (as_index a) label (as_score a) (as_residue a).

Definition setStructure (label : string) (confidence : R) (r : Residue) : Residue :=
  mkResidue (r_chainId r) (r_resSeq r) (r_iCode r) (r_resName r) (r_atoms r)
            label (Some confidence) (r_isProtein r) (r_isNucleic r) (r_isWater r)
            (r_ca r).

(** The labels of an array of assignments, in order. *)
Definition labels (assignments : list Assignment) : list string :=
  as_assignment <$> assignments.

Module Analyzer.
Local Open Scope R_scope.

(** [helixParams], [sheetParams] and [geometryWindow] of the constructor. *)
Definition helix_minLength : nat := 4.
Definition helix_caDistance : R := 3.8.
Definition helix_distanceTolerance : R := 0.4.
Definition helix_turnAngle : R := 100.
Definition helix_angleTolerance : R := 30.
Definition sheet_minLength : nat := 3.
Definition sheet_maxTurnAngle : R := 30.
Definition sheet_minDistance : R := 3.3.
Definition geometryWindow : nat := 5.

(** *** Utility functions for 3D geometry *)

Definition distance3D (p1 p2 : Vec3) : R :=
  let dx := vx p2 - vx p1 in
  let dy := vy p2 - vy p1 in
  let dz := vz p2 - vz p1 in
  sqrt (dx * dx + dy * dy + dz * dz).

Definition vector3D (p1 p2 : Vec3) : Vec3 :=
  mkVec3 (vx p2 - vx p1) (vy p2 - vy p1) (vz p2 - vz p1).

Definition dotProduct (v1 v2 : Vec3) : R :=
  vx v1 * vx v2 + vy v1 * vy v2 + vz v1 * vz v2.

Definition vectorLength (v : Vec3) : R :=
  sqrt (vx v * vx v + vy v * vy v + vz v * vz v).

Definition angleBetweenVectors (v1 v2 : Vec3) : R :=
  let dot := dotProduct v1 v2 in
  let len1 := vectorLength v1 in
  let len2 := vectorLength v2 in
  if bool_decide (len1 = 0) || bool_decide (len2 = 0) then 0
  else
    let cosAngle := dot / (len1 * len2) in
    acos (Rmax (-1) (Rmin 1 cosAngle)).

Definition crossProduct (v1 v2 : Vec3) : Vec3 :=
  mkVec3 (vy v1 * vz v2 - vz v1 * vy v2)
         (vz v1 * vx v2 - vx v1 * vz v2)
         (vx v1 * vy v2 - vy v1 * vx v2).

Definition calculateTorsionAngle (p1 p2 p3 p4 : Vec3) : R :=
  let v1 := vector3D p1 p2 in
  let v2 := vector3D p2 p3 in
  let v3 := vector3D p3 p4 in
  let n1 := crossProduct v1 v2 in
  let n2 := crossProduct v2 v3 in
  let angle := angleBetweenVectors n1 n2 in
  let sign := if bool_decide (dotProduct (crossProduct n1 n2) v2 > 0) then 1 else -1 in
  sign * angle * 180 / PI.

(** *** Local geometry *)

(** The turn angle at [B], in degrees, as [calculateAngles] computes it. *)
Definition turn (A B C : Vec3) : R :=
  angleBetweenVectors (vector3D A B) (vector3D B C) * 180 / PI.

(** [extractCAAtoms]: the coordinates of the CA atom of every protein
    residue that has one. *)
Definition extractCAAtoms (residues : list Residue) : list Vec3 :=
  omap (fun r =>
          if r_isProtein r
          then ca ← r_ca r; Some (mkVec3 (a_x ca) (a_y ca) (a_z ca))
          else None) residues.

(** The three loops read [caAtoms[i]] ... [caAtoms[i + 3]] below their
    bound, so every read is in range. *)
Definition calculateDistances (caAtoms : list Vec3) : list R :=
  forLoop (List.length caAtoms - 1) 0
    (fun i distances =>
       match caAtoms !! i, caAtoms !! (i + 1)%nat with
       | Some a, Some b => distances ++ [distance3D a b]
       | _, _ => distances
       end) [].

Definition calculateAngles (caAtoms : list Vec3) : list R :=
  forLoop (List.length caAtoms - 2) 0
    (fun i angles =>
       match caAtoms !! i, caAtoms !! (i + 1)%nat, caAtoms !! (i + 2)%nat with
       | Some a, Some b, Some c => angles ++ [turn a b c]
       | _, _, _ => angles
       end) [].

Definition calculateTorsions (caAtoms : list Vec3) : list R :=
  forLoop (List.length caAtoms - 3) 0
    (fun i torsions =>
       match caAtoms !! i, caAtoms !! (i + 1)%nat,
             caAtoms !! (i + 2)%nat, caAtoms !! (i + 3)%nat with
       | Some a, Some b, Some c, Some d =>
           torsions ++ [calculateTorsionAngle a b c d]
       | _, _, _, _ => torsions
       end) [].

(** [xs.reduce((a, b) => a + b, 0)] *)
Definition sum (xs : list R) : R := foldl Rplus 0 xs.

Definition scoreHelicalGeometry (distances angles torsions : list R) : R :=
  let '(score, count) :=
    foldl (fun '(score, count) dist =>
             let ideal := helix_caDistance in
             let tolerance := helix_distanceTolerance in
             let score :=
               if bool_decide (Rabs (dist - ideal) <= tolerance)
               then score + (1 - Rabs (dist - ideal) / tolerance)
               else score in
             (score, count + 1)) (0, 0) distances in
  let '(score, count) :=
    foldl (fun '(score, count) angle =>
             let ideal := helix_turnAngle in
             let tolerance := helix_angleTolerance in
             let score :=
               if bool_decide (Rabs (angle - ideal) <= tolerance)
               then score + (1 - Rabs (angle - ideal) / tolerance)
               else score in
             (score, count + 1)) (score, count) angles in
  let '(score, count) :=
    if bool_decide (2 <= List.length torsions)%nat then
      let avgTorsion := sum torsions / INR (List.length torsions) in
      let regularityScore :=
        foldl (fun regularityScore torsion =>
                 if bool_decide (Rabs (torsion - avgTorsion) < 30)
                 then regularityScore + 1
                 else regularityScore) 0 torsions in
      (score + regularityScore / INR (List.length torsions), count + 1)
    else (score, count) in
  if bool_decide (count > 0) then score / count else 0.

(** The extended-conformation test of [scoreSheetGeometry]:
    [avgDistance >= this.sheetParams.minDistance]. *)
Definition avgDistanceOf (distances : list R) : R :=
  sum distances / INR (List.length distances).

Definition extendedConformation (distances : list R) : bool :=
  bool_decide (avgDistanceOf distances >= sheet_minDistance).

Definition scoreSheetGeometry (distances angles : list R) : R :=
  let score := 0 in
  let count := 0 in
  let avgDistance := avgDistanceOf distances in
  let score :=
    if extendedConformation distances
    then score + Rmin 1 ((avgDistance - sheet_minDistance) / 0.5)
    else score in
  let count := count + 1 in
  let straightSegments :=
    foldl (fun straightSegments angle =>
             if bool_decide (angle < sheet_maxTurnAngle)
                || bool_decide (angle > 180 - sheet_maxTurnAngle)
             then straightSegments + 1
             else straightSegments) 0 angles in
  let '(score, count) :=
    if bool_decide (0 < List.length angles)%nat
    then (score + straightSegments / INR (List.length angles), count + 1)
    else (score, count) in
  if bool_decide (count > 0) then score / count else 0.

Definition calculateConfidence (caAtoms : list Vec3) (distances angles : list R) : R :=
  let confidence := 1.0 in
  let confidence :=
    if bool_decide (List.length caAtoms < geometryWindow)%nat
    then confidence * (INR (List.length caAtoms) / INR geometryWindow)
    else confidence in
  let avgDistance := sum distances / INR (List.length distances) in
  let distanceVariance :=
    foldl (fun s d => s + (d - avgDistance) * (d - avgDistance)) 0 distances
    / INR (List.length distances) in
  let confidence :=
    if bool_decide (distanceVariance > 0.5) then confidence * 0.8 else confidence in
  Rmax 0.1 confidence.

(** [analyzeLocalGeometry(window, centerIndex)]: the scores
    [{helix, sheet, coil, confidence}]. *)
Definition analyzeLocalGeometry (window : list Residue) : LocalGeometry :=
  let caAtoms := extractCAAtoms window in
  if bool_decide (List.length caAtoms < 3)%nat then mkLocalGeometry 0 0 1 0
  else
    let distances := calculateDistances caAtoms in
    let angles := calculateAngles caAtoms in
    let torsions := calculateTorsions caAtoms in
    let helixScore := scoreHelicalGeometry distances angles torsions in
    let sheetScore := scoreSheetGeometry distances angles in
    let structureScore := Rmax helixScore sheetScore in
    let coilScore := Rmax 0 (1 - structureScore) in
    let confidence := calculateConfidence caAtoms distances angles in
    mkLocalGeometry helixScore sheetScore coilScore confidence.

(** The score object that [calculateGeometryScores] pushes for residue
    [i] and its window. *)
Definition scoreAt (i : nat) (window : list Residue) : Score :=
  let score := analyzeLocalGeometry window in
  mkScore i (lg_helix score) (lg_sheet score) (lg_coil score) (lg_confidence score).

(** The window [residues.slice(start, end + 1)] around residue [i]. *)
Definition windowOf (residues : list Residue) (i : nat) : list Residue :=
  let halfWindow := (geometryWindow / 2)%nat in
  let start := (i - halfWindow)%nat in
  let end_ := Nat.min (List.length residues - 1) (i + halfWindow) in
  take (end_ + 1 - start) (drop start residues).

Definition calculateGeometryScores (residues : list Residue) : list Score :=
  forLoop (List.length residues) 0
    (fun i scores => scores ++ [scoreAt i (windowOf residues i)]) [].

Definition assignmentOf (score : Score) : string :=
  if bool_decide (sc_confidence score > 0.5) then
    if bool_decide (sc_helixScore score > sc_sheetScore score)
       && bool_decide (sc_helixScore score > 0.6) then "helix"
    else if bool_decide (sc_sheetScore score > sc_helixScore score)
            && bool_decide (sc_sheetScore score > 0.6) then "sheet"
    else "coil"
  else "coil".

Definition applyGeometryAssignments (scores : list Score) (residues : list Residue)
    : list Assignment :=
  forLoop (List.length scores) 0
    (fun i assignments =>
       match scores !! i with
       | Some score =>
           assignments ++ [mkAssignment i (assignmentOf score) score (residues !! i)]
       | None => assignments
       end) [].

(** *** Smoothing *)

(** The label [assignments[i].assignment] ([None] out of range). *)
Definition labelAt (assignments : list Assignment) (i : nat) : option string :=
  as_assignment <$> assignments !! i.

(** [enforceMinimumLength]: the loop state is
    [(currentRun, runStart, assignments)]; the loop runs for
    [i = 0 .. assignments.length] inclusive. *)
Definition enforceBody (ssType : string) (minLength : nat) (i : nat)
    (st : nat * Z * list Assignment) : nat * Z * list Assignment :=
  let '(currentRun, runStart, assignments) := st in
  let isType :=
    bool_decide (i < List.length assignments)%nat
    && bool_decide (labelAt assignments i = Some ssType) in
  if isType then
    let runStart := if bool_decide (currentRun = 0)%nat then Z.of_nat i else runStart in
    (S currentRun, runStart, assignments)
  else
    let assignments :=
      if bool_decide (0 < currentRun)%nat && bool_decide (currentRun < minLength)%nat
      then forLoop currentRun (Z.to_nat runStart)
             (fun j assignments => alter (setAssignment "coil") j assignments)
             assignments
      else assignments in
    (0%nat, runStart, assignments).

Definition enforceMinimumLength (assignments : list Assignment) (ssType : string)
    (minLength : nat) : list Assignment :=
  (forLoop (List.length assignments + 1) 0 (enforceBody ssType minLength)
           (0%nat, (-1)%Z, assignments)).2.

(** The first loop of [fillShortGaps]: single coil residues. *)
Definition fillSingleBody (i : nat) (assignments : list Assignment) : list Assignment :=
  match labelAt assignments (i - 1), labelAt assignments i, labelAt assignments (i + 1) with
  | Some prev, Some current, Some next =>
      if bool_decide (current = "coil") && bool_decide (prev = next)
         && bool_decide (prev <> "coil")
      then alter (setAssignment prev) i assignments
      else assignments
  | _, _, _ => assignments
  end.

(** The body of the second loop, for a gap of [gapSize] residues that
    starts at [i].  The inner loop with [break] computes the conjunction
    [allCoil]. *)
Definition fillGapBody (gapSize : nat) (i : nat) (assignments : list Assignment)
    : list Assignment :=
  match labelAt assignments (i - 1), labelAt assignments (i + gapSize) with
  | Some before, Some after =>
      let allCoil :=
        forLoop gapSize 0
          (fun j allCoil =>
             allCoil && bool_decide (labelAt assignments (i + j) = Some "coil"))
          true in
      if allCoil && bool_decide (before = after) && bool_decide (before <> "coil")
      then forLoop gapSize 0
             (fun j assignments => alter (setAssignment before) (i + j)%nat assignments)
             assignments
      else assignments
  | _, _ => assignments
  end.

Definition fillShortGaps (assignments : list Assignment) (maxGapLength : nat)
    : list Assignment :=
  let assignments :=
    forLoop (List.length assignments - 2) 1 fillSingleBody assignments in
  forLoop (maxGapLength - 1) 2
    (fun gapSize assignments =>
       forLoop (List.length assignments - gapSize - gapSize) gapSize
               (fillGapBody gapSize) assignments)
    assignments.

Definition smoothAssignments (assignments : list Assignment) : list Assignment :=
  let smoothed := assignments in
  let smoothed := enforceMinimumLength smoothed "helix" helix_minLength in
  let smoothed := enforceMinimumLength smoothed "sheet" sheet_minLength in
  fillShortGaps smoothed 2.

(** [applyAssignments] writes the labels and confidences back. *)
Definition applyAssignments (assignments : list Assignment) (residues : list Residue)
    : list Residue :=
  forLoop (List.length assignments) 0
    (fun i residues =>
       match assignments !! i with
       | Some a =>
           alter (setStructure (as_assignment a) (sc_confidence (as_score a))) i residues
       | None => residues
       end) residues.

Definition assignDefaultStructure (residues : list Residue) : list Residue :=
  setStructure "coil" 0.1 <$> residues.

(** [analyzeChain]: the residues as it leaves them. *)
Definition analyzeChain (residues : list Residue) : list Residue :=
  if bool_decide (List.length residues < geometryWindow)%nat
  then assignDefaultStructure residues
  else
    let geometryScores := calculateGeometryScores residues in
    let assignments := applyGeometryAssignments geometryScores residues in
    let smoothed := smoothAssignments assignments in
    applyAssignments smoothed residues.

(** Every entry that carries [label] lies in a block of [k] consecutive
    entries that all carry it. *)
Definition covered (assignments : list Assignment) (label : string) (k : nat) : Prop :=
  forall i, labelAt assignments i = Some label ->
    exists w, (w <= i < w + k)%nat /\
      forall j, (w <= j < w + k)%nat -> labelAt assignments j = Some label.

(** One write of the gap filling: entry [j], a coil, takes the label of
    its left neighbour. *)
Definition fillStep (a a' : list Assignment) : Prop :=
  exists j label, (1 <= j)%nat /\
    labelAt a j = Some "coil" /\
    labelAt a (j - 1) = Some label /\
    a' = alter (setAssignment label) j a.

(** The invariant of the loop of [enforceMinimumLength] at index [i]. *)
Definition enforceInv (a0 : list Assignment) (ssType : string) (k : nat)
    (i : nat) (st : nat * Z * list Assignment) : Prop :=
  let '(run, rs, a) := st in
  List.length a = List.length a0 /\
  (run <= i)%nat /\
  ((0 < run)%nat -> rs = Z.of_nat (i - run)) /\
  (forall j, (i - run <= j < i)%nat -> labelAt a j = Some ssType) /\
  (forall j, (j < i - run)%nat -> labelAt a j = Some ssType ->
     exists w, (w <= j < w + k)%nat /\ (w + k <= i - run)%nat /\
       forall j', (w <= j' < w + k)%nat -> labelAt a j' = Some ssType) /\
  (forall j, labelAt a j = labelAt a0 j \/
             (labelAt a0 j = Some ssType /\ labelAt a j = Some "coil")).

(** A maximal run of [label] in a sequence of labels: [len] consecutive
    entries from [start] that carry the label, not preceded and not
    followed by an entry that carries it. *)
Definition maximalRun (ls : list string) (label : string) (start len : nat) : Prop :=
  (0 < len)%nat /\
  (forall k, (k < len)%nat -> ls !! (start + k)%nat = Some label) /\
  (start = 0%nat \/ ls !! (start - 1)%nat <> Some label) /\
  ls !! (start + len)%nat <> Some label.
End Analyzer.

(** ** PDBParser: reading ATOM and HETATM records

    A number read from a record is a [jsnum]: not-a-number, a finite
    number (its exact decimal value) or an infinity. *)

Inductive jsnum : Type :=
  | NaN
  | Num (r : R)
  | Inf (negative : bool).

Module JS.
Local Open Scope R_scope.

(** [s.substring(start, end)] for [start <= end]. *)
Definition substring (start end_ : nat) (s : string) : string :=
  String.substring start (end_ - start) s.

Definition isWhite (c : ascii) : bool :=
  let n := nat_of_ascii c in
  bool_decide (n = 32)%nat || (bool_decide (9 <= n)%nat && bool_decide (n <= 13)%nat).

Fixpoint trimStart (s : string) : string :=
  match s with
  | String c s' => if isWhite c then trimStart s' else s
  | EmptyString => EmptyString
  end.

(** [trimEnd] drops the trailing white space: a character stays when it
    is not white space or when what follows it does not trim to the
    empty string. *)
Fixpoint trimEnd (s : string) : string :=
  match s with
  | String c s' =>
      match trimEnd s' with
      | EmptyString => if isWhite c then EmptyString else String c EmptyString
      | rest => String c rest
      end
  | EmptyString => EmptyString
  end.

Definition trim (s : string) : string := trimEnd (trimStart s).

Definition startsWith (s prefix : string) : bool := String.prefix prefix s.

(** The value of a digit in a radix up to 16, if it is one. *)
Definition digitOf (radix : Z) (c : ascii) : option Z :=
  let n := Z.of_nat (nat_of_ascii c) in
  let v :=
    if bool_decide (48 <= n)%Z && bool_decide (n <= 57)%Z then Some (n - 48)%Z
    else if bool_decide (97 <= n)%Z && bool_decide (n <= 102)%Z then Some (n - 87)%Z
    else if bool_decide (65 <= n)%Z && bool_decide (n <= 70)%Z then Some (n - 55)%Z
    else None in
  match v with
  | Some d => if bool_decide (d < radix)%Z then Some d else None
  | None => None
  end.

(** The longest prefix of digits: how many there are, their value, and
    what is left. *)
Fixpoint takeDigits (radix : Z) (s : string) (count : nat) (value : Z) : nat * Z * string :=
  match s with
  | String c s' =>
      match digitOf radix c with
      | Some d => takeDigits radix s' (S count) (value * radix + d)%Z
      | None => (count, value, s)
      end
  | EmptyString => (count, value, s)
  end.

(** An optional sign. *)
Definition takeSign (s : string) : bool * string :=
  match s with
  | String "-" s' => (true, s')
  | String "+" s' => (false, s')
  | _ => (false, s)
  end.

Definition signed (negative : bool) (r : R) : R := if negative then - r else r.

(** [parseInt(s)] without a radix: leading white space, a sign, [0x] for
    radix 16, then the longest prefix of digits; not-a-number when there
    is no digit. *)
Definition parseInt (s : string) : jsnum :=
  let s := trimStart s in
  let '(negative, s) := takeSign s in
  let '(radix, s) :=
    match s with
    | String "0" (String "x" s') => (16%Z, s')
    | String "0" (String "X" s') => (16%Z, s')
    | _ => (10%Z, s)
    end in
  let '(count, value, _) := takeDigits radix s 0 0 in
  if bool_decide (count = 0)%nat then NaN
  else Num (signed negative (IZR value)).

(** [parseFloat(s)]: leading white space, a sign, then the longest
    prefix that is [Infinity] or a decimal literal (digits, a fraction,
    an exponent); not-a-number when there is none. *)
Definition parseFloat (s : string) : jsnum :=
  let s := trimStart s in
  let '(negative, s) := takeSign s in
  if String.prefix "Infinity" s then Inf negative
  else
    let '(intCount, intValue, s) := takeDigits 10 s 0 0 in
    let '(fracCount, mantissa, s) :=
      match s with
      | String "." s' => takeDigits 10 s' 0 intValue
      | _ => (0%nat, intValue, s)
      end in
    if bool_decide (intCount = 0)%nat && bool_decide (fracCount = 0)%nat then NaN
    else
      let exponent :=
        match s with
        | String c s' =>
            if bool_decide (c = "e"%char) || bool_decide (c = "E"%char) then
              let '(expNegative, s'') := takeSign s' in
              let '(expCount, expValue, _) := takeDigits 10 s'' 0 0 in
              if bool_decide (expCount = 0)%nat then 0%Z
              else if expNegative then (- expValue)%Z else expValue
            else 0%Z
        | EmptyString => 0%Z
        end in
      Num (signed negative (IZR mantissa * powerRZ 10 (exponent - Z.of_nat fracCount))).

(** [v || fallback] for a number [v]: not-a-number and zero are falsy. *)
Definition orNum (v : jsnum) (fallback : R) : jsnum :=
  match v with
  | NaN => Num fallback
  | Num r => if bool_decide (r = 0) then Num fallback else Num r
  | Inf negative => Inf negative
  end.

(** [s || fallback] for a string [s]: the empty string is falsy. *)
Definition orString (s fallback : string) : string :=
  match s with
  | EmptyString => fallback
  | _ => s
  end.
End JS.

(** The key [`${chainId}_${resSeq}_${iCode}`] of the residue map, as the
    triple of its parts. *)
Definition ResKey : Type := string * jsnum * string.

Record ParserState : Type := mkParserState {
  ps_atoms : list (Atom jsnum);
  ps_atomMap : list (ResKey * list (Atom jsnum))
}.

Module PDBParser.
Import JS.

Definition guessElement (atomName : string) : string :=
  let name := toUpperCase (trim atomName) in
  if startsWith name "C" then "C"
  else if startsWith name "N" then "N"
  else if startsWith name "O" then "O"
  else if startsWith name "S" then "S"
  else if startsWith name "P" then "P"
  else if startsWith name "H" then "H"
  else if startsWith name "FE" then "FE"
  else if startsWith name "MG" then "MG"
  else if startsWith name "CA" then "CA"
  else if startsWith name "ZN" then "ZN"
  else "C".

(** The object literal that [parseAtom] builds from the line. *)
Definition atomOfLine (line : string) : Atom jsnum :=
  mkAtom
    (parseInt (trim (substring 6 11 line)))
    (trim (substring 12 16 line))
    (trim (substring 16 17 line))
    (trim (substring 17 20 line))
    (trim (substring 21 22 line))
    (parseInt (trim (substring 22 26 line)))
    (trim (substring 26 27 line))
    (parseFloat (trim (substring 30 38 line)))
    (parseFloat (trim (substring 38 46 line)))
    (parseFloat (trim (substring 46 54 line)))
    (orNum (parseFloat (trim (substring 54 60 line))) 1.0)
    (orNum (parseFloat (trim (substring 60 66 line))) 0.0)
    (orString (trim (substring 76 78 line)) (guessElement (trim (substring 12 16 line))))
    (trim (substring 78 80 line))
    (startsWith line "HETATM").

#[global] Instance jsnum_eq_dec : EqDecision jsnum.
Proof. solve_decision. Defined.

(** [atomMap.get(resKey).push(atom)], after [atomMap.set(resKey, [])]
    for a new key; a [Map] keeps its keys in insertion order. *)
Fixpoint pushAtom (atomMap : list (ResKey * list (Atom jsnum))) (resKey : ResKey)
    (atom : Atom jsnum) : list (ResKey * list (Atom jsnum)) :=
  match atomMap with
  | [] => [(resKey, [atom])]
  | (k, atoms) :: rest =>
      if bool_decide (k = resKey) then (k, atoms ++ [atom]) :: rest
      else (k, atoms) :: pushAtom rest resKey atom
  end.

Definition parseAtom (line : string) (st : ParserState) : ParserState :=
  let atom := atomOfLine line in
  let resKey := (a_chainId atom, a_resSeq atom, a_iCode atom) in
  mkParserState (ps_atoms st ++ [atom]) (pushAtom (ps_atomMap st) resKey atom).

(** The loop of [parse] over the lines, for the atom records. *)
Definition parseLines (lines : list string) : ParserState :=
  foldl (fun st line =>
           if startsWith line "ATOM" || startsWith line "HETATM"
           then parseAtom line st
           else st) (mkParserState [] []) lines.

Definition proteinResidues : gset string :=
  list_to_set
    [ "ALA"; "ARG"; "ASN"; "ASP"; "CYS"; "GLN"; "GLU"; "GLY"; "HIS"; "ILE";
      "LEU"; "LYS"; "MET"; "PHE"; "PRO"; "SER"; "THR"; "TRP"; "TYR"; "VAL";
      "MSE"; "SEP"; "TPO"; "PTR"; "MLY"; "M3L"; "HOH" ].

Definition isProteinResidue (resName : string) : bool :=
  bool_decide (toUpperCase resName ∈ proteinResidues).

Definition nucleicResidues : gset string :=
  list_to_set
    [ "A"; "G"; "C"; "T"; "U"; "DA"; "DG"; "DC"; "DT";
      "ADE"; "GUA"; "CYT"; "THY"; "URA" ].

Definition isNucleicResidue (resName : string) : bool :=
  bool_decide (toUpperCase resName ∈ nucleicResidues).

(** The [isWater] flag that [buildResidues] computes. *)
Definition isWaterName (resName : string) : bool :=
  bool_decide (resName = "HOH") || bool_decide (resName = "WAT").

(** A HELIX or SHEET record, as far as [assignFromPDBRecords] reads
    it. *)
Record SSRecord : Type := mkSSRecord {
  ss_initChainId : string;
  ss_initResSeq : Z;
  ss_endResSeq : Z
}.

Definition inRecord (rec : SSRecord) (r : Residue) : bool :=
  bool_decide (r_chainId r = ss_initChainId rec)
  && bool_decide (r_resSeq r >= ss_initResSeq rec)%Z
  && bool_decide (r_resSeq r <= ss_endResSeq rec)%Z.

Definition relabel (label : string) (r : Residue) : Residue :=
  mkResidue (r_chainId r) (r_resSeq r) (r_iCode r) (r_resName r) (r_atoms r)
            label (r_ssConfidence r) (r_isProtein r) (r_isNucleic r) (r_isWater r)
            (r_ca r).

(** [assignFromPDBRecords]: every residue in the range of a record takes
    its label, helices first and sheets after them.  The residue objects
    are shared with the chains, which see the new labels. *)
Definition assignFromPDBRecords (helices sheets : list SSRecord)
    (residues : list Residue) : list Residue :=
  let residues :=
    foldl (fun residues helix =>
             (fun r => if inRecord helix r then relabel "helix" r else r) <$> residues)
          residues helices in
  foldl (fun residues sheet =>
           (fun r => if inRecord sheet r then relabel "sheet" r else r) <$> residues)
        residues sheets.
End PDBParser.

(** ** Backbones on a straight line *)

(** The point [p0 + k * d]. *)
Definition linePoint (p0 d : Vec3) (k : R) : Vec3 :=
  mkVec3 (vx p0 + k * vx d)%R (vy p0 + k * vy d)%R (vz p0 + k * vz d)%R.

(** A protein residue whose CA atom is at [pos]. *)
Definition caAt (r : Residue) (pos : Vec3) : Prop :=
  r_isProtein r = true /\
  exists ca, r_ca r = Some ca /\ mkVec3 (a_x ca) (a_y ca) (a_z ca) = pos.

(** ** A ten-residue helix

    The input of the scenario: ten protein residues of chain A, numbered
    1 to 10, each with a CA atom. *)
Definition helixChainInput (raw : list Residue) : Prop :=
  List.length raw = 10%nat /\
  forall k r, raw !! k = Some r ->
    r_chainId r = "A" /\ r_resSeq r = (Z.of_nat k + 1)%Z /\
    r_isProtein r = true /\ is_Some (r_ca r).

(** The residues after [assignFromPDBRecords] with one HELIX record for
    residues 1 to 10 of chain A, and the chain that holds them. *)
Definition helixResidues (raw : list Residue) : list Residue :=
  PDBParser.assignFromPDBRecords [PDBParser.mkSSRecord "A" 1 10] [] raw.

Definition helixChain (raw : list Residue) : Chain :=
  mkChain "A" (helixResidues raw) "protein".

(** The metadata of the 19 chunks that the ribbon generator makes of
    80 samples: chunk [c] covers samples [4c .. 4c + 4], that is
    residues [c / 2 + 1 .. (c + 1) / 2 + 1]. *)
Definition helixChunkMetadata : list Metadata :=
  [
    mkMetadata "A" "helix" 1 1; mkMetadata "A" "helix" 1 2;
    mkMetadata "A" "helix" 2 2; mkMetadata "A" "helix" 2 3;
    mkMetadata "A" "helix" 3 3; mkMetadata "A" "helix" 3 4;
    mkMetadata "A" "helix" 4 4; mkMetadata "A" "helix" 4 5;
    mkMetadata "A" "helix" 5 5; mkMetadata "A" "helix" 5 6;
    mkMetadata "A" "helix" 6 6; mkMetadata "A" "helix" 6 7;
    mkMetadata "A" "helix" 7 7; mkMetadata "A" "helix" 7 8;
    mkMetadata "A" "helix" 8 8; mkMetadata "A" "helix" 8 9;
    mkMetadata "A" "helix" 9 9; mkMetadata "A" "helix" 9 10;
    mkMetadata "A" "helix" 10 10
  ]%Z.

(** * Further definitions

    Functions of the same sources that the properties below are about,
    and the predicates in which they are stated. *)

(** ** Groups of segments *)

(** What [groupSegmentsByType] keeps true of a group: it holds at least
    one segment, every segment has the group's type, and there is one
    point more than there are segments. *)
Definition groupOk (g : Group) : Prop :=
  gr_segments g <> [] /\
  Forall (fun s => cs_cartoonType s = gr_cartoonType g) (gr_segments g) /\
  List.length (gr_points g) = S (List.length (gr_segments g)).

(** Neighbours in a list of groups have different types. *)
Definition alternating (groups : list Group) : Prop :=
  forall i g g', groups !! i = Some g -> groups !! S i = Some g' ->
    gr_cartoonType g <> gr_cartoonType g'.

(** The groups that the loop of [groupSegmentsByType] has closed,
    followed by the open one. *)
Definition allGroups (st : list Group * option Group) : list Group :=
  st.1 ++ match st.2 with Some g => [g] | None => [] end.

(** ** Frames up to the sign of normal and binormal *)

(** [g] has the tangent of [f], and its normal and its binormal are
    those of [f] or their opposites. *)
Definition sameUpToSign (f g : Frame) : Prop :=
  tangent g = tangent f /\
  (normal g = normal f \/ normal g = CartoonMath.scale (normal f) (-1)) /\
  (binormal g = binormal f \/ binormal g = CartoonMath.scale (binormal f) (-1)).

(** Pairs of neighbours below index [i] have binormals that do not
    point against each other. *)
Definition binormals_aligned_below (i : nat) (frames : list Frame) : Prop :=
  forall j f g, (S j < i)%nat ->
    frames !! j = Some f -> frames !! S j = Some g ->
    (0 <= CartoonMath.dot (binormal f) (binormal g))%R.

(** ** The residue key of an atom *)

(** [`${atom.chainId}_${atom.resSeq}_${atom.iCode}`], as [parseAtom]
    computes it. *)
Definition resKeyOf (atom : Atom jsnum) : ResKey :=
  (a_chainId atom, a_resSeq atom, a_iCode atom).

(** The invariant of the loop of [parse] on the atom records. *)
Definition atomMapInv (st : ParserState) : Prop :=
  NoDup (ps_atomMap st).*1 /\
  (forall k atoms, (k, atoms) ∈ ps_atomMap st ->
     atoms <> [] /\ atoms = filter (fun a => resKeyOf a = k) (ps_atoms st)) /\
  (forall a, a ∈ ps_atoms st -> resKeyOf a ∈ (ps_atomMap st).*1).


(** ** SecondaryStructureAnalyzer: the summary and the loop invariants *)

(** One of the three labels that the analyzer assigns. *)
Definition structureLabel (label : string) : Prop :=
  label = "helix" \/ label = "sheet" \/ label = "coil".

(** What the loop of [enforceMinimumLength] keeps true at index [i],
    whatever the label and the minimum length are: the current run is
    the [run] entries before [i], all of them carry [ssType], and an
    entry differs from the input only where the input had [ssType] and
    the entry is now ['coil']. *)
Definition enforceRunInv (a0 : list Assignment) (ssType : string)
    (i : nat) (st : nat * Z * list Assignment) : Prop :=
  let '(run, rs, a) := st in
  List.length a = List.length a0 /\
  (run <= i)%nat /\
  ((0 < run)%nat -> rs = Z.of_nat (i - run)) /\
  (forall j, (i - run <= j < i)%nat -> Analyzer.labelAt a j = Some ssType) /\
  (forall j, Analyzer.labelAt a j = Analyzer.labelAt a0 j \/
             (Analyzer.labelAt a0 j = Some ssType /\ Analyzer.labelAt a j = Some "coil")).

(** The counts [{helix, sheet, coil, total}] of a summary.  (The
    [percentages], strings made by [toFixed], are left out.) *)
Record Summary : Type := mkSummary {
  sm_helix : nat;
  sm_sheet : nat;
  sm_coil : nat;
  sm_total : nat
}.

Module AnalyzerSummary.
(** [counts[residue.secondaryStructure]++] for a label that is not the
    empty string; a label other than the three adds a key of its own and
    leaves the three counts alone. *)
Definition countBody (residue : Residue) (counts : nat * nat * nat) : nat * nat * nat :=
  let '(helix, sheet, coil) := counts in
  let label := r_secondaryStructure residue in
  if bool_decide (label = "helix") then (S helix, sheet, coil)
  else if bool_decide (label = "sheet") then (helix, S sheet, coil)
  else if bool_decide (label = "coil") then (helix, sheet, S coil)
  else counts.

Definition getAssignmentSummary (residues : list Residue) : Summary :=
  let '(helix, sheet, coil) :=
    foldl (fun counts residue => countBody residue counts) (0, 0, 0)%nat residues in
  mkSummary helix sheet coil (List.length residues).

(** The value that [analyzeChain(residues)] returns: the summary of
    [assignDefaultStructure] for a short chain, and the summary of the
    residues as the analysis leaves them otherwise. *)
Definition analyzeChainSummary (residues : list Residue) : Summary :=
  if bool_decide (List.length residues < Analyzer.geometryWindow)%nat
  then mkSummary 0 0 (List.length residues) (List.length residues)
  else getAssignmentSummary (Analyzer.analyzeChain residues).
End AnalyzerSummary.

(** ** SplineUtils.smoothPath

    [windowSize] is a count (its default is 3), so
    [Math.floor(windowSize / 2)] is the quotient of the division by 2,
    and [Math.max(0, i - halfWindow)] is the truncated subtraction. *)

Module SplineUtils.
Import Vector3.
Local Open Scope R_scope.

(** The body of the inner loop: [sum = sum.add(points[j]); count++]. *)
Definition averageBody (points : list Vec3) (j : nat) (acc : Vec3 * nat)
    : option (Vec3 * nat) :=
  let '(sum, count) := acc in
  p ← points !! j;
  Some (add sum p, S count).

(** The body of the outer loop, for the point [i]. *)
Definition smoothBody (points : list Vec3) (halfWindow : nat) (i : nat)
    (smoothed : list Vec3) : option (list Vec3) :=
  let start := (i - halfWindow)%nat in
  let end_ := Nat.min (List.length points - 1) (i + halfWindow) in
  '(sum, count) ← forLoopM (end_ + 1 - start) start (averageBody points) (mkVec3 0 0 0, 0%nat);
  Some (smoothed ++ [scale sum (1 / INR count)]).

End SplineUtils.

(** ** RibbonGeometryGenerator.hslToRgb *)

Module RibbonColors.
Local Open Scope R_scope.

(** [Math.trunc]: the integer part towards zero. *)
Definition truncate (x : R) : Z :=
  if bool_decide (0 <= x) then Int_part x else (- Int_part (- x))%Z.

(** The remainder [a % b] of JavaScript, which has the sign of [a]. *)
Definition remainder (a b : R) : R := a - b * IZR (truncate (a / b)).

Definition hslToRgb (h s l : R) : R * R * R :=
  let h := h / 360 in
  let c := (1 - Rabs (2 * l - 1)) * s in
  let x := c * (1 - Rabs (remainder (h * 6) 2 - 1)) in
  let m := l - c / 2 in
  let '(r, g, b) :=
    if bool_decide (h >= 0) && bool_decide (h < 1 / 6) then (c, x, 0)
    else if bool_decide (h >= 1 / 6) && bool_decide (h < 2 / 6) then (x, c, 0)
    else if bool_decide (h >= 2 / 6) && bool_decide (h < 3 / 6) then (0, c, x)
    else if bool_decide (h >= 3 / 6) && bool_decide (h < 4 / 6) then (0, x, c)
    else if bool_decide (h >= 4 / 6) && bool_decide (h < 5 / 6) then (x, 0, c)
    else (c, 0, x) in
  (r + m, g + m, b + m).

(** [applyRainbowColors]: the colour of mesh [i] out of [count]. *)
Definition rainbowColor (i count : nat) : R * R * R :=
  let hue := (INR i / INR count) * 360 in
  hslToRgb hue 0.8 0.6.
End RibbonColors.

(** ** PDBParser.assignByGeometry and its analyzeLocalGeometry

    The parser has a geometric pass of its own, apart from the
    SecondaryStructureAnalyzer.  A unit vector between two CA atoms at
    the same place is [0/0] in each coordinate, not-a-number: it is
    [None] here, and every comparison with an angle made from it is
    false. *)

Module ParserGeometry.
Local Open Scope R_scope.

(** The distance between two atoms and the unit vector from the first to
    the second. *)
Definition direction (p q : Atom R) : R * option Vec3 :=
  let v := mkVec3 (a_x q - a_x p) (a_y q - a_y p) (a_z q - a_z p) in
  let dist := sqrt (vx v * vx v + vy v * vy v + vz v * vz v) in
  (dist,
   if bool_decide (dist = 0) then None
   else Some (mkVec3 (vx v / dist) (vy v / dist) (vz v / dist))).

(** The first loop: [distances] and [vectors]. *)
Definition segmentsOf (caAtoms : list (Atom R)) : list R * list (option Vec3) :=
  forLoop (List.length caAtoms - 1) 0
    (fun i '(distances, vectors) =>
       match caAtoms !! i, caAtoms !! (i + 1)%nat with
       | Some p, Some q =>
           let '(dist, u) := direction p q in
           (distances ++ [dist], vectors ++ [u])
       | _, _ => (distances, vectors)
       end) ([], []).

(** The angle, in degrees, between two unit vectors; not-a-number
    ([None]) when one of them is. *)
Definition turnAngle (u w : option Vec3) : option R :=
  u ← u; w ← w;
  let dot := vx u * vx w + vy u * vy w + vz u * vz w in
  Some (acos (Rmax (-1) (Rmin 1 dot)) * 180 / PI).

(** A loop [for (let i = 0; i < vectors.length - 1; i++)] that counts
    the angles between neighbours for which [test] holds. *)
Definition countAngles (test : R -> bool) (vectors : list (option Vec3)) : nat :=
  forLoop (List.length vectors - 1) 0
    (fun i count =>
       match vectors !! i, vectors !! (i + 1)%nat with
       | Some u, Some w =>
           match turnAngle u w with
           | Some angle => if test angle then S count else count
           | None => count
           end
       | _, _ => count
       end) 0%nat.

Definition isTurn (angle : R) : bool :=
  bool_decide (angle > 70) && bool_decide (angle < 130).

Definition isStraight (angle : R) : bool := bool_decide (angle < 30).

(** [analyzeLocalGeometry(residueWindow)]: [(isHelix, isSheet)]. *)
Definition analyzeLocalGeometry (residueWindow : list Residue) : bool * bool :=
  let caAtoms := omap r_ca residueWindow in
  if bool_decide (List.length caAtoms < 5)%nat then (false, false)
  else
    let '(distances, vectors) := segmentsOf caAtoms in
    let avgDistance := Analyzer.sum distances / INR (List.length distances) in
    let helixScore := 0%nat in
    let helixScore :=
      if bool_decide (avgDistance > 3.6) && bool_decide (avgDistance < 4.0)
      then (helixScore + 2)%nat else helixScore in
    let consistentTurns := countAngles isTurn vectors in
    let helixScore :=
      if bool_decide (Z.of_nat consistentTurns >= Z.of_nat (List.length vectors) - 2)%Z
      then (helixScore + 3)%nat else helixScore in
    let sheetScore := 0%nat in
    let sheetScore :=
      if bool_decide (avgDistance > 3.5) then (sheetScore + 2)%nat else sheetScore in
    let straightSegments := countAngles isStraight vectors in
    let sheetScore :=
      if bool_decide (Z.of_nat straightSegments >= Z.of_nat (List.length vectors) - 2)%Z
      then (sheetScore + 3)%nat else sheetScore in
    (bool_decide (3 <= helixScore)%nat, bool_decide (3 <= sheetScore)%nat).

(** [r.isProtein && r.ca] *)
Definition hasBackbone (r : Residue) : bool :=
  r_isProtein r && bool_decide (is_Some (r_ca r)).

(** [chain.residues.filter(r => r.isProtein && r.ca)]: the residue
    objects of the filtered array, each named by its index in
    [chain.residues]. *)
Definition proteinIndices (residues : list Residue) : list nat :=
  List.filter (fun k => from_option hasBackbone false (residues !! k))
              (seq 0 (List.length residues)).

(** The body of the loop over [proteinResidues], for its index [i]; the
    residue it relabels is an object of [chain.residues]. *)
Definition geometryBody (indices : list nat) (i : nat) (residues : list Residue)
    : list Residue :=
  match indices !! i with
  | Some k =>
      match residues !! k with
      | Some residue =>
          if bool_decide (r_secondaryStructure residue <> "coil") then residues
          else
            let window :=
              omap (fun k' => residues !! k') (take 5 (drop (i - 2) indices)) in
            let '(isHelix, isSheet) := analyzeLocalGeometry window in
            if isHelix then alter (PDBParser.relabel "helix") k residues
            else if isSheet then alter (PDBParser.relabel "sheet") k residues
            else residues
      | None => residues
      end
  | None => residues
  end.

(** The pass over the residues of one protein chain:
    [for (let i = 2; i < proteinResidues.length - 2; i++)]. *)
Definition assignChainByGeometry (residues : list Residue) : list Residue :=
  let indices := proteinIndices residues in
  forLoop (List.length indices - 4) 2 (geometryBody indices) residues.

(** [assignByGeometry]: the chains that are not of type 'protein' are
    passed over. *)
Definition assignByGeometry (chains : list Chain) : list Chain :=
  (fun chain =>
     if bool_decide (c_type chain <> "protein") then chain
     else mkChain (c_id chain) (assignChainByGeometry (c_residues chain)) (c_type chain))
  <$> chains.

(** The answer of [analyzeLocalGeometry] as its two angle tests alone
    give it, without the tests on the average distance. *)
Definition angleVerdict (residueWindow : list Residue) : bool * bool :=
  let caAtoms := omap r_ca residueWindow in
  if bool_decide (List.length caAtoms < 5)%nat then (false, false)
  else
    let vectors := (segmentsOf caAtoms).2 in
    (bool_decide (Z.of_nat (countAngles isTurn vectors)
                  >= Z.of_nat (List.length vectors) - 2)%Z,
     bool_decide (Z.of_nat (countAngles isStraight vectors)
                  >= Z.of_nat (List.length vectors) - 2)%Z).

(** What the pass may do to a residue: nothing, or relabel one that was
    'coil'. *)
Definition geometryStep (r r' : Residue) : Prop :=
  r' = r \/
  (r_secondaryStructure r = "coil" /\
   (r' = PDBParser.relabel "helix" r \/ r' = PDBParser.relabel "sheet" r)).
End ParserGeometry.

(** ** PDBParser.getBoundingBox

    The coordinates of the parsed atoms are [jsnum]s, and the loop
    starts from the two infinities; [Math.min] and [Math.max] answer
    not-a-number as soon as one argument is. *)

Module JSMath.
Local Open Scope R_scope.

Definition min (a b : jsnum) : jsnum :=
  match a, b with
  | NaN, _ | _, NaN => NaN
  | Inf true, _ | _, Inf true => Inf true
  | Inf false, y => y
  | x, Inf false => x
  | Num x, Num y => Num (Rmin x y)
  end.

Definition max (a b : jsnum) : jsnum :=
  match a, b with
  | NaN, _ | _, NaN => NaN
  | Inf false, _ | _, Inf false => Inf false
  | Inf true, y => y
  | x, Inf true => x
  | Num x, Num y => Num (Rmax x y)
  end.

(** [a + b]; the sum of the two infinities is not-a-number. *)
Definition add (a b : jsnum) : jsnum :=
  match a, b with
  | NaN, _ | _, NaN => NaN
  | Num x, Num y => Num (x + y)
  | Inf s, Num _ | Num _, Inf s => Inf s
  | Inf s, Inf t => if bool_decide (s = t) then Inf s else NaN
  end.

Definition neg (a : jsnum) : jsnum :=
  match a with
  | NaN => NaN
  | Num x => Num (- x)
  | Inf s => Inf (negb s)
  end.

(** [a - b] *)
Definition sub (a b : jsnum) : jsnum := add a (neg b).

(** [a / 2] *)
Definition half (a : jsnum) : jsnum :=
  match a with
  | Num x => Num (x / 2)
  | other => other
  end.

(** [a <= b]; a comparison with not-a-number is false. *)
Definition leb (a b : jsnum) : bool :=
  match a, b with
  | NaN, _ | _, NaN => false
  | Num x, Num y => bool_decide (x <= y)
  | Inf true, _ | _, Inf false => true
  | Inf false, _ | _, Inf true => false
  end.

(** [a >= b] *)
Definition geb (a b : jsnum) : bool := leb b a.
End JSMath.

(** A triple [{x, y, z}] of numbers. *)
Record Triple : Type := mkTriple { tx : jsnum; ty : jsnum; tz : jsnum }.

(** The box [{min, max, center, size}]; without atoms there is no
    [center] and no [size]. *)
Record BoundingBox : Type := mkBoundingBox {
  bb_min : Triple;
  bb_max : Triple;
  bb_center : option Triple;
  bb_size : option Triple
}.

Module Bounds.
Import JSMath.

(** The body of the loop over the atoms: the six running extremes. *)
Definition boundsBody (acc : Triple * Triple) (atom : Atom jsnum) : Triple * Triple :=
  let '(lo, hi) := acc in
  (mkTriple (min (tx lo) (a_x atom)) (min (ty lo) (a_y atom)) (min (tz lo) (a_z atom)),
   mkTriple (max (tx hi) (a_x atom)) (max (ty hi) (a_y atom)) (max (tz hi) (a_z atom))).

Definition getBoundingBox (atoms : list (Atom jsnum)) : BoundingBox :=
  if bool_decide (List.length atoms = 0)%nat then
    mkBoundingBox (mkTriple (Num 0) (Num 0) (Num 0)) (mkTriple (Num 0) (Num 0) (Num 0))
                  None None
  else
    let '(lo, hi) :=
      foldl boundsBody
            (mkTriple (Inf false) (Inf false) (Inf false),
             mkTriple (Inf true) (Inf true) (Inf true)) atoms in
    mkBoundingBox lo hi
      (Some (mkTriple (half (add (tx lo) (tx hi))) (half (add (ty lo) (ty hi)))
                      (half (add (tz lo) (tz hi)))))
      (Some (mkTriple (sub (tx hi) (tx lo)) (sub (ty hi) (ty lo)) (sub (tz hi) (tz lo)))).

(** The three coordinates of an atom are numbers. *)
Definition finiteAtom (atom : Atom jsnum) : Prop :=
  exists x y z, a_x atom = Num x /\ a_y atom = Num y /\ a_z atom = Num z.

(** The running extremes along one axis. *)
Definition axisBody (coord : Atom jsnum -> jsnum) (acc : jsnum * jsnum)
    (atom : Atom jsnum) : jsnum * jsnum :=
  (min acc.1 (coord atom), max acc.2 (coord atom)).
End Bounds.

(** ** PDBParser.assignFromPDBRecords, with all that it writes

    [assignFromPDBRecords] reads [chainId] and [resSeq] of a residue and
    writes [secondaryStructure], [helixClass] and [sheetId].  The
    sequence numbers of the residues and of the records come from
    [parseInt] and may be not-a-number.  [helixClass] and [sheetId] are
    properties that only this function adds to a residue ([None]: the
    object does not have the property).  [rr_rest] stands for the
    properties of the object that the function neither reads nor
    writes. *)

Record RecordResidue (A : Type) : Type := mkRecordResidue {
  rr_chainId : string;
  rr_resSeq : jsnum;
  rr_secondaryStructure : string;
  rr_helixClass : option jsnum;
  rr_sheetId : option string;
  rr_rest : A
}.
Arguments mkRecordResidue {A}.
Arguments rr_chainId {A}.
Arguments rr_resSeq {A}.
Arguments rr_secondaryStructure {A}.
Arguments rr_helixClass {A}.
Arguments rr_sheetId {A}.
Arguments rr_rest {A}.

(** The fields of a HELIX record that [assignFromPDBRecords] reads. *)
Record HelixRecord : Type := mkHelixRecord {
  hx_helixClass : jsnum;
  hx_initChainId : string;
  hx_initResSeq : jsnum;
  hx_endResSeq : jsnum
}.

(** The fields of a SHEET record that [assignFromPDBRecords] reads. *)
Record SheetRecord : Type := mkSheetRecord {
  sh_sheetId : string;
  sh_initChainId : string;
  sh_initResSeq : jsnum;
  sh_endResSeq : jsnum
}.

Module PDBRecords.
Section Residues.
Context {A : Type}.

(** The test of [this.residues.filter(...)] for a helix. *)
Definition inHelix (helix : HelixRecord) (r : RecordResidue A) : bool :=
  bool_decide (rr_chainId r = hx_initChainId helix)
  && JSMath.geb (rr_resSeq r) (hx_initResSeq helix)
  && JSMath.leb (rr_resSeq r) (hx_endResSeq helix).

(** The test of [this.residues.filter(...)] for a sheet. *)
Definition inSheet (sheet : SheetRecord) (r : RecordResidue A) : bool :=
  bool_decide (rr_chainId r = sh_initChainId sheet)
  && JSMath.geb (rr_resSeq r) (sh_initResSeq sheet)
  && JSMath.leb (rr_resSeq r) (sh_endResSeq sheet).

(** [residue.secondaryStructure = 'helix';
     residue.helixClass = helix.helixClass] *)
Definition setHelix (helix : HelixRecord) (r : RecordResidue A) : RecordResidue A :=
  mkRecordResidue (rr_chainId r) (rr_resSeq r) "helix" (Some (hx_helixClass helix))
                  (rr_sheetId r) (rr_rest r).

(** [residue.secondaryStructure = 'sheet';
     residue.sheetId = sheet.sheetId] *)
Definition setSheet (sheet : SheetRecord) (r : RecordResidue A) : RecordResidue A :=
  mkRecordResidue (rr_chainId r) (rr_resSeq r) "sheet" (rr_helixClass r)
                  (Some (sh_sheetId sheet)) (rr_rest r).

(** The two loops over the records.  The residues that pass the filter
    are objects of [this.residues], written in place; the writes do not
    touch what the filters read. *)
Definition assignFromPDBRecords (helices : list HelixRecord) (sheets : list SheetRecord)
    (residues : list (RecordResidue A)) : list (RecordResidue A) :=
  let residues :=
    foldl (fun residues helix =>
             (fun r => if inHelix helix r then setHelix helix r else r) <$> residues)
          residues helices in
  foldl (fun residues sheet =>
           (fun r => if inSheet sheet r then setSheet sheet r else r) <$> residues)
        residues sheets.

(** What [assignFromPDBRecords] makes of the residue [r]: [r'] has the
    label of the sheets if a SHEET record holds [r], else that of the
    helices if a HELIX record holds it; its [helixClass] is that of the
    last HELIX record that holds [r] and its [sheetId] that of the last
    SHEET record that holds it; everything else is as in [r]. *)
Definition recordResult (helices : list HelixRecord) (sheets : list SheetRecord)
    (r r' : RecordResidue A) : Prop :=
  rr_chainId r' = rr_chainId r /\
  rr_resSeq r' = rr_resSeq r /\
  rr_rest r' = rr_rest r /\
  rr_secondaryStructure r'
  = (if existsb (fun sheet => inSheet sheet r) sheets then "sheet"
     else if existsb (fun helix => inHelix helix r) helices then "helix"
     else rr_secondaryStructure r) /\
  rr_helixClass r'
  = match last (List.filter (fun helix => inHelix helix r) helices) with
    | Some helix => Some (hx_helixClass helix)
    | None => rr_helixClass r
    end /\
  rr_sheetId r'
  = match last (List.filter (fun sheet => inSheet sheet r) sheets) with
    | Some sheet => Some (sh_sheetId sheet)
    | None => rr_sheetId r
    end.
End Residues.
End PDBRecords.

(** ** PDBParser.buildChains

    [buildChains] passes over a residue whose [isLigand] is set.  Only
    [buildLigands] sets it, and [parse] calls [buildLigands] after
    [buildChains]; the mark is carried beside the residue. *)

Record MarkedResidue : Type := mkMarked {
  mr_residue : Residue;
  mr_isLigand : bool
}.

Module Chains.
(** [chainMap.get(residue.chainId).residues.push(residue)], after
    [chainMap.set(...)] for a chain that is new; a [Map] keeps its keys
    in the order in which they were set. *)
Fixpoint pushResidue (chainMap : list Chain) (residue : Residue) : list Chain :=
  match chainMap with
  | [] => [mkChain (r_chainId residue) [residue] "protein"]
  | chain :: rest =>
      if bool_decide (c_id chain = r_chainId residue)
      then mkChain (c_id chain) (c_residues chain ++ [residue]) (c_type chain) :: rest
      else chain :: pushResidue rest residue
  end.

(** The type of a chain, from the counts of its residues. *)
Definition chainTypeOf (residues : list Residue) : string :=
  let proteinCount := List.length (List.filter r_isProtein residues) in
  let nucleicCount := List.length (List.filter r_isNucleic residues) in
  if bool_decide (nucleicCount < proteinCount)%nat then "protein"
  else if bool_decide (0 < nucleicCount)%nat then "nucleic"
  else "other".

Definition buildChains (residues : list MarkedResidue) : list Chain :=
  let chainMap :=
    foldl (fun chainMap residue =>
             if mr_isLigand residue then chainMap
             else pushResidue chainMap (mr_residue residue)) [] residues in
  (fun chain => mkChain (c_id chain) (c_residues chain) (chainTypeOf (c_residues chain)))
  <$> chainMap.

(** The residues that [buildChains] does not pass over. *)
Definition keptResidues (residues : list MarkedResidue) : list Residue :=
  mr_residue <$> List.filter (fun residue => negb (mr_isLigand residue)) residues.

(** The invariant of the loop: the chains made of the residues [kept]
    so far. *)
Definition chainMapInv (kept : list Residue) (chainMap : list Chain) : Prop :=
  NoDup (c_id <$> chainMap) /\
  (forall chain, chain ∈ chainMap ->
     c_residues chain <> [] /\
     c_residues chain = filter (fun r => r_chainId r = c_id chain) kept) /\
  (forall r, r ∈ kept -> r_chainId r ∈ c_id <$> chainMap).
End Chains.

(** * Concrete inputs used by the examples below *)

Definition c5_f0 : Frame := mkFrame (mkVec3 1 0 0) (mkVec3 0 1 0) (mkVec3 0 0 1).
Definition c5_f1 : Frame := mkFrame (mkVec3 1 0 0) (mkVec3 0 (-1) 0) (mkVec3 0 0 1).

Section LigandExamples.
Import PrimFloat.
Local Open Scope float_scope.

(** A ligand atom on the x axis. *)
Definition exAtom (element : string) (x : float) : Atom float :=
  mkAtom 1 "X1" "" "LIG" "A" 1 "" x 0 0 1 0 element "" true.

(** Two carbon atoms at the distance 1.976, the product 1.3 * (0.76 +
    0.76) over the real numbers. *)
Definition exCarbons : list (Atom float) :=
  [exAtom "C" 0; exAtom "c" 1.976].
End LigandExamples.

(** An extrusion over two curve samples, before its shape is chosen. *)
Definition exExtrude2 : CartoonExtrude :=
  CartoonExtrudeOps.allocatePointsNormalsColors CartoonExtrudeOps.new 2.

Definition exScore : Score := mkScore 0 0 0 1 1.

Definition exHelix4 : list Assignment :=
  [ mkAssignment 0 "helix" exScore None; mkAssignment 1 "helix" exScore None;
    mkAssignment 2 "helix" exScore None; mkAssignment 3 "helix" exScore None ].

Definition exLine : string :=
  "HETATM 1234 FE   HEM A 154      xx.340  24.430   -.614  abc                       ".

(** Five CA atoms on the x axis, 3.8 apart. *)
Definition exP0 : Vec3 := mkVec3 0 0 0.
Definition exD : Vec3 := mkVec3 3.8 0 0.

Definition exCA (seq : Z) (k : R) : Residue :=
  let p := linePoint exP0 exD k in
  mkResidue "A" seq "" "ALA"
    [mkAtom 1%R "CA" "" "ALA" "A" (IZR seq) "" (vx p) (vy p) (vz p) 1%R 0%R "C" "" false]
    "coil" None true false false
    (Some (mkAtom 1%R "CA" "" "ALA" "A" (IZR seq) "" (vx p) (vy p) (vz p) 1%R 0%R "C" "" false)).

(** Four control points on the x axis, one apart. *)
Definition exLine4 : list Vec3 :=
  [mkVec3 0 0 0; mkVec3 1 0 0; mkVec3 2 0 0; mkVec3 3 0 0].

(** Ten residues of chain A, numbered 1 to 10, with their CA atoms on a
    line. *)
Definition exHelixRaw : list Residue :=
  [ exCA 1 0; exCA 2 1; exCA 3 2; exCA 4 3; exCA 5 4;
    exCA 6 5; exCA 7 6; exCA 8 7; exCA 9 8; exCA 10 9 ].


(** * More concrete inputs *)

(** A sample of a ribbon with the coil profile, on the x axis. *)
Definition exSegment (i : nat) : Segment :=
  mkSegment (mkVec3 (INR i) 0 0) (mkVec3 1 0 0) (mkVec3 0 1 0) (mkVec3 0 0 1)
            Ribbon.getCoilProfile (exCA 1 0) 0 i.

(** * Proofs *)

(** ** Twist minimisation *)

Section TwistProofs.
Import CartoonMath Twist.
Local Open Scope R_scope.

Lemma dot_scale_neg (a b : Vec3) : dot a (scale b (-1)) = - dot a b.
Proof. unfold dot, scale; simpl; ring. Qed.

Lemma twistBody_normal (prevFrame currFrame : Frame) :
  0 <= dot (normal prevFrame) (normal (twistBody prevFrame currFrame)).
Proof.
  unfold twistBody.
  repeat case_bool_decide; simpl; rewrite ?dot_scale_neg; lra.
Qed.

Lemma twistLoop_length steps : forall i frames,
  List.length (twistLoop steps i frames) = List.length frames.
Proof.
  induction steps as [|steps IH]; intros i frames; simpl; [done|].
  destruct (frames !! (i - 1)%nat); [|done].
  destruct (frames !! i); [|done].
  by rewrite IH, length_insert.
Qed.

Lemma twistLoop_aligned steps : forall i frames,
  (1 <= i)%nat -> (i + steps = List.length frames)%nat ->
  aligned_below i frames ->
  aligned_below (List.length frames) (twistLoop steps i frames).
Proof.
  induction steps as [|steps IH]; intros i frames Hi Hlen Hinv; simpl.
  - by replace (List.length frames) with i by lia.
  - destruct (lookup_lt_is_Some_2 frames (i - 1)) as [p Hp]; [lia|].
    destruct (lookup_lt_is_Some_2 frames i) as [c Hc]; [lia|].
    rewrite Hp, Hc.
    rewrite <- (length_insert frames i (twistBody p c)).
    apply IH; [lia | rewrite length_insert; lia |].
    intros j f g Hj Hf Hg.
    destruct (decide (S j = i)) as [Heq|Hne].
    + subst i.
      rewrite list_lookup_insert_eq in Hg by lia.
      rewrite list_lookup_insert_ne in Hf by lia.
      simpl in Hp. rewrite Nat.sub_0_r in Hp.
      injection Hg as <-. rewrite Hp in Hf. injection Hf as <-.
      apply twistBody_normal.
    + rewrite list_lookup_insert_ne in Hf by lia.
      rewrite list_lookup_insert_ne in Hg by lia.
      apply (Hinv j); [lia | done | done].
Qed.

End TwistProofs.

(** C5. After [minimizeFrameTwisting], every two consecutive frames [i]
    and [i+1] of the result satisfy [dot(normal_i, normal_{i+1}) >= 0]. *)
Theorem minimizeFrameTwisting_normals_aligned (frames : list Frame) (i : nat) (f g : Frame) :
  Twist.minimizeFrameTwisting frames !! i = Some f ->
  Twist.minimizeFrameTwisting frames !! S i = Some g ->
  (CartoonMath.dot (normal f) (normal g) >= 0)%R.
Proof.
  unfold Twist.minimizeFrameTwisting. intros Hf Hg.
  case_bool_decide as Hlen.
  - apply lookup_lt_Some in Hg. lia.
  - apply Rle_ge.
    pose proof (twistLoop_aligned (List.length frames - 1) 1 frames) as H.
    rewrite <- (twistLoop_length (List.length frames - 1) 1 frames) in H at 3.
    eapply (H ltac:(lia) ltac:(lia)); [| | exact Hf | exact Hg].
    + intros j ? ? Hj. lia.
    + apply lookup_lt_Some in Hg. done.
Qed.

Lemma minimizeFrameTwisting_normals_aligned_witness :
  Twist.minimizeFrameTwisting [c5_f0; c5_f1] !! 0%nat = Some c5_f0 /\
  Twist.minimizeFrameTwisting [c5_f0; c5_f1] !! 1%nat = Some (Twist.twistBody c5_f0 c5_f1) /\
  (CartoonMath.dot (normal c5_f0) (normal (Twist.twistBody c5_f0 c5_f1)) >= 0)%R.
Proof.
  assert (H0 : Twist.minimizeFrameTwisting [c5_f0; c5_f1] !! 0%nat = Some c5_f0)
    by reflexivity.
  assert (H1 : Twist.minimizeFrameTwisting [c5_f0; c5_f1] !! 1%nat
               = Some (Twist.twistBody c5_f0 c5_f1)) by reflexivity.
  split; [exact H0 | split; [exact H1 |]].
  exact (minimizeFrameTwisting_normals_aligned _ _ _ _ H0 H1).
Defined.

(** ** Curve evaluation *)

Section CurveProofs.
Import Vector3 BSplineCurve.
Local Open Scope R_scope.

Lemma clampT_bounds (t : R) : 0 <= clampT t <= 1.
Proof.
  unfold clampT, Rmax, Rmin.
  repeat destruct (Rle_dec _ _); lra.
Qed.

Lemma startIndexOf_bounds (cps : list Vec3) (span : Z) :
  (4 <= List.length cps)%nat ->
  (0 <= startIndexOf cps span /\
   startIndexOf cps span + 3 < Z.of_nat (List.length cps))%Z.
Proof. unfold startIndexOf. lia. Qed.

End CurveProofs.

(** C10. [getPointAt] returns a point for every real [t] and every list
    of control points: the origin for no control point, the first control
    point for one to three of them, and for four or more it clamps [t]
    into [0,1] and reads the four control points from a start index that
    lies inside the array. *)
Theorem getPointAt_total (controlPoints : list Vec3) (t : R) :
  (controlPoints = [] ->
     BSplineCurve.getPointAt controlPoints t = Some (mkVec3 0 0 0)) /\
  (forall p rest, controlPoints = p :: rest -> (List.length controlPoints <= 3)%nat ->
     BSplineCurve.getPointAt controlPoints t = Some p) /\
  ((4 <= List.length controlPoints)%nat ->
     let t' := BSplineCurve.clampT t in
     let span := BSplineCurve.spanOf controlPoints t' in
     let startIndex := BSplineCurve.startIndexOf controlPoints span in
     (0 <= t' <= 1)%R /\
     (0 <= startIndex /\ startIndex + 3 < Z.of_nat (List.length controlPoints))%Z /\
     exists p0 p1 p2 p3 q,
       controlPoints !! Z.to_nat startIndex = Some p0 /\
       controlPoints !! (Z.to_nat startIndex + 1)%nat = Some p1 /\
       controlPoints !! (Z.to_nat startIndex + 2)%nat = Some p2 /\
       controlPoints !! (Z.to_nat startIndex + 3)%nat = Some p3 /\
       BSplineCurve.evaluateBSpline [p0; p1; p2; p3]
         (t' * IZR (BSplineCurve.numSpans controlPoints) - IZR span)%R = Some q /\
       BSplineCurve.getPointAt controlPoints t = Some q).
Proof.
  split; [|split].
  - intros ->. reflexivity.
  - intros p rest -> Hlen. unfold BSplineCurve.getPointAt.
    rewrite bool_decide_eq_true_2 by (simpl in *; lia).
    rewrite bool_decide_eq_false_2 by (simpl; lia). reflexivity.
  - intros Hlen t' span startIndex.
    pose proof (startIndexOf_bounds controlPoints span Hlen) as [Hlo Hhi].
    fold startIndex in Hlo, Hhi.
    split; [apply clampT_bounds | split; [done |]].
    destruct (lookup_lt_is_Some_2 controlPoints (Z.to_nat startIndex)) as [p0 H0]; [lia|].
    destruct (lookup_lt_is_Some_2 controlPoints (Z.to_nat startIndex + 1)) as [p1 H1]; [lia|].
    destruct (lookup_lt_is_Some_2 controlPoints (Z.to_nat startIndex + 2)) as [p2 H2]; [lia|].
    destruct (lookup_lt_is_Some_2 controlPoints (Z.to_nat startIndex + 3)) as [p3 H3]; [lia|].
    eexists p0, p1, p2, p3, _.
    repeat (split; [eassumption|]).
    split; [reflexivity|].
    unfold BSplineCurve.getPointAt.
    rewrite bool_decide_eq_false_2 by lia.
    fold t' span startIndex. rewrite H0, H1, H2, H3. reflexivity.
Qed.

Lemma getPointAt_total_witness :
  BSplineCurve.getPointAt [] 0%R = Some (mkVec3 0 0 0) /\
  BSplineCurve.getPointAt [mkVec3 1 2 3] 0%R = Some (mkVec3 1 2 3) /\
  (exists q, BSplineCurve.getPointAt
     [mkVec3 0 0 0; mkVec3 1 0 0; mkVec3 2 0 0; mkVec3 3 0 0] 0%R = Some q).
Proof.
  split; [|split].
  - exact (proj1 (getPointAt_total [] 0%R) eq_refl).
  - refine (proj1 (proj2 (getPointAt_total [mkVec3 1 2 3] 0%R)) _ [] eq_refl _).
    simpl. lia.
  - destruct (proj2 (proj2 (getPointAt_total
        [mkVec3 0 0 0; mkVec3 1 0 0; mkVec3 2 0 0; mkVec3 3 0 0] 0%R)))
      as (_ & _ & p0 & p1 & p2 & p3 & q & _ & _ & _ & _ & _ & Hq).
    + simpl. lia.
    + exists q. exact Hq.
Defined.

(** ** Ligand bonds *)

Section LigandProofs.
Import PrimFloat Ligand.
Local Open Scope float_scope.

(** IEEE 754 multiplication is commutative. *)
Lemma float_mul_comm (x y : float) : x * y = y * x.
Proof.
  rewrite <- (FloatAxioms.SF2Prim_Prim2SF (x * y)), <- (FloatAxioms.SF2Prim_Prim2SF (y * x)).
  f_equal. rewrite !FloatAxioms.mul_spec.
  unfold FloatAxioms.SF64mul, SpecFloat.SFmul.
  destruct (FloatOps.Prim2SF x) as [sx|sx| |sx mx ex],
           (FloatOps.Prim2SF y) as [sy|sy| |sy my ey];
    try reflexivity; try (by rewrite xorb_comm).
  by rewrite xorb_comm, Pos.mul_comm, Z.add_comm.
Qed.

(** No radius of the table is falsy. *)
Lemma covalentRadii_truthy (k : string) (r : float) :
  covalentRadii !! k = Some r -> (r =? 0) || is_nan r = false.
Proof.
  unfold covalentRadii. intros Hk.
  apply elem_of_list_to_map_2 in Hk.
  repeat (apply elem_of_cons in Hk as [Hk|Hk];
          [injection Hk as _ ->; vm_compute; reflexivity|]).
  by apply elem_of_nil in Hk.
Qed.

Lemma orElse_tableRadius (element : string) :
  orElse (covalentRadii !! toUpperCase element) 0.76 = tableRadius element.
Proof.
  unfold orElse, tableRadius.
  destruct (covalentRadii !! toUpperCase element) as [r|] eqn:Hk; [|done].
  by rewrite (covalentRadii_truthy _ _ Hk).
Qed.

Lemma bondBody_Some (atoms : list (Atom float)) (i j : nat) (b : Bond) :
  bondBody atoms i j = Some b ->
  b_atom1 b = i /\ b_atom2 b = j.
Proof.
  unfold bondBody. intros H.
  destruct (atoms !! i) as [a1|]; [|done].
  destruct (atoms !! j) as [a2|]; [|done].
  cbn [mbind option_bind] in H.
  destruct (_ && _); [|done].
  by injection H as <-.
Qed.

(** The body of the loop, with the distance and the bound of the claim
    written out. *)
Lemma bondBody_spec (atoms : list (Atom float)) (i j : nat) (atom1 atom2 : Atom float) :
  atoms !! i = Some atom1 -> atoms !! j = Some atom2 ->
  let dx := a_x atom2 - a_x atom1 in
  let dy := a_y atom2 - a_y atom1 in
  let dz := a_z atom2 - a_z atom1 in
  let d := sqrt (dx * dx + dy * dy + dz * dz) in
  let bound := 1.3 * (tableRadius (a_element atom1) + tableRadius (a_element atom2)) in
  (bondBody atoms i j = Some (mkBond i j d) /\ (0.4 <? d) = true /\ (d <? bound) = true)
  \/ (bondBody atoms i j = None /\ ~ ((0.4 <? d) = true /\ (d <? bound) = true)).
Proof.
  intros H1 H2 dx dy dz d bound. unfold bondBody. rewrite H1, H2.
  cbn [mbind option_bind]. rewrite !orElse_tableRadius.
  fold dx dy dz. fold d. rewrite (float_mul_comm _ 1.3). fold bound.
  destruct (d <? bound), (0.4 <? d); cbn [andb];
    [left; done | right | right | right]; (split; [done | intros [? ?]; done]).
Qed.

Lemma elem_of_innerLoop (atoms : list (Atom float)) (i : nat) (b : Bond) steps :
  forall j bonds,
  b ∈ innerLoop steps j atoms i bonds <->
  b ∈ bonds \/ exists j', (j <= j' < j + steps)%nat /\ bondBody atoms i j' = Some b.
Proof.
  induction steps as [|steps IH]; intros j bonds; simpl.
  - split; [by left | intros [H | (j' & Hj & _)]; [done | lia]].
  - rewrite IH. split.
    + intros [H | (j' & Hj & Hb)].
      * destruct (bondBody atoms i j) as [b'|] eqn:Hbj; [|by left].
        apply elem_of_app in H as [H | H]; [by left|].
        apply list_elem_of_singleton in H as ->.
        right. exists j. split; [lia | done].
      * right. exists j'. split; [lia | done].
    + intros [H | (j' & Hj & Hb)].
      * left. destruct (bondBody atoms i j); [|done].
        apply elem_of_app. by left.
      * destruct (decide (j' = j)) as [-> | Hne].
        -- left. rewrite Hb. apply elem_of_app. right.
           by apply list_elem_of_singleton.
        -- right. exists j'. split; [lia | done].
Qed.

Lemma elem_of_outerLoop (atoms : list (Atom float)) (b : Bond) steps :
  forall i bonds, (i + steps = List.length atoms)%nat ->
  b ∈ outerLoop steps i atoms bonds <->
  b ∈ bonds \/ exists i' j', (i <= i' < j' /\ j' < List.length atoms)%nat /\
                          bondBody atoms i' j' = Some b.
Proof.
  induction steps as [|steps IH]; intros i bonds Hlen; simpl.
  - split; [by left | intros [H | (i' & j' & Hj & _)]; [done | lia]].
  - rewrite IH by lia. rewrite elem_of_innerLoop. split.
    + intros [[H | (j' & Hj & Hb)] | (i' & j' & Hj & Hb)].
      * by left.
      * right. exists i, j'. split; [lia | done].
      * right. exists i', j'. split; [lia | done].
    + intros [H | (i' & j' & Hj & Hb)].
      * by left; left.
      * destruct (decide (i' = i)) as [-> | Hne].
        -- left; right. exists j'. split; [lia | done].
        -- right. exists i', j'. split; [lia | done].
Qed.

(** At the edge.  Over the real numbers 1.3 * (0.76 + 0.76) is 1.976; in
    binary64 the product is 1.9760000000000002, the number after the
    one that 1.976 denotes.  Two carbon atoms at the distance 1.976 are
    bonded, and at the distance 1.9760000000000002 they are not. *)
Lemma calculateLigandBonds_carbon_edge :
  1.3 * (tableRadius "C" + tableRadius "c") = 1.9760000000000002 /\
  calculateLigandBonds exCarbons = [mkBond 0 1 1.976] /\
  calculateLigandBonds [exAtom "C" 0; exAtom "c" 1.9760000000000002] = [].
Proof. vm_compute. done. Qed.

(** At the lower edge: 1.1 - 0.7 is 0.40000000000000013 in binary64,
    above the number that 0.4 denotes, and the two atoms are bonded;
    atoms at the distance 0.4 are not, and neither are atoms of which
    one has a coordinate that is not a number. *)
Lemma calculateLigandBonds_lower_edge :
  calculateLigandBonds [exAtom "H" 0.7; exAtom "H" 1.1]
    = [mkBond 0 1 0.40000000000000013] /\
  calculateLigandBonds [exAtom "H" 0; exAtom "H" 0.4] = [] /\
  calculateLigandBonds [exAtom "H" 0; exAtom "H" nan] = [].
Proof. vm_compute. done. Qed.

(** C8. For two atoms [i < j] of a ligand's atom array, a bond between
    them is in the result of [calculateLigandBonds] if and only if their
    Euclidean distance [d], the square root of the sum of the squares
    of the coordinate differences, satisfies [0.4 < d < 1.3 * (r_i +
    r_j)], where a radius is the covalent-radius table's entry for the
    upper-cased element symbol and 0.76 when the table has none.  The
    numbers are binary64 numbers and the operations and comparisons
    those of IEEE 754, as the code has them.  The bond records the
    distance [d]. *)
Theorem calculateLigandBonds_iff (atoms : list (Atom float)) (i j : nat)
    (atom1 atom2 : Atom float) :
  atoms !! i = Some atom1 -> atoms !! j = Some atom2 -> (i < j)%nat ->
  let dx := a_x atom2 - a_x atom1 in
  let dy := a_y atom2 - a_y atom1 in
  let dz := a_z atom2 - a_z atom1 in
  let d := PrimFloat.sqrt (dx * dx + dy * dy + dz * dz) in
  let r_i := Ligand.tableRadius (a_element atom1) in
  let r_j := Ligand.tableRadius (a_element atom2) in
  ((exists b, b ∈ Ligand.calculateLigandBonds atoms /\ b_atom1 b = i /\ b_atom2 b = j)
   <-> ((0.4 <? d) = true /\ (d <? 1.3 * (r_i + r_j)) = true)) /\
  (forall b, b ∈ Ligand.calculateLigandBonds atoms -> b_atom1 b = i -> b_atom2 b = j ->
     b_distance b = d).
Proof.
  intros H1 H2 Hij dx dy dz d r_i r_j.
  unfold Ligand.calculateLigandBonds.
  pose proof (lookup_lt_Some _ _ _ H2) as Hj.
  assert (forall b, b ∈ outerLoop (List.length atoms) 0 atoms [] ->
            b_atom1 b = i -> b_atom2 b = j -> bondBody atoms i j = Some b) as Hbody.
  { intros b Hb Hb1 Hb2.
    apply elem_of_outerLoop in Hb; [|lia].
    destruct Hb as [Hb | (i' & j' & _ & Hb)]; [by apply elem_of_nil in Hb|].
    destruct (bondBody_Some _ _ _ _ Hb) as [E1 E2].
    rewrite Hb1 in E1. rewrite Hb2 in E2. by subst i' j'. }
  destruct (bondBody_spec atoms i j atom1 atom2 H1 H2) as [(Hb & Hd) | (Hn & Hd)];
    fold dx dy dz in Hd; fold d in Hd; fold r_i r_j in Hd.
  - fold dx dy dz in Hb. fold d in Hb. split; [split|].
    + intros _. exact Hd.
    + intros _. exists (mkBond i j d). split; [|split; reflexivity].
      apply elem_of_outerLoop; [lia|].
      right. exists i, j. split; [lia | exact Hb].
    + intros b Hin Hb1 Hb2. pose proof (Hbody b Hin Hb1 Hb2) as Hb'.
      rewrite Hb in Hb'. by injection Hb' as <-.
  - split; [split|].
    + intros (b & Hin & Hb1 & Hb2). pose proof (Hbody b Hin Hb1 Hb2). congruence.
    + intros Hd'. done.
    + intros b Hin Hb1 Hb2. pose proof (Hbody b Hin Hb1 Hb2). congruence.
Qed.

Lemma calculateLigandBonds_iff_witness :
  exCarbons !! 0%nat = Some (exAtom "C" 0) /\
  exCarbons !! 1%nat = Some (exAtom "c" 1.976) /\
  (0 < 1)%nat /\
  ((exists b, b ∈ Ligand.calculateLigandBonds exCarbons
              /\ b_atom1 b = 0%nat /\ b_atom2 b = 1%nat)
   <-> ((0.4 <? PrimFloat.sqrt ((1.976 - 0) * (1.976 - 0) + (0 - 0) * (0 - 0) + (0 - 0) * (0 - 0))) = true /\
        (PrimFloat.sqrt ((1.976 - 0) * (1.976 - 0) + (0 - 0) * (0 - 0) + (0 - 0) * (0 - 0))
         <? 1.3 * (Ligand.tableRadius "C" + Ligand.tableRadius "c")) = true)).
Proof.
  split; [reflexivity | split; [reflexivity | split; [lia |]]].
  exact (proj1 (calculateLigandBonds_iff exCarbons 0 1
           (exAtom "C" 0) (exAtom "c" 1.976) eq_refl eq_refl ltac:(lia))).
Defined.
End LigandProofs.

(** ** Loops *)

Lemma forLoop_inv {St : Type} (P : nat -> St -> Prop) (body : nat -> St -> St) steps :
  forall i s,
  P i s ->
  (forall k s', (i <= k < i + steps)%nat -> P k s' -> P (S k) (body k s')) ->
  P (i + steps)%nat (forLoop steps i body s).
Proof.
  induction steps as [|steps IH]; intros i s Hs Hstep; simpl.
  - by rewrite Nat.add_0_r.
  - replace (i + S steps)%nat with (S i + steps)%nat by lia.
    apply IH.
    + apply Hstep; [lia | done].
    + intros k s' Hk. apply Hstep. lia.
Qed.

Lemma forLoopM_inv {St : Type} (P : nat -> St -> Prop) (body : nat -> St -> option St) steps :
  forall i s,
  P i s ->
  (forall k s', (i <= k < i + steps)%nat -> P k s' ->
                exists s'', body k s' = Some s'' /\ P (S k) s'') ->
  exists r, forLoopM steps i body s = Some r /\ P (i + steps)%nat r.
Proof.
  induction steps as [|steps IH]; intros i s Hs Hstep; simpl.
  - exists s. by rewrite Nat.add_0_r.
  - destruct (Hstep i s ltac:(lia) Hs) as (s'' & -> & Hs''). simpl.
    replace (i + S steps)%nat with (S i + steps)%nat by lia.
    apply IH; [done|].
    intros k s' Hk. apply Hstep. lia.
Qed.

(** ** Extrusion counts *)

Section GeometryProofs.
Import CartoonGeometry.

Lemma circle_fields (extrude : CartoonExtrude) (n : nat) (size : R) :
  ex_n (CartoonShapes.circle extrude n size) = ex_n extrude /\
  ex_nShapePoints (CartoonShapes.circle extrude n size) = (n + 1)%nat.
Proof.
  unfold CartoonShapes.circle.
  destruct (forLoop _ _ _ _) as [sv sn]. done.
Qed.

Lemma vertex_loops_length (extrude : CartoonExtrude) (n shapePoints : nat) :
  List.length
    (forLoop n 0 (fun i => forLoop shapePoints 0 (vertexBody extrude i)) ([], [], [])).1.1
  = (3 * (n * shapePoints))%nat.
Proof.
  pose (P := fun (i : nat) (acc : list R * list R * list R) =>
               List.length acc.1.1 = (3 * (i * shapePoints))%nat).
  apply (forLoop_inv P _ n 0); [done|].
  intros i acc _ Hacc. unfold P in *.
  pose (Q := fun (j : nat) (acc' : list R * list R * list R) =>
               List.length acc'.1.1 = (3 * (i * shapePoints) + 3 * j)%nat).
  assert (Q (0 + shapePoints)%nat (forLoop shapePoints 0 (vertexBody extrude i) acc)) as HQ.
  { apply (forLoop_inv Q); [unfold Q; lia|].
    intros j [[vs ns] cs] _ Hj. unfold Q in *. simpl in *.
    rewrite length_app. simpl. lia. }
  unfold Q in HQ. lia.
Qed.

Lemma index_loops_length (n shapePoints : nat) :
  List.length
    (forLoop n 0 (fun i => forLoop shapePoints 0 (indexBody shapePoints i)) [])
  = (n * shapePoints * 6)%nat.
Proof.
  pose (P := fun (i : nat) (acc : list nat) =>
               List.length acc = (i * shapePoints * 6)%nat).
  apply (forLoop_inv P _ n 0); [done|].
  intros i acc _ Hacc. unfold P in *.
  pose (Q := fun (j : nat) (acc' : list nat) =>
               List.length acc' = (i * shapePoints * 6 + 6 * j)%nat).
  assert (Q (0 + shapePoints)%nat (forLoop shapePoints 0 (indexBody shapePoints i) acc)) as HQ.
  { apply (forLoop_inv Q); [unfold Q; lia|].
    intros j ids _ Hj. unfold Q, indexBody in *.
    rewrite !length_app. simpl. lia. }
  unfold Q in HQ. lia.
Qed.

Lemma generateGeometry_counts (extrude : CartoonExtrude) :
  (2 <= ex_n extrude)%nat -> (3 <= ex_nShapePoints extrude)%nat ->
  vertexCount (generateGeometry extrude) = (ex_n extrude * ex_nShapePoints extrude)%nat /\
  List.length (g_indices (generateGeometry extrude))
    = ((ex_n extrude - 1) * ex_nShapePoints extrude * 6)%nat.
Proof.
  intros Hn Hs. unfold vertexCount, generateGeometry.
  rewrite !bool_decide_eq_false_2 by lia. cbn [orb].
  pose proof (vertex_loops_length extrude (ex_n extrude) (ex_nShapePoints extrude)) as Hv.
  destruct (forLoop (ex_n extrude) 0 _ _) as [[vs ns] cs].
  cbn [fst g_vertices g_indices] in *.
  rewrite Hv, index_loops_length. split; [|done].
  rewrite Nat.mul_comm. by apply Nat.div_mul.
Qed.

End GeometryProofs.

Section RibbonCountProofs.
Import Ribbon.

Lemma foldl_app_length {A B : Type} (f : A -> B) (l : list A) (acc : list B) :
  List.length (foldl (fun acc x => acc ++ [f x]) acc l)
  = (List.length acc + List.length l)%nat.
Proof.
  revert acc. induction l as [|x l IH]; intros acc; simpl; [lia|].
  rewrite IH, length_app. simpl. lia.
Qed.

Lemma transformProfileToWorld_length (segment : Segment) :
  List.length (transformProfileToWorld segment) = List.length (s_profile segment).
Proof.
  unfold transformProfileToWorld.
  rewrite (foldl_app_length
    (fun point => Vector3.add (Vector3.add (s_position segment)
                    (Vector3.scale (s_normal segment) (pp_x point)))
                    (Vector3.scale (s_binormal segment) (pp_y point)))).
  done.
Qed.

Lemma positionsBody_length (count i : nat) (segment : Segment) (acc : list R * list R) :
  List.length (positionsBody count i segment acc).1
  = (List.length acc.1 + 3 * List.length (s_profile segment))%nat.
Proof.
  unfold positionsBody. rewrite <- transformProfileToWorld_length.
  set (wp := transformProfileToWorld segment).
  pose (Q := fun (k : nat) (acc' : list R * list R) =>
               List.length acc'.1 = (List.length acc.1 + 3 * k)%nat).
  apply (forLoop_inv Q _ (List.length wp) 0); [unfold Q; lia|].
  intros k [ps us] _ Hk. unfold Q in *. simpl in *.
  rewrite length_app. simpl. lia.
Qed.

Lemma createSegmentMesh_counts (segments : list Segment) (name : string * nat) (n : nat) :
  (2 <= List.length segments)%nat ->
  (forall s, s ∈ segments -> List.length (s_profile s) = n) ->
  exists mesh, createSegmentMesh segments name = Some mesh /\
    (List.length (rm_positions mesh) = 3 * (List.length segments * n))%nat /\
    (List.length (rm_indices mesh) = (List.length segments - 1) * n * 6)%nat.
Proof.
  intros Hlen Hprof. unfold createSegmentMesh.
  rewrite bool_decide_eq_false_2 by lia.
  set (m := List.length segments) in *.
  assert (List.length
            (forLoop m 0 (fun i acc =>
               match segments !! i with
               | Some segment => positionsBody m i segment acc
               | None => acc
               end) ([], [])).1 = (3 * (m * n))%nat) as Hpos.
  { pose (P := fun (i : nat) (acc : list R * list R) =>
                 List.length acc.1 = (3 * (i * n))%nat).
    apply (forLoop_inv P _ m 0); [done|].
    intros i acc Hi Hacc. unfold P in *.
    destruct (lookup_lt_is_Some_2 segments i) as [s Hs]; [fold m; lia|].
    rewrite Hs, positionsBody_length, Hacc.
    rewrite (Hprof s) by (eapply list_elem_of_lookup_2; exact Hs). lia. }
  assert (List.length (forLoop (m - 1) 0 (facesBody segments) [])
          = ((m - 1) * n * 6)%nat) as Hidx.
  { pose (P := fun (i : nat) (acc : list nat) => List.length acc = (i * n * 6)%nat).
    apply (forLoop_inv P _ (m - 1) 0); [done|].
    intros i acc Hi Hacc. unfold P, facesBody in *.
    destruct (lookup_lt_is_Some_2 segments i) as [s Hs]; [fold m; lia|].
    rewrite Hs. simpl.
    rewrite (Hprof s) by (eapply list_elem_of_lookup_2; exact Hs).
    pose (Q := fun (j : nat) (acc' : list nat) =>
                 List.length acc' = (i * n * 6 + 6 * j)%nat).
    assert (Q (0 + n)%nat
              (forLoop n 0 (fun j indices =>
                 (indices ++ [(i * n + j)%nat; ((i + 1) * n + j)%nat;
                              (i * n + (j + 1) mod n)%nat]) ++
                 [(i * n + (j + 1) mod n)%nat; ((i + 1) * n + j)%nat;
                  ((i + 1) * n + (j + 1) mod n)%nat]) acc)) as HQ.
    { apply (forLoop_inv Q); [unfold Q; lia|].
      intros j ids _ Hj. unfold Q in *. rewrite !length_app. simpl. lia. }
    unfold Q in HQ. lia. }
  destruct (forLoop m 0 _ ([], [])) as [positions uvs]. simpl in Hpos.
  destruct (lookup_lt_is_Some_2 segments 0) as [first Hfirst]; [fold m; lia|].
  destruct (lookup_lt_is_Some_2 segments (m - 1)) as [last Hlast]; [fold m; lia|].
  rewrite Hfirst, Hlast. simpl.
  eexists. split; [reflexivity|]. simpl. done.
Qed.

End RibbonCountProofs.

(** C1, as the code has it.  [CartoonShapes.circle] stores [n + 1] shape
    points for a circle of [n] sides (the first point is repeated at the
    angle 2π), so the cartoon generator's [generateGeometry] emits
    [m * (n + 1)] vertices and [(m - 1) * (n + 1) * 6] indices over [m]
    curve samples.  The ribbon generator's [createSegmentMesh], whose
    profiles hold [n] vertices and are closed by the wrap-around alone,
    emits [m * n] vertices and [(m - 1) * n * 6] indices. *)
Theorem extrusion_counts :
  (forall (extrude : CartoonExtrude) (n : nat) (size : R),
     (3 <= n)%nat -> (2 <= ex_n extrude)%nat ->
     let m := ex_n extrude in
     let g := CartoonGeometry.generateGeometry (CartoonShapes.circle extrude n size) in
     CartoonGeometry.vertexCount g = (m * (n + 1))%nat /\
     List.length (g_indices g) = ((m - 1) * (n + 1) * 6)%nat) /\
  (forall (segments : list Segment) (name : string * nat) (n : nat),
     (2 <= List.length segments)%nat ->
     (forall s, s ∈ segments -> List.length (s_profile s) = n) ->
     let m := List.length segments in
     exists mesh, Ribbon.createSegmentMesh segments name = Some mesh /\
       (List.length (rm_positions mesh) = 3 * (m * n))%nat /\
       (List.length (rm_indices mesh) = (m - 1) * n * 6)%nat).
Proof.
  split.
  - intros extrude n size Hn Hm m g.
    destruct (circle_fields extrude n size) as [En Es].
    destruct (generateGeometry_counts (CartoonShapes.circle extrude n size))
      as [Hv Hi]; [lia | lia |].
    subst m g. rewrite Hv, Hi, En, Es. done.
  - intros segments name n Hlen Hprof m.
    exact (createSegmentMesh_counts segments name n Hlen Hprof).
Qed.

Lemma extrusion_counts_witness :
  (3 <= 3)%nat /\ (2 <= ex_n exExtrude2)%nat /\
  CartoonGeometry.vertexCount
    (CartoonGeometry.generateGeometry (CartoonShapes.circle exExtrude2 3 1)) = 8%nat /\
  List.length (g_indices
    (CartoonGeometry.generateGeometry (CartoonShapes.circle exExtrude2 3 1))) = 24%nat.
Proof.
  split; [lia | split; [simpl; lia |]].
  exact (proj1 extrusion_counts exExtrude2 3%nat 1%R ltac:(lia) ltac:(simpl; lia)).
Defined.

(** C1, as it is stated, fails on the cartoon generator: a circle of
    [n = 3] sides extruded over [m = 2] samples gives 8 vertices and 24
    indices, not [m * n = 6] and [(m - 1) * n * 6 = 18]. *)
Lemma extrusion_counts_counterexample :
  CartoonGeometry.vertexCount
    (CartoonGeometry.generateGeometry (CartoonShapes.circle exExtrude2 3 1)) = 8%nat /\
  8%nat <> (2 * 3)%nat /\
  List.length (g_indices
    (CartoonGeometry.generateGeometry (CartoonShapes.circle exExtrude2 3 1))) = 24%nat /\
  24%nat <> ((2 - 1) * 3 * 6)%nat.
Proof.
  destruct (circle_fields exExtrude2 3 1) as [En Es].
  destruct (generateGeometry_counts (CartoonShapes.circle exExtrude2 3 1))
    as [Hv Hi]; [rewrite En; simpl; lia | rewrite Es; lia |].
  rewrite Hv, Hi, En, Es. simpl. repeat split; lia.
Qed.

(** ** Smoothing of the assignments *)

Section SmoothingProofs.
Import Analyzer.

Lemma labelAt_alter_ne (label : string) (a : list Assignment) (i j : nat) :
  i <> j -> labelAt (alter (setAssignment label) j a) i = labelAt a i.
Proof. intros H. unfold labelAt. by rewrite list_lookup_alter_ne. Qed.

Lemma labelAt_alter_eq (label : string) (a : list Assignment) (j : nat) :
  labelAt (alter (setAssignment label) j a) j = ((fun _ => label) <$> labelAt a j).
Proof.
  unfold labelAt. rewrite list_lookup_alter_eq.
  by destruct (a !! j).
Qed.

Lemma labelAt_lt (a : list Assignment) (i : nat) (label : string) :
  labelAt a i = Some label -> (i < List.length a)%nat.
Proof.
  unfold labelAt. intros H. apply fmap_Some in H as (x & Hx & _).
  by apply lookup_lt_Some in Hx.
Qed.

Lemma labelAt_labels (a : list Assignment) (i : nat) :
  labels a !! i = labelAt a i.
Proof. unfold labels, labelAt. apply list_lookup_fmap. Qed.

(** The inner loop of [enforceMinimumLength]. *)
Lemma clear_labelAt run : forall start a i,
  labelAt (forLoop run start (fun j a => alter (setAssignment "coil") j a) a) i
  = if decide (start <= i < start + run)%nat then (fun _ => "coil") <$> labelAt a i else labelAt a i.
Proof.
  induction run as [|run IH]; intros start a i; simpl.
  - case_decide; [lia | done].
  - rewrite IH. destruct (decide (i = start)) as [->|Hne].
    + rewrite labelAt_alter_eq.
      repeat case_decide; try lia; by destruct (labelAt a start).
    + rewrite labelAt_alter_ne by done.
      repeat case_decide; try lia; done.
Qed.

Lemma clear_length run : forall start (a : list Assignment),
  List.length (forLoop run start (fun j a => alter (setAssignment "coil") j a) a)
  = List.length a.
Proof.
  induction run as [|run IH]; intros start a; simpl; [done|].
  by rewrite IH, length_alter.
Qed.

Lemma enforceBody_inv (a0 : list Assignment) (ssType : string) (k i : nat)
    (st : nat * Z * list Assignment) :
  ssType <> "coil" -> (1 <= k)%nat ->
  enforceInv a0 ssType k i st ->
  enforceInv a0 ssType k (S i) (enforceBody ssType k i st).
Proof.
  intros Hcoil Hk. destruct st as [[run rs] a].
  intros (Hlen & Hrun & Hrs & Hcur & Hdone & Hsame).
  unfold enforceBody.
  destruct (bool_decide (i < List.length a)%nat
            && bool_decide (labelAt a i = Some ssType)) eqn:HisType.
  - apply andb_prop in HisType as [_ Hi%bool_decide_eq_true].
    repeat split; [done | lia | | | | done].
    + intros _. case_bool_decide; [lia | rewrite Hrs by lia; lia].
    + intros j Hj. destruct (decide (j = i)) as [->|]; [done|]. apply Hcur. lia.
    + intros j Hj Hl. replace (S i - S run)%nat with (i - run)%nat in * by lia.
      by apply Hdone.
  - assert (labelAt a i <> Some ssType) as Hi.
    { intros Hl. rewrite andb_false_iff in HisType.
      destruct HisType as [H%bool_decide_eq_false | H%bool_decide_eq_false]; [|done].
      apply labelAt_lt in Hl. lia. }
    clear HisType.
    destruct (bool_decide (0 < run)%nat && bool_decide (run < k)%nat) eqn:Hshort.
    + apply andb_prop in Hshort as [Hpos%bool_decide_eq_true Hlt%bool_decide_eq_true].
      rewrite (Hrs Hpos), Nat2Z.id.
      repeat split.
      * by rewrite clear_length.
      * lia.
      * lia.
      * intros j Hj. lia.
      * intros j Hj. rewrite clear_labelAt. case_decide as Hin.
        -- intros Hl. destruct (labelAt a j); simpl in Hl; congruence.
        -- intros Hl.
           destruct (decide (j = i)) as [->|]; [done|].
           destruct (Hdone j ltac:(lia) Hl) as (w & Hw & Hwk & Hall).
           exists w. split; [done | split; [lia|]].
           intros j' Hj'. rewrite clear_labelAt.
           rewrite decide_False by lia. by apply Hall.
      * intros j. rewrite clear_labelAt. case_decide as Hin; [|apply Hsame].
        right. rewrite (Hcur j) by lia. split; [|done].
        destruct (Hsame j) as [<- | [_ Hc]]; [apply Hcur; lia|].
        rewrite (Hcur j) in Hc by lia. congruence.
    + repeat split; [done | lia | lia | intros j Hj; lia | | done].
      intros j Hj Hl.
      destruct (decide (j = i)) as [->|]; [done|].
      destruct (decide (j < i - run)%nat) as [Hlow|Hin].
      * destruct (Hdone j Hlow Hl) as (w & Hw & Hwk & Hall).
        exists w. split; [done | split; [lia | done]].
      * assert (k <= run)%nat as Hlong.
        { rewrite andb_false_iff in Hshort.
          destruct Hshort as [H%bool_decide_eq_false | H%bool_decide_eq_false]; lia. }
        destruct (decide (j + k <= i)%nat); [exists j | exists (i - k)%nat];
          (split; [lia | split; [lia|]]);
          intros j' Hj'; apply Hcur; lia.
Qed.

Lemma enforceMinimumLength_inv (a0 : list Assignment) (ssType : string) (k : nat) :
  ssType <> "coil" -> (1 <= k)%nat ->
  enforceInv a0 ssType k (List.length a0 + 1)
    (forLoop (List.length a0 + 1) 0 (enforceBody ssType k) (0%nat, (-1)%Z, a0)).
Proof.
  intros Hcoil Hk.
  apply (forLoop_inv (enforceInv a0 ssType k) _ (List.length a0 + 1) 0).
  - repeat split; [lia | lia | intros j Hj; lia | intros j Hj; lia | by left].
  - intros i st _. by apply enforceBody_inv.
Qed.

Lemma enforceMinimumLength_covered (a0 : list Assignment) (ssType : string) (k : nat) :
  ssType <> "coil" -> (1 <= k)%nat ->
  covered (enforceMinimumLength a0 ssType k) ssType k.
Proof.
  intros Hcoil Hk. unfold enforceMinimumLength.
  pose proof (enforceMinimumLength_inv a0 ssType k Hcoil Hk) as Hinv.
  destruct (forLoop _ _ _ _) as [[run rs] a]. simpl.
  destruct Hinv as (Hlen & Hrun & Hrs & Hcur & Hdone & Hsame).
  assert (run = 0%nat) as ->.
  { destruct (decide (run = 0%nat)) as [|Hne]; [done|].
    pose proof (Hcur (List.length a0) ltac:(lia)) as Hl.
    apply labelAt_lt in Hl. lia. }
  intros i Hi.
  destruct (Hdone i) as (w & Hw & _ & Hall); [apply labelAt_lt in Hi; lia | done |].
  by exists w.
Qed.

Lemma enforceMinimumLength_other (a0 : list Assignment) (ssType other : string) (k k' : nat) :
  ssType <> "coil" -> (1 <= k)%nat -> other <> ssType -> other <> "coil" ->
  covered a0 other k' ->
  covered (enforceMinimumLength a0 ssType k) other k'.
Proof.
  intros Hcoil Hk Hne Hoc Hcov. unfold enforceMinimumLength.
  pose proof (enforceMinimumLength_inv a0 ssType k Hcoil Hk) as Hinv.
  destruct (forLoop _ _ _ _) as [[run rs] a]. simpl.
  destruct Hinv as (_ & _ & _ & _ & _ & Hsame).
  intros i Hi.
  assert (labelAt a0 i = Some other) as Hi0.
  { destruct (Hsame i) as [<- | [_ Hc]]; [done | congruence]. }
  destruct (Hcov i Hi0) as (w & Hw & Hall).
  exists w. split; [done|].
  intros j Hj. specialize (Hall j Hj).
  destruct (Hsame j) as [-> | [Hx _]]; [done | congruence].
Qed.

(** Gap filling only extends blocks. *)
Lemma fillStep_covered (a a' : list Assignment) (label : string) (k : nat) :
  label <> "coil" -> (1 <= k)%nat ->
  fillStep a a' -> covered a label k -> covered a' label k.
Proof.
  intros Hcoil Hk (j & X & Hj & Hjc & Hprev & ->) Hcov i Hi.
  destruct (decide (i = j)) as [->|Hne].
  - rewrite labelAt_alter_eq, Hjc in Hi. simpl in Hi. injection Hi as ->.
    destruct (Hcov (j - 1)%nat Hprev) as (w & Hw & Hall).
    assert (~ (w <= j < w + k)%nat) as Hout.
    { intros Hin. specialize (Hall j Hin). congruence. }
    exists (S w). split; [lia|].
    intros j' Hj'. destruct (decide (j' = j)) as [->|].
    + rewrite labelAt_alter_eq, Hjc. done.
    + rewrite labelAt_alter_ne by done. apply Hall. lia.
  - rewrite labelAt_alter_ne in Hi by done.
    destruct (Hcov i Hi) as (w & Hw & Hall).
    exists w. split; [done|].
    intros j' Hj'. specialize (Hall j' Hj').
    rewrite labelAt_alter_ne; [done|]. intros ->. congruence.
Qed.

Lemma rtc_fillStep_covered (a a' : list Assignment) (label : string) (k : nat) :
  label <> "coil" -> (1 <= k)%nat ->
  rtc fillStep a a' -> covered a label k -> covered a' label k.
Proof.
  intros Hcoil Hk Hsteps. induction Hsteps as [|x y z Hxy _ IH]; [done|].
  intros Hx. apply IH. by eapply fillStep_covered.
Qed.

Lemma fillSingleBody_steps (i : nat) (a : list Assignment) :
  (1 <= i)%nat -> rtc fillStep a (fillSingleBody i a).
Proof.
  intros Hi. unfold fillSingleBody.
  destruct (labelAt a (i - 1)) as [prev|] eqn:Hp; [|done].
  destruct (labelAt a i) as [current|] eqn:Hc; [|done].
  destruct (labelAt a (i + 1)) as [next|]; [|done].
  destruct (_ && _) eqn:Hcond; [|done].
  apply andb_prop in Hcond as [[Hcur%bool_decide_eq_true _]%andb_prop _].
  apply rtc_once. exists i, prev. subst current. done.
Qed.

Lemma allCoil_spec (a : list Assignment) (gapSize i : nat) :
  forLoop gapSize 0
    (fun j allCoil => allCoil && bool_decide (labelAt a (i + j) = Some "coil")) true = true ->
  forall j, (j < gapSize)%nat -> labelAt a (i + j) = Some "coil".
Proof.
  pose (P := fun (n : nat) (acc : bool) =>
               acc = true -> forall j, (j < n)%nat -> labelAt a (i + j) = Some "coil").
  apply (forLoop_inv P _ gapSize 0).
  - intros _ j Hj. lia.
  - intros n acc _ Hacc. unfold P in *.
    intros [Hacc' Hn%bool_decide_eq_true]%andb_prop j Hj.
    destruct (decide (j = n)) as [->|]; [done|].
    apply Hacc; [done | lia].
Qed.

Lemma fillGapBody_steps (gapSize i : nat) (a : list Assignment) :
  (1 <= i)%nat -> rtc fillStep a (fillGapBody gapSize i a).
Proof.
  intros Hi. unfold fillGapBody.
  destruct (labelAt a (i - 1)) as [before|] eqn:Hb; [|done].
  destruct (labelAt a (i + gapSize)) as [after|]; [|done].
  destruct (_ && _) eqn:Hcond; [|done].
  apply andb_prop in Hcond as [[Hall _]%andb_prop _].
  pose proof (allCoil_spec a gapSize i Hall) as Hcoil.
  pose (Q := fun (j : nat) (a' : list Assignment) =>
               rtc fillStep a a' /\
               (forall j', (j <= j' < gapSize)%nat -> labelAt a' (i + j') = Some "coil") /\
               labelAt a' (i + j - 1) = Some before).
  assert (Q (0 + gapSize)%nat
            (forLoop gapSize 0
               (fun j a' => alter (setAssignment before) (i + j)%nat a') a)) as [H _].
  { apply (forLoop_inv Q).
    - split; [done | split].
      + intros j' Hj'. apply Hcoil. lia.
      + by rewrite Nat.add_0_r.
    - intros j a' Hj (Hsteps & Hrest & Hleft).
      split; [|split].
      + eapply rtc_r; [exact Hsteps|].
        exists (i + j)%nat, before.
        split; [lia | split; [apply Hrest; lia | done]].
      + intros j' Hj'. rewrite labelAt_alter_ne by lia. apply Hrest. lia.
      + replace (i + S j - 1)%nat with (i + j)%nat by lia.
        rewrite labelAt_alter_eq, (Hrest j) by lia. done. }
  exact H.
Qed.

Lemma fillShortGaps_steps (a : list Assignment) (maxGapLength : nat) :
  rtc fillStep a (fillShortGaps a maxGapLength).
Proof.
  unfold fillShortGaps.
  assert (rtc fillStep a (forLoop (List.length a - 2) 1 fillSingleBody a)) as H1.
  { apply (forLoop_inv (fun _ a' => rtc fillStep a a') _ (List.length a - 2) 1);
      [done|].
    intros i a' Hi Ha'. etrans; [exact Ha'|]. apply fillSingleBody_steps. lia. }
  set (a1 := forLoop (List.length a - 2) 1 fillSingleBody a) in *.
  apply (forLoop_inv (fun _ a' => rtc fillStep a a') _ (maxGapLength - 1) 2);
    [done|].
  intros gapSize a' Hg Ha'.
  apply (forLoop_inv (fun _ a'' => rtc fillStep a a'') _ _ gapSize); [done|].
  intros i a'' Hi Ha''. etrans; [exact Ha''|]. apply fillGapBody_steps. lia.
Qed.

Lemma smoothAssignments_covered (a : list Assignment) :
  covered (smoothAssignments a) "helix" 4 /\
  covered (smoothAssignments a) "sheet" 3.
Proof.
  unfold smoothAssignments, helix_minLength, sheet_minLength.
  split.
  - eapply rtc_fillStep_covered; [done | lia | apply fillShortGaps_steps |].
    apply enforceMinimumLength_other; [done | lia | done | done |].
    apply enforceMinimumLength_covered; [done | lia].
  - eapply rtc_fillStep_covered; [done | lia | apply fillShortGaps_steps |].
    apply enforceMinimumLength_covered; [done | lia].
Qed.

Lemma covered_maximalRun (a : list Assignment) (label : string) (k start len : nat) :
  covered a label k -> maximalRun (labels a) label start len -> (k <= len)%nat.
Proof.
  intros Hcov (Hpos & Hrun & Hleft & Hright).
  setoid_rewrite labelAt_labels in Hrun.
  rewrite labelAt_labels in Hleft, Hright.
  pose proof (Hrun 0%nat Hpos) as Hs. rewrite Nat.add_0_r in Hs.
  destruct (Hcov start Hs) as (w & Hw & Hall).
  assert (w = start) as ->.
  { destruct Hleft as [-> | Hl]; [lia|].
    destruct (decide (w = start)) as [|Hne]; [done|].
    exfalso. apply Hl. apply Hall. lia. }
  destruct (decide (k <= len)%nat) as [|Hgt]; [done|].
  exfalso. apply Hright. apply Hall. lia.
Qed.

End SmoothingProofs.

(** C2. Whatever labels go into the smoothing pass, its output has no
    maximal run of ["helix"] shorter than 4 and no maximal run of
    ["sheet"] shorter than 3. *)
Theorem smoothAssignments_min_runs (assignments : list Assignment) (start len : nat) :
  (Analyzer.maximalRun (labels (Analyzer.smoothAssignments assignments)) "helix" start len ->
   (4 <= len)%nat) /\
  (Analyzer.maximalRun (labels (Analyzer.smoothAssignments assignments)) "sheet" start len ->
   (3 <= len)%nat).
Proof.
  destruct (smoothAssignments_covered assignments) as [Hh Hs].
  split; intros Hrun.
  - exact (covered_maximalRun _ _ _ _ _ Hh Hrun).
  - exact (covered_maximalRun _ _ _ _ _ Hs Hrun).
Qed.

Lemma smoothAssignments_min_runs_witness :
  Analyzer.maximalRun (labels (Analyzer.smoothAssignments exHelix4)) "helix" 0 4 /\
  (4 <= 4)%nat.
Proof.
  assert (Analyzer.maximalRun (labels (Analyzer.smoothAssignments exHelix4)) "helix" 0 4) as H.
  { assert (labels (Analyzer.smoothAssignments exHelix4)
            = ["helix"; "helix"; "helix"; "helix"]) as -> by reflexivity.
    split; [lia | split; [|split; [by left | done]]].
    intros k Hk. by do 4 (destruct k as [|k]; [done|]); lia. }
  split; [exact H|].
  exact (proj1 (smoothAssignments_min_runs exHelix4 0 4) H).
Defined.

(** ** Reading atom records *)

(** C9, as the code has it.  [parseAtom] is a total function of the
    line: it always appends one atom.  A serial number, a residue
    sequence number or a coordinate that does not parse is not-a-number
    in the atom; an occupancy that does not parse becomes 1.0 and a
    temperature factor that does not parse becomes 0.0, by the [||]
    defaults of the record. *)
Theorem parseAtom_unparseable_fields (line : string) (st : ParserState) :
  let atom := PDBParser.atomOfLine line in
  let field := fun start end_ => JS.trim (JS.substring start end_ line) in
  ps_atoms (PDBParser.parseAtom line st) = ps_atoms st ++ [atom] /\
  (JS.parseInt (field 6 11)%nat = NaN -> a_id atom = NaN) /\
  (JS.parseInt (field 22 26)%nat = NaN -> a_resSeq atom = NaN) /\
  (JS.parseFloat (field 30 38)%nat = NaN -> a_x atom = NaN) /\
  (JS.parseFloat (field 38 46)%nat = NaN -> a_y atom = NaN) /\
  (JS.parseFloat (field 46 54)%nat = NaN -> a_z atom = NaN) /\
  (JS.parseFloat (field 54 60)%nat = NaN -> a_occupancy atom = Num 1.0) /\
  (JS.parseFloat (field 60 66)%nat = NaN -> a_tempFactor atom = Num 0.0).
Proof.
  intros atom field. subst atom field. unfold PDBParser.atomOfLine. simpl.
  repeat split; try done; by intros ->.
Qed.

Lemma parseAtom_unparseable_fields_witness :
  JS.parseFloat (JS.trim (JS.substring 30 38 exLine)) = NaN /\
  a_x (PDBParser.atomOfLine exLine) = NaN /\
  JS.parseFloat (JS.trim (JS.substring 54 60 exLine)) = NaN /\
  a_occupancy (PDBParser.atomOfLine exLine) = Num 1.0.
Proof.
  assert (Hx : JS.parseFloat (JS.trim (JS.substring 30 38 exLine)) = NaN)
    by (vm_compute; reflexivity).
  assert (Ho : JS.parseFloat (JS.trim (JS.substring 54 60 exLine)) = NaN)
    by (vm_compute; reflexivity).
  pose proof (parseAtom_unparseable_fields exLine (mkParserState [] [])) as H.
  cbv zeta in H.
  destruct H as (_ & _ & _ & H30 & _ & _ & H54 & _).
  split; [exact Hx | split; [exact (H30 Hx) | split; [exact Ho | exact (H54 Ho)]]].
Defined.

(** C9, as it is stated, fails for the occupancy: the field of [exLine]
    does not parse, and the atom's occupancy is the number 1.0, not
    not-a-number. *)
Lemma parseAtom_occupancy_counterexample :
  JS.parseFloat (JS.trim (JS.substring 54 60 exLine)) = NaN /\
  a_occupancy (PDBParser.atomOfLine exLine) = Num 1.0 /\
  a_occupancy (PDBParser.atomOfLine exLine) <> NaN.
Proof.
  assert (Ho : JS.parseFloat (JS.trim (JS.substring 54 60 exLine)) = NaN)
    by (vm_compute; reflexivity).
  assert (H1 : a_occupancy (PDBParser.atomOfLine exLine) = Num 1.0).
  { unfold PDBParser.atomOfLine. cbn [a_occupancy]. by rewrite Ho. }
  split; [exact Ho | split; [exact H1 | by rewrite H1]].
Qed.

(** ** Residue names *)

(** C7 at the water name: the set of protein residue names holds
    ["HOH"], which [buildResidues] itself takes for water. *)
Lemma isProteinResidue_water :
  PDBParser.isProteinResidue "HOH" = true /\ PDBParser.isWaterName "HOH" = true.
Proof. split; vm_compute; reflexivity. Qed.

(** The names that [isProteinResidue] accepts, whatever their case. *)
Lemma isProteinResidue_spec (resName : string) :
  PDBParser.isProteinResidue resName = true <->
  toUpperCase resName ∈
    [ "ALA"; "ARG"; "ASN"; "ASP"; "CYS"; "GLN"; "GLU"; "GLY"; "HIS"; "ILE";
      "LEU"; "LYS"; "MET"; "PHE"; "PRO"; "SER"; "THR"; "TRP"; "TYR"; "VAL";
      "MSE"; "SEP"; "TPO"; "PTR"; "MLY"; "M3L"; "HOH" ].
Proof.
  unfold PDBParser.isProteinResidue, PDBParser.proteinResidues.
  rewrite bool_decide_eq_true. apply elem_of_list_to_set.
Qed.

(** ** The geometric pass on a straight backbone *)

Section LineProofs.
Import Analyzer.
Local Open Scope R_scope.

Variables p0 d : Vec3.
Hypothesis Hd : vectorLength d = 3.8.

Lemma d_square : vx d * vx d + vy d * vy d + vz d * vz d = 3.8 * 3.8.
Proof.
  unfold vectorLength in Hd.
  assert (0 <= vx d * vx d + vy d * vy d + vz d * vz d) as Hpos by nra.
  rewrite <- (sqrt_sqrt _ Hpos). rewrite Hd. done.
Qed.

Lemma vector3D_line (k1 k2 : R) :
  k2 - k1 = 1 -> vector3D (linePoint p0 d k1) (linePoint p0 d k2) = d.
Proof.
  intros Hk. destruct d as [dx dy dz]. unfold vector3D, linePoint. simpl.
  f_equal; nra.
Qed.

Lemma distance3D_line (k1 k2 : R) :
  k2 - k1 = 1 -> distance3D (linePoint p0 d k1) (linePoint p0 d k2) = 3.8.
Proof.
  intros Hk. rewrite <- Hd. unfold distance3D, vectorLength, linePoint. simpl.
  f_equal. nra.
Qed.

Lemma angle_line : angleBetweenVectors d d * 180 / PI = 0.
Proof.
  unfold angleBetweenVectors. fold (vectorLength d). rewrite Hd.
  rewrite !bool_decide_eq_false_2 by lra. cbn [orb].
  unfold dotProduct. rewrite d_square.
  replace (3.8 * 3.8 / (3.8 * 3.8)) with 1 by (field; lra).
  replace (Rmax (-1) (Rmin 1 1)) with 1.
  - rewrite acos_1. unfold Rdiv. ring.
  - unfold Rmax, Rmin. repeat destruct (Rle_dec _ _); lra.
Qed.

Lemma torsion_line (k1 k2 k3 k4 : R) :
  k2 - k1 = 1 -> k3 - k2 = 1 -> k4 - k3 = 1 ->
  calculateTorsionAngle (linePoint p0 d k1) (linePoint p0 d k2)
                        (linePoint p0 d k3) (linePoint p0 d k4) = 0.
Proof.
  intros H1 H2 H3. unfold calculateTorsionAngle.
  rewrite !vector3D_line by done.
  assert (crossProduct d d = mkVec3 0 0 0) as ->.
  { unfold crossProduct. f_equal; ring. }
  assert (angleBetweenVectors (mkVec3 0 0 0) (mkVec3 0 0 0) = 0) as ->.
  { unfold angleBetweenVectors, vectorLength. simpl.
    replace (0 * 0 + 0 * 0 + 0 * 0) with 0 by ring. rewrite sqrt_0.
    by rewrite bool_decide_eq_true_2. }
  unfold Rdiv. ring.
Qed.
End LineProofs.

Section ScoreProofs.
Import Analyzer.
Local Open Scope R_scope.

Ltac rsolve :=
  cbn [INR List.length];
  first [ lia | lra
        | unfold Rabs, Rmin, Rmax;
          repeat first [ destruct (Rcase_abs _) | destruct (Rle_dec _ _) ]; lra ].

Ltac rdecide :=
  repeat (match goal with
          | |- context [bool_decide ?P] =>
              first [ rewrite (bool_decide_eq_true_2 P) by rsolve
                    | rewrite (bool_decide_eq_false_2 P) by rsolve ]
          end;
          cbn [andb orb]; cbv beta iota zeta).

Ltac rscore :=
  unfold scoreHelicalGeometry, scoreSheetGeometry, calculateConfidence,
    extendedConformation, avgDistanceOf, sum,
    helix_caDistance, helix_distanceTolerance, helix_turnAngle, helix_angleTolerance,
    sheet_maxTurnAngle, sheet_minDistance, geometryWindow;
  cbn [foldl List.length INR]; rdecide.

Lemma helix3 : scoreHelicalGeometry [3.8; 3.8] [0] [] = 2 / 3.
Proof. rscore. rsolve. Qed.

Lemma helix4 : scoreHelicalGeometry [3.8; 3.8; 3.8] [0; 0] [0] = 3 / 5.
Proof. rscore. rsolve. Qed.

Lemma helix5 : scoreHelicalGeometry [3.8; 3.8; 3.8; 3.8] [0; 0; 0] [0; 0] = 5 / 8.
Proof. rscore. rsolve. Qed.

Lemma sheet3 : scoreSheetGeometry [3.8; 3.8] [0] = 1.
Proof. rscore. rsolve. Qed.

Lemma sheet4 : scoreSheetGeometry [3.8; 3.8; 3.8] [0; 0] = 1.
Proof. rscore. rsolve. Qed.

Lemma sheet5 : scoreSheetGeometry [3.8; 3.8; 3.8; 3.8] [0; 0; 0] = 1.
Proof. rscore. rsolve. Qed.

Lemma confidence3 (A B C : Vec3) :
  calculateConfidence [A; B; C] [3.8; 3.8] [0] = 0.6.
Proof. rscore. rsolve. Qed.

Lemma confidence4 (A B C D : Vec3) :
  calculateConfidence [A; B; C; D] [3.8; 3.8; 3.8] [0; 0] = 0.8.
Proof. rscore. rsolve. Qed.

Lemma confidence5 (A B C D E : Vec3) :
  calculateConfidence [A; B; C; D; E] [3.8; 3.8; 3.8; 3.8] [0; 0; 0] = 1.
Proof. rscore. rsolve. Qed.

Lemma extended_38 (n : nat) :
  (1 <= n)%nat -> extendedConformation (replicate n 3.8) = true.
Proof.
  intros Hn. unfold extendedConformation, avgDistanceOf, sheet_minDistance.
  apply bool_decide_eq_true_2.
  assert (forall m acc, foldl Rplus acc (replicate m 3.8) = acc + INR m * 3.8) as Hsum.
  { induction m as [|m IH]; intros acc; [simpl; lra|].
    cbn [replicate foldl]. rewrite IH, S_INR. lra. }
  unfold sum. rewrite Hsum, length_replicate.
  assert (0 < INR n) by (apply lt_0_INR; lia).
  replace ((0 + INR n * 3.8) / INR n) with 3.8 by (field; lra). lra.
Qed.

Lemma assignmentOf_sheet (score : Score) :
  sc_confidence score > 0.5 -> sc_helixScore score < 0.7 -> sc_sheetScore score = 1 ->
  assignmentOf score = "sheet"%string.
Proof.
  intros Hc Hh Hs. unfold assignmentOf. rewrite Hs.
  rewrite (bool_decide_eq_true_2 _ Hc).
  rewrite (bool_decide_eq_false_2 (sc_helixScore score > 1)) by lra.
  cbn [andb].
  rewrite !bool_decide_eq_true_2 by lra. done.
Qed.
End ScoreProofs.

Section WindowProofs.
Import Analyzer.
Local Open Scope R_scope.

Lemma extractCAAtoms_cons (r : Residue) (rs : list Residue) (pos : Vec3) :
  caAt r pos -> extractCAAtoms (r :: rs) = pos :: extractCAAtoms rs.
Proof.
  intros (Hp & ca & Hca & Hpos). unfold extractCAAtoms. cbn [omap list_omap].
  rewrite Hp, Hca. cbn [mbind option_bind]. by rewrite Hpos.
Qed.

Lemma distances3 (A B C : Vec3) :
  calculateDistances [A; B; C] = [distance3D A B; distance3D B C].
Proof. reflexivity. Qed.

Lemma distances4 (A B C D : Vec3) :
  calculateDistances [A; B; C; D] = [distance3D A B; distance3D B C; distance3D C D].
Proof. reflexivity. Qed.

Lemma distances5 (A B C D E : Vec3) :
  calculateDistances [A; B; C; D; E]
  = [distance3D A B; distance3D B C; distance3D C D; distance3D D E].
Proof. reflexivity. Qed.

Lemma angles3 (A B C : Vec3) : calculateAngles [A; B; C] = [turn A B C].
Proof. reflexivity. Qed.

Lemma angles4 (A B C D : Vec3) :
  calculateAngles [A; B; C; D] = [turn A B C; turn B C D].
Proof. reflexivity. Qed.

Lemma angles5 (A B C D E : Vec3) :
  calculateAngles [A; B; C; D; E] = [turn A B C; turn B C D; turn C D E].
Proof. reflexivity. Qed.

Lemma torsions3 (A B C : Vec3) : calculateTorsions [A; B; C] = [].
Proof. reflexivity. Qed.

Lemma torsions4 (A B C D : Vec3) :
  calculateTorsions [A; B; C; D] = [calculateTorsionAngle A B C D].
Proof. reflexivity. Qed.

Lemma torsions5 (A B C D E : Vec3) :
  calculateTorsions [A; B; C; D; E]
  = [calculateTorsionAngle A B C D; calculateTorsionAngle B C D E].
Proof. reflexivity. Qed.

Variables p0 d : Vec3.
Hypothesis Hd : vectorLength d = 3.8.

Lemma turn_line (k1 k2 k3 : R) :
  k2 - k1 = 1 -> k3 - k2 = 1 ->
  turn (linePoint p0 d k1) (linePoint p0 d k2) (linePoint p0 d k3) = 0.
Proof.
  intros H1 H2. unfold turn. rewrite !vector3D_line by done.
  by apply angle_line.
Qed.

Lemma analyze3 (ra rb rc : Residue) (k1 k2 k3 : R) :
  k2 - k1 = 1 -> k3 - k2 = 1 ->
  caAt ra (linePoint p0 d k1) -> caAt rb (linePoint p0 d k2) ->
  caAt rc (linePoint p0 d k3) ->
  exists coil,
    analyzeLocalGeometry [ra; rb; rc] = mkLocalGeometry (2 / 3) 1 coil 0.6 /\
    calculateDistances (extractCAAtoms [ra; rb; rc]) = replicate 2 3.8.
Proof.
  intros H1 H2 Ha Hb Hc. unfold analyzeLocalGeometry.
  rewrite (extractCAAtoms_cons _ _ _ Ha), (extractCAAtoms_cons _ _ _ Hb),
          (extractCAAtoms_cons _ _ _ Hc).
  change (extractCAAtoms []) with (@nil Vec3).
  rewrite bool_decide_eq_false_2 by (simpl; lia).
  rewrite distances3, angles3, torsions3.
  rewrite !(distance3D_line p0 d Hd) by done.
  rewrite !turn_line by done.
  rewrite helix3, sheet3, confidence3. eauto.
Qed.

Lemma analyze4 (ra rb rc rd : Residue) (k1 k2 k3 k4 : R) :
  k2 - k1 = 1 -> k3 - k2 = 1 -> k4 - k3 = 1 ->
  caAt ra (linePoint p0 d k1) -> caAt rb (linePoint p0 d k2) ->
  caAt rc (linePoint p0 d k3) -> caAt rd (linePoint p0 d k4) ->
  exists coil,
    analyzeLocalGeometry [ra; rb; rc; rd] = mkLocalGeometry (3 / 5) 1 coil 0.8 /\
    calculateDistances (extractCAAtoms [ra; rb; rc; rd]) = replicate 3 3.8.
Proof.
  intros H1 H2 H3 Ha Hb Hc Hd'. unfold analyzeLocalGeometry.
  rewrite (extractCAAtoms_cons _ _ _ Ha), (extractCAAtoms_cons _ _ _ Hb),
          (extractCAAtoms_cons _ _ _ Hc), (extractCAAtoms_cons _ _ _ Hd').
  change (extractCAAtoms []) with (@nil Vec3).
  rewrite bool_decide_eq_false_2 by (simpl; lia).
  rewrite distances4, angles4, torsions4.
  rewrite !(distance3D_line p0 d Hd) by done.
  rewrite !turn_line by done.
  rewrite (torsion_line p0 d) by done.
  rewrite helix4, sheet4, confidence4. eauto.
Qed.

Lemma analyze5 (ra rb rc rd re : Residue) (k1 k2 k3 k4 k5 : R) :
  k2 - k1 = 1 -> k3 - k2 = 1 -> k4 - k3 = 1 -> k5 - k4 = 1 ->
  caAt ra (linePoint p0 d k1) -> caAt rb (linePoint p0 d k2) ->
  caAt rc (linePoint p0 d k3) -> caAt rd (linePoint p0 d k4) ->
  caAt re (linePoint p0 d k5) ->
  exists coil,
    analyzeLocalGeometry [ra; rb; rc; rd; re] = mkLocalGeometry (5 / 8) 1 coil 1 /\
    calculateDistances (extractCAAtoms [ra; rb; rc; rd; re]) = replicate 4 3.8.
Proof.
  intros H1 H2 H3 H4 Ha Hb Hc Hd' He. unfold analyzeLocalGeometry.
  rewrite (extractCAAtoms_cons _ _ _ Ha), (extractCAAtoms_cons _ _ _ Hb),
          (extractCAAtoms_cons _ _ _ Hc), (extractCAAtoms_cons _ _ _ Hd'),
          (extractCAAtoms_cons _ _ _ He).
  change (extractCAAtoms []) with (@nil Vec3).
  rewrite bool_decide_eq_false_2 by (simpl; lia).
  rewrite distances5, angles5, torsions5.
  rewrite !(distance3D_line p0 d Hd) by done.
  rewrite !turn_line by done.
  rewrite !(torsion_line p0 d) by done.
  rewrite helix5, sheet5, confidence5. eauto.
Qed.
End WindowProofs.


Section ChainProofs.
Import Analyzer.
Local Open Scope R_scope.

Lemma scores5 (r0 r1 r2 r3 r4 : Residue) :
  calculateGeometryScores [r0; r1; r2; r3; r4]
  = [ scoreAt 0 [r0; r1; r2]; scoreAt 1 [r0; r1; r2; r3];
      scoreAt 2 [r0; r1; r2; r3; r4]; scoreAt 3 [r1; r2; r3; r4];
      scoreAt 4 [r2; r3; r4] ].
Proof. reflexivity. Qed.

Lemma assignments5 (s0 s1 s2 s3 s4 : Score) (residues : list Residue) :
  applyGeometryAssignments [s0; s1; s2; s3; s4] residues
  = [ mkAssignment 0 (assignmentOf s0) s0 (residues !! 0%nat);
      mkAssignment 1 (assignmentOf s1) s1 (residues !! 1%nat);
      mkAssignment 2 (assignmentOf s2) s2 (residues !! 2%nat);
      mkAssignment 3 (assignmentOf s3) s3 (residues !! 3%nat);
      mkAssignment 4 (assignmentOf s4) s4 (residues !! 4%nat) ].
Proof. reflexivity. Qed.

Lemma smooth_sheet5 (s0 s1 s2 s3 s4 : Score) (o0 o1 o2 o3 o4 : option Residue) :
  smoothAssignments
    [ mkAssignment 0 "sheet" s0 o0; mkAssignment 1 "sheet" s1 o1;
      mkAssignment 2 "sheet" s2 o2; mkAssignment 3 "sheet" s3 o3;
      mkAssignment 4 "sheet" s4 o4 ]
  = [ mkAssignment 0 "sheet" s0 o0; mkAssignment 1 "sheet" s1 o1;
      mkAssignment 2 "sheet" s2 o2; mkAssignment 3 "sheet" s3 o3;
      mkAssignment 4 "sheet" s4 o4 ].
Proof. vm_compute. reflexivity. Qed.

End ChainProofs.

Section ColinearChain.
Import Analyzer.
Local Open Scope R_scope.

(** C3. For a chain of five protein residues whose CA atoms lie on a
    straight line, 3.8 apart, the geometric pass labels every residue
    ["sheet"] (none is a helix), the window of every residue passes the
    extended-conformation test of the sheet score, and the labels are
    still ["sheet"] after smoothing and in the residues that
    [analyzeChain] leaves. *)
Theorem colinear_chain_sheet (p0 d : Vec3) (r0 r1 r2 r3 r4 : Residue) :
  Analyzer.vectorLength d = 3.8%R ->
  caAt r0 (linePoint p0 d 0%R) -> caAt r1 (linePoint p0 d 1%R) ->
  caAt r2 (linePoint p0 d 2%R) -> caAt r3 (linePoint p0 d 3%R) ->
  caAt r4 (linePoint p0 d 4%R) ->
  let residues := [r0; r1; r2; r3; r4] in
  let assignments :=
    Analyzer.applyGeometryAssignments (Analyzer.calculateGeometryScores residues) residues in
  labels assignments = replicate 5 "sheet" /\
  ("helix" ∉ labels assignments) /\
  (forall i, (i < 5)%nat ->
     Analyzer.extendedConformation
       (Analyzer.calculateDistances
          (Analyzer.extractCAAtoms (Analyzer.windowOf residues i))) = true) /\
  labels (Analyzer.smoothAssignments assignments) = replicate 5 "sheet" /\
  (r_secondaryStructure <$> Analyzer.analyzeChain residues) = replicate 5 "sheet".
Proof.
  intros Hd H0 H1 H2 H3 H4 residues assignments.
  destruct (analyze3 p0 d Hd r0 r1 r2 0 1 2) as (c0 & E0 & D0); [lra | lra | done..|].
  destruct (analyze4 p0 d Hd r0 r1 r2 r3 0 1 2 3) as (c1 & E1 & D1);
    [lra | lra | lra | done..|].
  destruct (analyze5 p0 d Hd r0 r1 r2 r3 r4 0 1 2 3 4) as (c2 & E2 & D2);
    [lra | lra | lra | lra | done..|].
  destruct (analyze4 p0 d Hd r1 r2 r3 r4 1 2 3 4) as (c3 & E3 & D3);
    [lra | lra | lra | done..|].
  destruct (analyze3 p0 d Hd r2 r3 r4 2 3 4) as (c4 & E4 & D4); [lra | lra | done..|].
  assert (assignments
          = [ mkAssignment 0 "sheet" (mkScore 0 (2 / 3) 1 c0 0.6) (Some r0);
              mkAssignment 1 "sheet" (mkScore 1 (3 / 5) 1 c1 0.8) (Some r1);
              mkAssignment 2 "sheet" (mkScore 2 (5 / 8) 1 c2 1) (Some r2);
              mkAssignment 3 "sheet" (mkScore 3 (3 / 5) 1 c3 0.8) (Some r3);
              mkAssignment 4 "sheet" (mkScore 4 (2 / 3) 1 c4 0.6) (Some r4) ]) as Ha.
  { subst assignments residues. rewrite scores5, assignments5.
    unfold scoreAt. rewrite E0, E1, E2, E3, E4.
    cbn [lg_helix lg_sheet lg_coil lg_confidence].
    rewrite !assignmentOf_sheet by (cbn [sc_confidence sc_helixScore sc_sheetScore]; lra).
    reflexivity. }
  split; [by rewrite Ha | split; [| split; [| split]]].
  - rewrite Ha. cbn. intros Hin.
    repeat (apply elem_of_cons in Hin as [Hin | Hin]; [done|]).
    by apply elem_of_nil in Hin.
  - intros i Hi. subst residues.
    do 5 (destruct i as [|i];
          [first [ change (windowOf [r0; r1; r2; r3; r4] 0) with [r0; r1; r2]; rewrite D0
                 | change (windowOf [r0; r1; r2; r3; r4] 1) with [r0; r1; r2; r3]; rewrite D1
                 | change (windowOf [r0; r1; r2; r3; r4] 2) with [r0; r1; r2; r3; r4]; rewrite D2
                 | change (windowOf [r0; r1; r2; r3; r4] 3) with [r1; r2; r3; r4]; rewrite D3
                 | change (windowOf [r0; r1; r2; r3; r4] 4) with [r2; r3; r4]; rewrite D4 ];
           apply extended_38; lia |]).
    lia.
  - by rewrite Ha, smooth_sheet5.
  - unfold analyzeChain. rewrite bool_decide_eq_false_2 by (simpl; unfold geometryWindow; lia).
    fold residues. fold assignments. rewrite Ha, smooth_sheet5. reflexivity.
Qed.
End ColinearChain.

Lemma exD_length : Analyzer.vectorLength exD = 3.8%R.
Proof.
  unfold Analyzer.vectorLength, exD. cbn [vx vy vz].
  replace (3.8 * 3.8 + 0 * 0 + 0 * 0)%R with (3.8 * 3.8)%R by ring.
  apply sqrt_square. lra.
Qed.

Lemma exCA_caAt (seq : Z) (k : R) : caAt (exCA seq k) (linePoint exP0 exD k).
Proof. split; [done|]. eexists. split; reflexivity. Qed.

Lemma colinear_chain_sheet_witness :
  Analyzer.vectorLength exD = 3.8%R /\
  caAt (exCA 1 0) (linePoint exP0 exD 0) /\
  labels (Analyzer.smoothAssignments
            (Analyzer.applyGeometryAssignments
               (Analyzer.calculateGeometryScores
                  [exCA 1 0; exCA 2 1; exCA 3 2; exCA 4 3; exCA 5 4])
               [exCA 1 0; exCA 2 1; exCA 3 2; exCA 4 3; exCA 5 4]))
  = replicate 5 "sheet".
Proof.
  split; [exact exD_length | split; [exact (exCA_caAt 1 0) |]].
  exact (proj1 (proj2 (proj2 (proj2
    (colinear_chain_sheet exP0 exD (exCA 1 0) (exCA 2 1) (exCA 3 2) (exCA 4 3) (exCA 5 4)
       exD_length (exCA_caAt 1 0) (exCA_caAt 2 1) (exCA_caAt 3 2) (exCA_caAt 4 3)
       (exCA_caAt 5 4)))))).
Defined.

(** ** Frames of the spline *)

Section FrenetProofs.
Import Vector3 BSplineCurve.
Local Open Scope R_scope.

Lemma length_axis (v : Vec3) : vy v = 0 -> vz v = 0 -> length v = Rabs (vx v).
Proof.
  intros Hy Hz. unfold length. rewrite Hy, Hz.
  replace (vx v * vx v + 0 * 0 + 0 * 0) with (Rsqr (vx v)) by (unfold Rsqr; ring).
  apply sqrt_Rsqr_abs.
Qed.

Lemma normalize_axis_pos (v : Vec3) :
  vy v = 0 -> vz v = 0 -> vx v > 0 -> normalize v = mkVec3 1 0 0.
Proof.
  intros Hy Hz Hx. unfold normalize. rewrite (length_axis v Hy Hz).
  rewrite (Rabs_right (vx v)) by lra.
  destruct v as [x y z]; simpl in *; subst.
  case_bool_decide as Hlen.
  - destruct Hlen as [-> | ->]; [lra | done].
  - unfold scale. simpl. f_equal; field; lra.
Qed.

Lemma normalize_axis_neg (v : Vec3) :
  vy v = 0 -> vz v = 0 -> vx v < 0 -> normalize v = mkVec3 (-1) 0 0.
Proof.
  intros Hy Hz Hx. unfold normalize. rewrite (length_axis v Hy Hz).
  rewrite (Rabs_left (vx v)) by lra.
  destruct v as [x y z]; simpl in *; subst.
  case_bool_decide as Hlen.
  - destruct Hlen as [Hl | Hl]; [lra | f_equal; lra].
  - unfold scale. simpl. f_equal; field; lra.
Qed.

Lemma normalize_zero : normalize (mkVec3 0 0 0) = mkVec3 0 0 0.
Proof.
  unfold normalize. rewrite length_axis by done. simpl. rewrite Rabs_R0.
  rewrite bool_decide_eq_true_2; [done | by left].
Qed.

Lemma clampT_id (t : R) : 0 <= t <= 1 -> clampT t = t.
Proof.
  intros Ht. unfold clampT, Rmax, Rmin. repeat destruct (Rle_dec _ _); lra.
Qed.

Lemma getPointAt_exLine4 (t : R) :
  0 <= t < 1 -> getPointAt exLine4 t = Some (mkVec3 (1 + t) 0 0).
Proof.
  intros Ht. unfold getPointAt.
  rewrite bool_decide_eq_false_2 by (simpl; lia).
  rewrite clampT_id by lra.
  assert (spanOf exLine4 t = 0%Z) as ->.
  { unfold spanOf. symmetry. apply Int_part_spec.
    change (IZR (numSpans exLine4)) with 1. simpl. lra. }
  change (IZR (numSpans exLine4)) with 1.
  change (Z.to_nat (startIndexOf exLine4 0)) with 0%nat.
  cbn [exLine4 lookup list_lookup Nat.add mbind option_bind evaluateBSpline].
  unfold add, scale. cbn [vx vy vz].
  f_equal. f_equal; field.
Qed.

Lemma getPointAt_exLine4_end : getPointAt exLine4 1 = Some (mkVec3 1 0 0).
Proof.
  unfold getPointAt.
  rewrite bool_decide_eq_false_2 by (simpl; lia).
  rewrite clampT_id by lra.
  assert (spanOf exLine4 1 = 1%Z) as ->.
  { unfold spanOf. symmetry. apply Int_part_spec.
    change (IZR (numSpans exLine4)) with 1. simpl. lra. }
  change (IZR (numSpans exLine4)) with 1.
  change (Z.to_nat (startIndexOf exLine4 1)) with 0%nat.
  cbn [exLine4 lookup list_lookup Nat.add mbind option_bind evaluateBSpline].
  unfold add, scale. cbn [vx vy vz].
  f_equal. f_equal; field.
Qed.

Ltac rminmax := unfold Rmax, Rmin; repeat destruct (Rle_dec _ _); lra.

Lemma normalize_null (v : Vec3) :
  vx v = 0 -> vy v = 0 -> vz v = 0 -> normalize v = mkVec3 0 0 0.
Proof.
  intros Hx Hy Hz. destruct v as [x y z]; simpl in *; subst. apply normalize_zero.
Qed.

Lemma getTangentAt_exLine4_mid (t : R) :
  0.001 <= t -> t + 0.001 < 1 -> getTangentAt exLine4 t = Some (mkVec3 1 0 0).
Proof.
  intros H1 H2. unfold getTangentAt. cbv zeta.
  rewrite !getPointAt_exLine4 by rminmax.
  cbn [mbind option_bind]. f_equal.
  apply normalize_axis_pos; cbn [subtract vx vy vz]; [lra | lra | rminmax].
Qed.

Lemma getTangentAt_exLine4_end (t : R) :
  0.999 <= t <= 1 -> getTangentAt exLine4 t = Some (mkVec3 (-1) 0 0).
Proof.
  intros Ht. unfold getTangentAt. cbv zeta.
  replace (Rmin 1 (t + 0.001)) with 1 by rminmax.
  rewrite (getPointAt_exLine4 (Rmax 0 (t - 0.001))) by rminmax.
  rewrite getPointAt_exLine4_end.
  cbn [mbind option_bind]. f_equal.
  apply normalize_axis_neg; cbn [subtract vx vy vz]; [lra | lra | rminmax].
Qed.

(** C6 at a straight curve.  The four control points of [exLine4] lie on
    the x axis; at [t = 0.9995] the finite-difference tangent is the
    unit vector [(-1, 0, 0)], yet the tangents at [t - 0.001] and at
    [min(1, t + 0.001)] are opposite, their difference is parallel to the
    tangent, and the frame's normal and binormal are both the zero
    vector. *)
Lemma getFrenetFrameAt_degenerate :
  (4 <= List.length exLine4)%nat /\
  getTangentAt exLine4 0.9995 = Some (mkVec3 (-1) 0 0) /\
  getFrenetFrameAt exLine4 0.9995
  = Some (mkSplineFrame (mkVec3 (1 + 0.9995) 0 0) (mkVec3 (-1) 0 0)
                        (mkVec3 0 0 0) (mkVec3 0 0 0)).
Proof.
  split; [simpl; lia | split; [apply getTangentAt_exLine4_end; lra |]].
  unfold getFrenetFrameAt. cbv zeta.
  rewrite getPointAt_exLine4 by lra.
  rewrite (getTangentAt_exLine4_end 0.9995) by lra.
  rewrite (getTangentAt_exLine4_mid (Rmax 0 (0.9995 - 0.001))) by rminmax.
  rewrite (getTangentAt_exLine4_end (Rmin 1 (0.9995 + 0.001))) by rminmax.
  cbn [mbind option_bind].
  assert (length (subtract (mkVec3 (-1) 0 0) (mkVec3 1 0 0)) = 2) as Hlen.
  { rewrite length_axis by (cbn [subtract vx vy vz]; lra).
    cbn [subtract vx vy vz]. rewrite Rabs_left; lra. }
  rewrite Hlen. rewrite bool_decide_eq_false_2 by lra.
  rewrite (normalize_axis_neg (subtract (mkVec3 (-1) 0 0) (mkVec3 1 0 0)))
    by (cbn [subtract vx vy vz]; lra).
  rewrite (normalize_null (Cross (mkVec3 (-1) 0 0) (mkVec3 (-1) 0 0)))
    by (cbn [Cross vx vy vz]; lra).
  rewrite (normalize_null (Cross (mkVec3 0 0 0) (mkVec3 (-1) 0 0)))
    by (cbn [Cross vx vy vz]; lra).
  reflexivity.
Qed.
End FrenetProofs.

(** * Orthonormality of the computed frames *)

Section CartoonFrameProofs.
Import CartoonMath CartoonFrames.
Local Open Scope R_scope.

Lemma length_sqrt_dot (v : Vec3) : length v = sqrt (dot v v).
Proof. reflexivity. Qed.

Lemma dot_nonneg (v : Vec3) : 0 <= dot v v.
Proof. unfold dot. nra. Qed.

Lemma unit_length (v : Vec3) : unitVec v -> length v = 1.
Proof. intros H. rewrite length_sqrt_dot, H. apply sqrt_1. Qed.

Lemma normalize_unit (v : Vec3) : unitVec (normalize v).
Proof.
  unfold normalize. fold (length v). case_bool_decide as Hl.
  - unfold unitVec, dot. cbn [vx vy vz].
    assert (length v * length v = dot v v) as Hsq.
    { rewrite length_sqrt_dot. apply sqrt_sqrt, dot_nonneg. }
    unfold dot in Hsq. field_simplify_eq; [|lra]. nra.
  - unfold unitVec, dot. cbn [vx vy vz]. ring.
Qed.

Lemma normalize_perp (v w : Vec3) :
  length v > 0 -> dot w v = 0 -> dot w (normalize v) = 0.
Proof.
  intros Hl Hd. unfold normalize. fold (length v).
  rewrite bool_decide_eq_true_2 by done.
  unfold dot in *. cbn [vx vy vz].
  field_simplify_eq; [|lra]. lra.
Qed.

Lemma length_pos (v : Vec3) : 0 < dot v v -> length v > 0.
Proof. intros H. rewrite length_sqrt_dot. by apply sqrt_lt_R0. Qed.

Lemma cross_perp_l (a b : Vec3) : dot a (cross a b) = 0.
Proof. unfold dot, cross. cbn [vx vy vz]. ring. Qed.

Lemma cross_perp_r (a b : Vec3) : dot b (cross a b) = 0.
Proof. unfold dot, cross. cbn [vx vy vz]. ring. Qed.

Lemma cross_square (a b : Vec3) :
  dot (cross a b) (cross a b) = dot a a * dot b b - dot a b * dot a b.
Proof. unfold dot, cross. cbn [vx vy vz]. ring. Qed.


Lemma arbitraryPerpendicular_spec (t : Vec3) :
  unitVec t ->
  dot t (arbitraryPerpendicular t) = 0 /\ length (arbitraryPerpendicular t) > 0.
Proof.
  intros Ht. unfold arbitraryPerpendicular.
  case_bool_decide as Hy; (split; [apply cross_perp_l|]); apply length_pos;
    rewrite cross_square, Ht; unfold dot; cbn [vx vy vz].
  - apply Rabs_def2 in Hy. nra.
  - assert (0.9 <= Rabs (vy t)) as Hy' by lra.
    unfold unitVec, dot in Ht.
    assert (0.81 <= vy t * vy t).
    { unfold Rabs in Hy'. destruct (Rcase_abs (vy t)); nra. }
    nra.
Qed.

Lemma frame_of_normal (T N0 : Vec3) :
  unitVec T -> dot T N0 = 0 -> length N0 > 0 ->
  let N := normalize N0 in
  let B := normalize (cross T N) in
  unitVec N /\ unitVec B /\ dot T N = 0 /\ dot T B = 0 /\ dot N B = 0.
Proof.
  intros HT Hperp Hlen N B.
  assert (unitVec N) as HN by apply normalize_unit.
  assert (dot T N = 0) as HTN by by apply normalize_perp.
  assert (length (cross T N) > 0) as Hc.
  { apply length_pos. rewrite cross_square, HT, HN, HTN. lra. }
  repeat split; [done | apply normalize_unit | done | |].
  - apply normalize_perp; [done | apply cross_perp_l].
  - apply normalize_perp; [done | apply cross_perp_r].
Qed.

(** [CartoonMath.computeFrenetFrame] always returns an orthonormal
    frame. *)
Lemma computeFrenetFrame_orthonormal (points : list Vec3) (index : nat) (f : Frame) :
  computeFrenetFrame points index = Some f ->
  length (tangent f) = 1 /\ length (normal f) = 1 /\ length (binormal f) = 1 /\
  dot (tangent f) (normal f) = 0 /\ dot (tangent f) (binormal f) = 0 /\
  dot (normal f) (binormal f) = 0.
Proof.
  unfold computeFrenetFrame. cbv zeta. intros H.
  match type of H with
  | (?X ≫= _) = _ => destruct X as [v|]; [|done]
  end.
  cbn [mbind option_bind] in H.
  set (T := normalize v) in *.
  assert (unitVec T) as HT by apply normalize_unit.
  match type of H with
  | (?Y ≫= _) = _ => destruct Y as [n0|] eqn:Hn; [|done]
  end.
  cbn [mbind option_bind] in H. injection H as <-. cbn [tangent normal binormal].
  assert (dot T n0 = 0 /\ length n0 > 0) as [Hperp Hlen].
  { destruct (_ || _).
    - injection Hn as <-. by apply arbitraryPerpendicular_spec.
    - destruct (points !! (index - 1)%nat) as [prev|]; [|done].
      destruct (points !! index) as [curr|]; [|done].
      destruct (points !! (index + 1)%nat) as [next|]; [|done].
      cbn [mbind option_bind] in Hn.
      case_bool_decide as Hshort; injection Hn as <-.
      + by apply arbitraryPerpendicular_spec.
      + split; [|lra].
        match goal with
        | |- dot T (subtract ?C (scale T (dot ?C T))) = 0 =>
            replace (dot T (subtract C (scale T (dot C T))))
              with (dot C T * (1 - dot T T))
              by (unfold dot, subtract, scale; cbn [vx vy vz]; ring)
        end.
        rewrite HT. ring. }
  destruct (frame_of_normal T n0 HT Hperp Hlen) as (HN & HB & H1 & H2 & H3).
  repeat split; try done; by apply unit_length.
Qed.
End CartoonFrameProofs.

Section SplineFrameProofs.
Import CartoonMath.
Local Open Scope R_scope.

Lemma vlength_dot (v : Vec3) : Vector3.length v = sqrt (dot v v).
Proof. reflexivity. Qed.

Lemma vlength_unit (v : Vec3) : unitVec v -> Vector3.length v = 1.
Proof. intros H. rewrite vlength_dot, H. apply sqrt_1. Qed.

Lemma vlength_square (v : Vec3) : Vector3.length v * Vector3.length v = dot v v.
Proof. rewrite vlength_dot. apply sqrt_sqrt, dot_nonneg. Qed.

Lemma vnormalize_unit (v : Vec3) :
  Vector3.length (Vector3.normalize v) <> 0 -> unitVec (Vector3.normalize v).
Proof.
  unfold Vector3.normalize. cbv zeta. case_bool_decide as Hl.
  - intros Hnz. destruct Hl as [Hl | Hl]; [done|].
    unfold unitVec. rewrite <- vlength_square, Hl. ring.
  - intros _. assert (Vector3.length v <> 0) as Hnz by (intros E; apply Hl; by left).
    pose proof (vlength_square v) as Hsq.
    unfold unitVec, dot, Vector3.scale in *. cbn [vx vy vz].
    field_simplify_eq; [|done]. nra.
Qed.

Lemma vnormalize_perp (v w : Vec3) :
  dot w v = 0 -> dot w (Vector3.normalize v) = 0.
Proof.
  intros Hd. unfold Vector3.normalize. cbv zeta. case_bool_decide; [done|].
  unfold dot, Vector3.scale in *. cbn [vx vy vz].
  replace (vx w * (vx v * (1 / Vector3.length v)) + vy w * (vy v * (1 / Vector3.length v))
           + vz w * (vz v * (1 / Vector3.length v)))
    with ((vx w * vx v + vy w * vy v + vz w * vz v) * (1 / Vector3.length v)) by ring.
  rewrite Hd. ring.
Qed.

End SplineFrameProofs.

(** ** A helix of ten residues through both generators *)

Section SplineTotal.
Import BSplineCurve.

Lemma getPointAt_is_Some (cps : list Vec3) (t : R) : is_Some (getPointAt cps t).
Proof.
  unfold getPointAt. case_bool_decide as Hlen.
  - case_bool_decide as Hz; [done|].
    destruct cps as [|p rest]; [done|]. by eexists.
  - set (span := spanOf cps (clampT t)).
    destruct (startIndexOf_bounds cps span ltac:(lia)) as [Hlo Hhi].
    set (s := Z.to_nat (startIndexOf cps span)).
    destruct (lookup_lt_is_Some_2 cps s) as [p0 ->]; [lia|].
    destruct (lookup_lt_is_Some_2 cps (s + 1)) as [p1 ->]; [lia|].
    destruct (lookup_lt_is_Some_2 cps (s + 2)) as [p2 ->]; [lia|].
    destruct (lookup_lt_is_Some_2 cps (s + 3)) as [p3 ->]; [lia|].
    by eexists.
Qed.

Lemma getTangentAt_is_Some (cps : list Vec3) (t : R) : is_Some (getTangentAt cps t).
Proof.
  unfold getTangentAt. cbv zeta.
  destruct (getPointAt_is_Some cps (Rmax 0 (t - 0.001))) as [p1 ->].
  destruct (getPointAt_is_Some cps (Rmin 1 (t + 0.001))) as [p2 ->].
  by eexists.
Qed.

Lemma getFrenetFrameAt_is_Some (cps : list Vec3) (t : R) :
  is_Some (getFrenetFrameAt cps t).
Proof.
  unfold getFrenetFrameAt. cbv zeta.
  destruct (getPointAt_is_Some cps t) as [p ->].
  destruct (getTangentAt_is_Some cps t) as [tg ->].
  destruct (getTangentAt_is_Some cps (Rmax 0 (t - 0.001))) as [t1 ->].
  destruct (getTangentAt_is_Some cps (Rmin 1 (t + 0.001))) as [t2 ->].
  by eexists.
Qed.
End SplineTotal.

Section RibbonChunks.
Import Ribbon.

Lemma generateSegments_loop (spline : list Vec3) (residues : list Residue) :
  (forall r, r ∈ residues -> r_secondaryStructure r = "helix"%string) ->
  exists segments,
    forLoopM (List.length residues * 8) 0
      (segmentBody spline residues 8 (List.length residues * 8)) [] = Some segments /\
    (Some <$> (s_residue <$> segments))
      = residueOfSample residues <$> seq 0 (List.length residues * 8) /\
    Forall (fun s => s_profile s = getHelixProfile) segments.
Proof.
  intros Hss.
  set (n := (List.length residues * 8)%nat).
  pose (P := fun (i : nat) (segments : list Segment) =>
               (Some <$> (s_residue <$> segments)) = (residueOfSample residues <$> seq 0 i) /\
               Forall (fun s => s_profile s = getHelixProfile) segments).
  destruct (forLoopM_inv P (segmentBody spline residues 8 n) n 0 []) as (r & Hr & HP).
  - done.
  - intros i segs Hi [Hres Hprof]. unfold segmentBody. cbv zeta.
    destruct (getFrenetFrameAt_is_Some spline (INR i / (INR n - 1))) as [frame ->].
    cbn [mbind option_bind].
    destruct (residues !! _) as [res|] eqn:Hres'; cycle 1.
    { apply lookup_ge_None in Hres'. subst n. lia. }
    cbn [mbind option_bind].
    eexists. split; [reflexivity|]. split.
    + rewrite !fmap_app, Hres, seq_S, fmap_app. cbn [fmap list_fmap Nat.add s_residue].
      unfold residueOfSample at 2. by rewrite <- Hres'.
    + apply Forall_app. split; [done|]. apply Forall_singleton. cbn [s_profile].
      rewrite (Hss res) by (eapply list_elem_of_lookup_2; exact Hres').
      reflexivity.
  - exists r. done.
Qed.

Lemma smoothTransitions_same (segments : list Segment) (label : string) :
  Forall (fun s => r_secondaryStructure (s_residue s) = label) segments ->
  smoothTransitions segments = Some segments.
Proof.
  intros Hall. unfold smoothTransitions.
  destruct (forLoopM_inv (fun _ s => s = segments) smoothBody
              (List.length segments - 2) 1 segments) as (r & Hr & ->); [done | | done].
  intros i s Hi ->. exists segments. split; [|done].
  unfold smoothBody.
  destruct (lookup_lt_is_Some_2 segments (i - 1)) as [prev Hprev]; [lia|].
  destruct (lookup_lt_is_Some_2 segments i) as [cur Hcur]; [lia|].
  destruct (lookup_lt_is_Some_2 segments (i + 1)) as [next Hnext]; [lia|].
  rewrite Hprev, Hcur, Hnext. cbn [mbind option_bind].
  rewrite Forall_lookup in Hall.
  rewrite (Hall _ _ Hprev), (Hall _ _ Hcur), (Hall _ _ Hnext).
  by rewrite !bool_decide_eq_false_2 by (intros H; by apply H).
Qed.

Lemma createSegmentMesh_metadata (group : list Segment) (name : string * nat)
    (first last : Segment) :
  (2 <= List.length group)%nat ->
  group !! 0%nat = Some first -> group !! (List.length group - 1)%nat = Some last ->
  exists mesh, createSegmentMesh group name = Some mesh /\
    rm_metadata mesh
    = mkMetadata (r_chainId (s_residue first)) (r_secondaryStructure (s_residue first))
                 (r_resSeq (s_residue first)) (r_resSeq (s_residue last)).
Proof.
  intros Hlen Hf Hl. unfold createSegmentMesh.
  rewrite bool_decide_eq_false_2 by lia.
  destruct (forLoop _ _ _ ([], [])) as [positions uvs].
  rewrite Hf, Hl. cbn [mbind option_bind]. eexists. split; reflexivity.
Qed.

Lemma ribbonLoop_metadata (segments : list Segment) (chainId : string) fuel :
  forall i meshes,
  rm_metadata <$> ribbonLoop fuel i segments chainId meshes
  = (rm_metadata <$> meshes) ++ chunkMetadata fuel i (s_residue <$> segments).
Proof.
  induction fuel as [|fuel IH]; intros i meshes; cbn [ribbonLoop chunkMetadata].
  - symmetry. apply app_nil_r.
  - rewrite length_fmap. change (Z.of_nat 4) with 4%Z.
    case_bool_decide as Hi; [|symmetry; apply app_nil_r].
    destruct (lookup_lt_is_Some_2 segments i) as [first Hf]; [lia|].
    destruct (lookup_lt_is_Some_2 segments (i + 4)) as [last Hl]; [lia|].
    rewrite !list_lookup_fmap, Hf, Hl. cbn [fmap option_fmap option_map].
    destruct (createSegmentMesh_metadata (take (4 + 1) (drop i segments)) (chainId, i)
                first last) as (mesh & -> & Hmeta).
    + rewrite length_take, length_drop. lia.
    + rewrite lookup_take_lt by lia. rewrite lookup_drop.
      replace (i + 0)%nat with i by lia. exact Hf.
    + rewrite length_take, length_drop.
      rewrite lookup_take_lt by lia. rewrite lookup_drop.
      rewrite <- Hl. f_equal. lia.
    + rewrite IH, fmap_app. cbn [fmap list_fmap]. rewrite Hmeta.
      by rewrite <- app_assoc.
Qed.

Lemma ribbonLoop_positions (segments : list Segment) (chainId : string) (n : nat) fuel :
  Forall (fun s => List.length (s_profile s) = n) segments ->
  forall i meshes,
  Forall (fun m => List.length (rm_positions m) = (3 * (5 * n))%nat) meshes ->
  Forall (fun m => List.length (rm_positions m) = (3 * (5 * n))%nat)
         (ribbonLoop fuel i segments chainId meshes).
Proof.
  intros Hprof. induction fuel as [|fuel IH]; intros i meshes Hm; cbn [ribbonLoop]; [done|].
  case_bool_decide as Hi; [|done].
  destruct (createSegmentMesh_counts (take (4 + 1) (drop i segments)) (chainId, i) n)
    as (mesh & -> & Hpos & _).
  - rewrite length_take, length_drop. lia.
  - intros s Hs. rewrite Forall_forall in Hprof. apply Hprof.
    by apply (subseteq_drop i), (subseteq_take (4 + 1)).
  - apply IH. apply Forall_app. split; [done|]. apply Forall_singleton.
    rewrite Hpos, length_take, length_drop. rewrite Nat.min_l by lia. done.
Qed.
End RibbonChunks.

Section CartoonTotal.
Import CartoonGenerator.
Local Open Scope R_scope.

Lemma Int_part_bounds (x : R) (k : Z) :
  0 <= x <= IZR k -> (0 <= Int_part x <= k)%Z.
Proof.
  intros [Hlo Hhi]. destruct (base_Int_part x) as [H1 H2]. split.
  - assert (-1 < Int_part x)%Z; [|lia]. apply lt_IZR. lra.
  - apply le_IZR. lra.
Qed.

Lemma lookupZ_is_Some {A : Type} (l : list A) (k : Z) :
  (0 <= k < Z.of_nat (List.length l))%Z -> is_Some (lookupZ l k).
Proof.
  intros Hk. unfold lookupZ. rewrite bool_decide_eq_true_2 by lia.
  apply lookup_lt_is_Some_2. lia.
Qed.

Lemma interpolateBody_is_Some (points : list Vec3) (totalSegments i : nat)
    (smoothPoints : list Vec3) :
  (2 <= List.length points)%nat -> (2 <= totalSegments)%nat -> (i < totalSegments)%nat ->
  exists p, interpolateBody points totalSegments i smoothPoints = Some (smoothPoints ++ [p]).
Proof.
  intros Hlen Htot Hi. unfold interpolateBody. cbv zeta.
  set (len := Z.of_nat (List.length points)).
  set (t := INR i / (INR totalSegments - 1)).
  assert (0 <= t <= 1) as Ht.
  { assert (1 <= INR totalSegments - 1).
    { assert (INR 2 <= INR totalSegments) by (apply le_INR; lia). simpl in *. lra. }
    assert (0 <= INR i) by apply pos_INR.
    assert (INR i <= INR totalSegments - 1).
    { assert (INR (S i) <= INR totalSegments) by (apply le_INR; lia).
      rewrite S_INR in *. lra. }
    subst t. split.
    - apply Rmult_le_pos; [lra|]. apply Rlt_le, Rinv_0_lt_compat. lra.
    - apply Rmult_le_reg_r with (INR totalSegments - 1); [lra|].
      unfold Rdiv. rewrite Rmult_assoc, Rinv_l by lra. lra. }
  assert (2 <= IZR len) as Hlen2.
  { subst len. apply (IZR_le 2). lia. }
  assert (0 <= Int_part (t * (IZR len - 1)) <= len - 1)%Z as Hidx.
  { apply Int_part_bounds. rewrite minus_IZR. split; nra. }
  case_bool_decide as H2.
  - destruct (lookup_lt_is_Some_2 points 0) as [a ->]; [lia|].
    destruct (lookup_lt_is_Some_2 points 1) as [b ->]; [lia|].
    cbn [mbind option_bind]. by eexists.
  - destruct (lookupZ_is_Some points (Z.max 0 (Int_part (t * (IZR len - 1)) - 1)))
      as [p0 ->]; [subst len; lia|].
    destruct (lookupZ_is_Some points (Int_part (t * (IZR len - 1))))
      as [p1 ->]; [subst len; lia|].
    destruct (lookupZ_is_Some points
                (Z.min (len - 1) (Int_part (t * (IZR len - 1)) + 1)))
      as [p2 ->]; [subst len; lia|].
    destruct (lookupZ_is_Some points
                (Z.min (len - 1) (Int_part (t * (IZR len - 1)) + 2)))
      as [p3 ->]; [subst len; lia|].
    cbn [mbind option_bind]. by eexists.
Qed.

Lemma interpolateSmooth_length (points : list Vec3) (sampling : nat) :
  (2 <= List.length points)%nat -> (2 <= (List.length points - 1) * sampling)%nat ->
  exists smoothPoints,
    interpolateSmooth points sampling = Some smoothPoints /\
    List.length smoothPoints = ((List.length points - 1) * sampling)%nat.
Proof.
  intros Hlen Htot. unfold interpolateSmooth.
  rewrite bool_decide_eq_false_2 by lia.
  set (total := ((List.length points - 1) * sampling)%nat) in *.
  destruct (forLoopM_inv (fun i (acc : list Vec3) => List.length acc = i)
              (interpolateBody points total) total 0 []) as (r & Hr & HP); [done | |].
  - intros i acc Hi Hacc.
    destruct (interpolateBody_is_Some points total i acc) as [p Hp]; [lia..|].
    exists (acc ++ [p]). split; [done|]. rewrite length_app. simpl. lia.
  - exists r. split; [done | lia].
Qed.

Lemma computeFrenetFrame_is_Some (points : list Vec3) (i : nat) :
  (2 <= List.length points)%nat -> (i < List.length points)%nat ->
  is_Some (CartoonFrames.computeFrenetFrame points i).
Proof.
  intros Hlen Hi. unfold CartoonFrames.computeFrenetFrame. cbv zeta.
  set (n := List.length points) in *.
  destruct (lookup_lt_is_Some_2 points 0) as [p0 H0]; [lia|].
  destruct (lookup_lt_is_Some_2 points 1) as [p1 H1]; [lia|].
  destruct (lookup_lt_is_Some_2 points (n - 1)) as [pa Ha]; [lia|].
  destruct (lookup_lt_is_Some_2 points (n - 2)) as [pb Hb]; [lia|].
  destruct (lookup_lt_is_Some_2 points i) as [pi Hpi]; [lia|].
  case_bool_decide as Hz.
  - rewrite H1, H0. cbn [mbind option_bind orb]. by eexists.
  - case_bool_decide as Hl.
    + rewrite Ha, Hb. cbn [mbind option_bind orb]. by eexists.
    + destruct (lookup_lt_is_Some_2 points (i + 1)) as [pn Hn]; [lia|].
      destruct (lookup_lt_is_Some_2 points (i - 1)) as [pp Hp]; [lia|].
      rewrite Hn, Hp, Hpi. cbn [mbind option_bind orb].
      case_bool_decide; by eexists.
Qed.

Lemma minimizeFrameTwisting_length (frames : list Frame) :
  List.length (Twist.minimizeFrameTwisting frames) = List.length frames.
Proof.
  unfold Twist.minimizeFrameTwisting. case_bool_decide; [done|].
  apply twistLoop_length.
Qed.

Lemma computeFrenetFrames_length (points : list Vec3) :
  (2 <= List.length points)%nat ->
  exists frames, computeFrenetFrames points = Some frames /\
                 List.length frames = List.length points.
Proof.
  intros Hlen. unfold computeFrenetFrames.
  destruct (forLoopM_inv (fun i (acc : list Frame) => List.length acc = i)
              (fun i frames => frame ← CartoonFrames.computeFrenetFrame points i;
                               Some (frames ++ [frame]))
              (List.length points) 0 []) as (r & -> & HP); [done | |].
  - intros i acc Hi Hacc.
    destruct (computeFrenetFrame_is_Some points i) as [f ->]; [lia..|].
    cbn [mbind option_bind]. eexists. split; [done|].
    rewrite length_app. simpl. lia.
  - cbn [mbind option_bind]. eexists. split; [done|].
    rewrite minimizeFrameTwisting_length. lia.
Qed.

Lemma copyPoint_loop (curve : Curve) (e : CartoonExtrude) :
  exists e', forLoopM (List.length (cv_points curve)) 0 (copyPoint curve) e = Some e' /\
             ex_n e' = ex_n e.
Proof.
  destruct (forLoopM_inv (fun _ e' => ex_n e' = ex_n e) (copyPoint curve)
              (List.length (cv_points curve)) 0 e) as (r & Hr & HP); [done | | by exists r].
  intros i e' Hi He'. unfold copyPoint.
  destruct (lookup_lt_is_Some_2 (cv_points curve) i) as [p ->]; [lia|].
  cbn [mbind option_bind]. eexists. split; [done|]. done.
Qed.

Lemma copyFrame_loop (curve : Curve) (e : CartoonExtrude) :
  List.length (cv_frames curve) = List.length (cv_points curve) ->
  exists e', forLoopM (List.length (cv_points curve)) 0 (copyFrame curve) e = Some e' /\
             ex_n e' = ex_n e.
Proof.
  intros Hlen.
  destruct (forLoopM_inv (fun _ e' => ex_n e' = ex_n e) (copyFrame curve)
              (List.length (cv_points curve)) 0 e) as (r & Hr & HP); [done | | by exists r].
  intros i e' Hi He'. unfold copyFrame.
  destruct (lookup_lt_is_Some_2 (cv_frames curve) i) as [p ->]; [lia|].
  cbn [mbind option_bind]. eexists. split; [done|]. done.
Qed.

Lemma setColor_loop (color : list R) (n : nat) (e : CartoonExtrude) :
  ex_n (forLoop n 0 (setColor color) e) = ex_n e.
Proof.
  apply (forLoop_inv (fun _ e' => ex_n e' = ex_n e) _ n 0); [done|].
  intros i e' _ He'. done.
Qed.

Lemma createExtrusion_helix (curve : Curve) (settings : Settings) :
  cv_cartoonType curve = HELIX ->
  List.length (cv_frames curve) = List.length (cv_points curve) ->
  exists e, createExtrusion curve settings
            = Some (CartoonShapes.circle e 12 (helix_radius settings)) /\
            ex_n e = List.length (cv_points curve).
Proof.
  intros Htype Hlen. unfold createExtrusion. cbv zeta.
  destruct (copyPoint_loop curve
              (CartoonExtrudeOps.allocatePointsNormalsColors CartoonExtrudeOps.new
                 (List.length (cv_points curve)))) as (e1 & -> & Hn1).
  cbn [mbind option_bind].
  destruct (copyFrame_loop curve e1 Hlen) as (e2 & -> & Hn2).
  cbn [mbind option_bind]. rewrite Htype.
  eexists. split; [reflexivity|].
  rewrite setColor_loop, Hn2, Hn1. done.
Qed.

Lemma generateMesh_Some (extrude : CartoonExtrude) (cartoonType : CartoonType) :
  (2 <= ex_n extrude)%nat -> (3 <= ex_nShapePoints extrude)%nat ->
  generateMesh extrude cartoonType
  = Some (mkCartoonMesh cartoonType (CartoonGeometry.generateGeometry extrude)).
Proof.
  intros Hn Hs. unfold generateMesh. cbv zeta.
  rewrite bool_decide_eq_false_2; [done|].
  destruct (generateGeometry_counts extrude Hn Hs) as [Hv _].
  unfold CartoonGeometry.vertexCount in Hv.
  intros Hz. rewrite Hz in Hv. simpl in Hv. nia.
Qed.
End CartoonTotal.

Section HelixChain.
Import CartoonGenerator.
Local Open Scope R_scope.

(** The ten residues of a well-formed input, spelled out. *)
Lemma helixChainInput_inv (raw : list Residue) :
  helixChainInput raw ->
  exists i1 n1 a1 s1 c1 u1 w1 ca1 i2 n2 a2 s2 c2 u2 w2 ca2
         i3 n3 a3 s3 c3 u3 w3 ca3 i4 n4 a4 s4 c4 u4 w4 ca4
         i5 n5 a5 s5 c5 u5 w5 ca5 i6 n6 a6 s6 c6 u6 w6 ca6
         i7 n7 a7 s7 c7 u7 w7 ca7 i8 n8 a8 s8 c8 u8 w8 ca8
         i9 n9 a9 s9 c9 u9 w9 ca9 i10 n10 a10 s10 c10 u10 w10 ca10,
    raw = [ mkResidue "A" 1 i1 n1 a1 s1 c1 true u1 w1 (Some ca1);
            mkResidue "A" 2 i2 n2 a2 s2 c2 true u2 w2 (Some ca2);
            mkResidue "A" 3 i3 n3 a3 s3 c3 true u3 w3 (Some ca3);
            mkResidue "A" 4 i4 n4 a4 s4 c4 true u4 w4 (Some ca4);
            mkResidue "A" 5 i5 n5 a5 s5 c5 true u5 w5 (Some ca5);
            mkResidue "A" 6 i6 n6 a6 s6 c6 true u6 w6 (Some ca6);
            mkResidue "A" 7 i7 n7 a7 s7 c7 true u7 w7 (Some ca7);
            mkResidue "A" 8 i8 n8 a8 s8 c8 true u8 w8 (Some ca8);
            mkResidue "A" 9 i9 n9 a9 s9 c9 true u9 w9 (Some ca9);
            mkResidue "A" 10 i10 n10 a10 s10 c10 true u10 w10 (Some ca10) ].
Proof.
  intros [Hlen Hres].
  do 10 (destruct raw as [|[? ? ? ? ? ? ? ? ? ? ?] raw]; [simpl in Hlen; lia|]).
  destruct raw; [|simpl in Hlen; lia].
  pose proof (Hres 0%nat _ eq_refl) as (E1 & E2 & E3 & [? E4]).
  pose proof (Hres 1%nat _ eq_refl) as (F1 & F2 & F3 & [? F4]).
  pose proof (Hres 2%nat _ eq_refl) as (G1 & G2 & G3 & [? G4]).
  pose proof (Hres 3%nat _ eq_refl) as (H1 & H2 & H3 & [? H4]).
  pose proof (Hres 4%nat _ eq_refl) as (I1 & I2 & I3 & [? I4]).
  pose proof (Hres 5%nat _ eq_refl) as (J1 & J2 & J3 & [? J4]).
  pose proof (Hres 6%nat _ eq_refl) as (K1 & K2 & K3 & [? K4]).
  pose proof (Hres 7%nat _ eq_refl) as (L1 & L2 & L3 & [? L4]).
  pose proof (Hres 8%nat _ eq_refl) as (M1 & M2 & M3 & [? M4]).
  pose proof (Hres 9%nat _ eq_refl) as (N1 & N2 & N3 & [? N4]).
  simpl in *. subst. repeat eexists.
Qed.

Lemma helix_cartoon (raw : list Residue) :
  helixChainInput raw ->
  Forall (fun r => r_secondaryStructure r = "helix"%string) (helixResidues raw) /\
  (exists group,
     detectSecondaryStructure (extractBackboneCoordinates (helixChain raw)) = Some [group] /\
     gr_cartoonType group = HELIX /\
     (fun p => r_resSeq (bp_residue p)) <$> gr_points group
     = [1; 2; 3; 4; 5; 6; 7; 8; 9; 10]%Z) /\
  (exists extrude,
     generateCartoon [helixChain raw] "A" defaultSettings
     = Some [mkCartoonMesh HELIX
               (CartoonGeometry.generateGeometry (CartoonShapes.circle extrude 12 1.8))] /\
     ex_n extrude = 180%nat).
Proof.
  intros Hraw. apply helixChainInput_inv in Hraw.
  repeat match goal with H : exists _, _ |- _ => destruct H as [? H] end.
  subst raw.
  split; [|split].
  - vm_compute. repeat (constructor; [reflexivity|]). constructor.
  - eexists. split; [vm_compute; reflexivity|]. split; reflexivity.
  - unfold generateCartoon.
    assert (findChain [helixChain _] "A" = Some (helixChain _)) as -> by reflexivity.
    rewrite bool_decide_eq_false_2 by (vm_compute; lia).
    rewrite bool_decide_eq_false_2 by (vm_compute; lia).
    match goal with
    | |- context [detectSecondaryStructure ?pts] =>
        let H := fresh in
        assert (exists g, detectSecondaryStructure pts = Some [g] /\
                          gr_cartoonType g = HELIX /\
                          List.length (gr_points g) = 10%nat) as (g & -> & Hty & Hlen)
          by (eexists; split; [vm_compute; reflexivity | split; reflexivity])
    end.
    cbn [mbind option_bind].
    unfold generateSmoothCurves. cbn [foldl mbind option_bind]. unfold curveBody.
    rewrite bool_decide_eq_false_2 by lia.
    destruct (interpolateSmooth_length (bp_pos <$> gr_points g) (sampling defaultSettings))
      as (sp & -> & Hsp); [rewrite length_fmap; lia | rewrite length_fmap, Hlen; simpl; lia |].
    rewrite length_fmap, Hlen in Hsp. cbn in Hsp.
    cbn [mbind option_bind].
    destruct (computeFrenetFrames_length sp) as (frames & -> & Hfr); [lia|].
    cbn [mbind option_bind app foldl]. unfold meshBody.
    destruct (createExtrusion_helix
                (mkCurve (gr_cartoonType g) sp frames (generateColors (gr_segments g))
                         (gr_segments g)) defaultSettings) as (e & -> & He); [done | done |].
    cbn [mbind option_bind cv_cartoonType cv_points] in *.
    destruct (circle_fields e 12 (helix_radius defaultSettings)) as [En Es].
    rewrite generateMesh_Some by lia.
    rewrite Hty. exists e. split; [reflexivity | lia].
Qed.

Lemma getHelixProfile_length : List.length Ribbon.getHelixProfile = 12%nat.
Proof. reflexivity. Qed.

Lemma helix_ribbon (raw : list Residue) :
  helixChainInput raw ->
  exists meshes,
    Ribbon.generateRibbon [helixChain raw] "A" = Some meshes /\
    List.length meshes = 19%nat /\
    rm_metadata <$> meshes = helixChunkMetadata /\
    Forall (fun m => List.length (rm_positions m) = (3 * (5 * 12))%nat) meshes.
Proof.
  intros Hraw.
  destruct (helix_cartoon raw Hraw) as (Hhelix & _ & _).
  apply helixChainInput_inv in Hraw.
  repeat match goal with H : exists _, _ |- _ => destruct H as [? H] end.
  subst raw.
  unfold Ribbon.generateRibbon.
  assert (findChain [helixChain _] "A" = Some (helixChain _)) as -> by reflexivity.
  rewrite bool_decide_eq_false_2 by (intros H; by apply H).
  rewrite bool_decide_eq_false_2 by (vm_compute; lia).
  cbn [c_residues helixChain].
  set (residues := helixResidues _) in *.
  set (spline := Ribbon.createProteinBackbone _).
  assert (List.length residues = 10%nat) as Hlen by reflexivity.
  unfold Ribbon.generateSegments. cbv zeta.
  destruct (generateSegments_loop spline residues) as (segs & -> & Hres & Hprof).
  { intros r Hr. rewrite Forall_forall in Hhelix. by apply Hhelix. }
  cbn [mbind option_bind].
  assert (s_residue <$> segs
          = (fun j => default (mkResidue "" 0 "" "" [] "" None false false false None)
                              (Ribbon.residueOfSample residues j)) <$> seq 0 80) as Hsegs.
  { apply (inj (fmap Some)). rewrite Hres, Hlen.
    rewrite <- list_fmap_compose. apply list_fmap_ext. intros i j Hj.
    apply lookup_seq in Hj as [-> Hj]. unfold compose.
    destruct (Ribbon.residueOfSample residues (0 + i)) eqn:E; [done|].
    unfold Ribbon.residueOfSample in E. apply lookup_ge_None in E.
    assert (i / 8 < 10)%nat by (apply Nat.Div0.div_lt_upper_bound; lia). lia. }
  rewrite (smoothTransitions_same segs "helix"); cycle 1.
  { apply Forall_fmap with (f := s_residue)
      (P := fun r => r_secondaryStructure r = "helix"%string).
    rewrite Hsegs. vm_compute. repeat (constructor; [reflexivity|]). constructor. }
  cbn [mbind option_bind].
  eexists. split; [reflexivity|].
  assert (rm_metadata <$> Ribbon.createRibbonMeshes segs "A" = helixChunkMetadata) as Hmeta.
  { unfold Ribbon.createRibbonMeshes. rewrite ribbonLoop_metadata. cbn [fmap list_fmap app].
    assert (List.length segs = 80%nat) as ->.
    { rewrite <- (length_fmap s_residue), Hsegs, length_fmap, length_seq. done. }
    rewrite Hsegs. vm_compute. reflexivity. }
  split; [|split; [exact Hmeta|]].
  - rewrite <- (length_fmap rm_metadata), Hmeta. reflexivity.
  - apply ribbonLoop_positions; [|constructor].
    eapply Forall_impl; [exact Hprof|].
    intros s ->. apply getHelixProfile_length.
Qed.
End HelixChain.

(** C4, as the code has it.  For ten CA-bearing residues of chain A that
    a HELIX record for residues 1 to 10 has labelled ["helix"]:
    the cartoon generator makes one group of type HELIX over the backbone
    points of residues 1 to 10 and returns exactly one mesh, extruded
    with the 12-sided circle over 180 samples (its meshes carry no
    metadata); the ribbon generator cuts its 80 samples into 19 chunks of
    five samples, each with the 12-vertex circular helix profile and a
    residue range of one or two residues, from [1,1] to [10,10]. *)
Theorem helix_chain_chunks (raw : list Residue) :
  helixChainInput raw ->
  Forall (fun r => r_secondaryStructure r = "helix") (helixResidues raw) /\
  (exists group,
     CartoonGenerator.detectSecondaryStructure
       (CartoonGenerator.extractBackboneCoordinates (helixChain raw)) = Some [group] /\
     gr_cartoonType group = HELIX /\
     (fun p => r_resSeq (bp_residue p)) <$> gr_points group
     = [1; 2; 3; 4; 5; 6; 7; 8; 9; 10]%Z) /\
  (exists extrude,
     CartoonGenerator.generateCartoon [helixChain raw] "A" CartoonGenerator.defaultSettings
     = Some [mkCartoonMesh HELIX
               (CartoonGeometry.generateGeometry
                  (CartoonShapes.circle extrude 12 1.8%R))] /\
     ex_n extrude = 180%nat) /\
  (exists meshes,
     Ribbon.generateRibbon [helixChain raw] "A" = Some meshes /\
     List.length meshes = 19%nat /\
     rm_metadata <$> meshes = helixChunkMetadata /\
     Forall (fun m => List.length (rm_positions m) = (3 * (5 * 12))%nat) meshes).
Proof.
  intros Hraw.
  destruct (helix_cartoon raw Hraw) as (H1 & H2 & H3).
  pose proof (helix_ribbon raw Hraw) as H4.
  done.
Qed.

Lemma exHelixRaw_input : helixChainInput exHelixRaw.
Proof.
  split; [reflexivity|].
  intros k r Hk.
  do 10 (destruct k as [|k];
         [injection Hk as <-; repeat split; by eexists|]).
  done.
Qed.

Lemma helix_chain_chunks_witness :
  helixChainInput exHelixRaw /\
  (exists meshes,
     Ribbon.generateRibbon [helixChain exHelixRaw] "A" = Some meshes /\
     List.length meshes = 19%nat /\
     rm_metadata <$> meshes = helixChunkMetadata /\
     Forall (fun m => List.length (rm_positions m) = (3 * (5 * 12))%nat) meshes).
Proof.
  split; [exact exHelixRaw_input|].
  exact (proj2 (proj2 (proj2 (helix_chain_chunks exHelixRaw exHelixRaw_input)))).
Defined.

(** C4, as it is stated, fails on the ribbon generator, the one whose
    meshes carry a residue range: for the ten-residue helix [exHelixRaw]
    it emits 19 chunks, not one, and the first chunk's range is [1,1],
    not [1,10]. *)
Lemma helix_chain_chunks_counterexample :
  helixChainInput exHelixRaw /\
  exists meshes,
    Ribbon.generateRibbon [helixChain exHelixRaw] "A" = Some meshes /\
    List.length meshes = 19%nat /\ 19%nat <> 1%nat /\
    rm_metadata <$> meshes !! 0%nat = Some (mkMetadata "A" "helix" 1 1) /\
    mkMetadata "A" "helix" 1 1 <> mkMetadata "A" "helix" 1 10.
Proof.
  split; [exact exHelixRaw_input|].
  destruct (helix_ribbon exHelixRaw exHelixRaw_input) as (meshes & Hm & Hlen & Hmeta & _).
  exists meshes. split; [exact Hm | split; [exact Hlen | split; [lia | split]]].
  - rewrite <- list_lookup_fmap, Hmeta. reflexivity.
  - intros H. discriminate H.
Qed.

(** * Further properties of the code *)

(** ** Frames of the two generators *)

Section FrameExtras.
Import CartoonMath.
Local Open Scope R_scope.

(** X1.  [CartoonMath.computeFrenetFrame(points, index)], for at least two
    points and an index in range, raises nothing and returns an
    orthonormal frame: tangent, normal and binormal have length one and
    are perpendicular to each other (over the real numbers). *)
Theorem computeFrenetFrame_frame (points : list Vec3) (index : nat) :
  (2 <= List.length points)%nat -> (index < List.length points)%nat ->
  exists f, CartoonFrames.computeFrenetFrame points index = Some f /\
    length (tangent f) = 1 /\ length (normal f) = 1 /\ length (binormal f) = 1 /\
    dot (tangent f) (normal f) = 0 /\ dot (tangent f) (binormal f) = 0 /\
    dot (normal f) (binormal f) = 0.
Proof.
  intros Hlen Hi.
  destruct (computeFrenetFrame_is_Some points index Hlen Hi) as [f Hf].
  exists f. split; [done|]. by apply (computeFrenetFrame_orthonormal points index).
Qed.

Lemma computeFrenetFrame_frame_witness :
  (2 <= List.length [mkVec3 0 0 0; mkVec3 1 0 0])%nat /\
  (0 < List.length [mkVec3 0 0 0; mkVec3 1 0 0])%nat /\
  exists f, CartoonFrames.computeFrenetFrame [mkVec3 0 0 0; mkVec3 1 0 0] 0 = Some f /\
    length (tangent f) = 1 /\ length (normal f) = 1 /\ length (binormal f) = 1 /\
    dot (tangent f) (normal f) = 0 /\ dot (tangent f) (binormal f) = 0 /\
    dot (normal f) (binormal f) = 0.
Proof.
  split; [simpl; lia | split; [simpl; lia |]].
  exact (computeFrenetFrame_frame [mkVec3 0 0 0; mkVec3 1 0 0] 0
           ltac:(simpl; lia) ltac:(simpl; lia)).
Defined.


(** A vector that is not null is normalised to a unit vector. *)
Lemma vnormalize_unit_of_nonzero (v : Vec3) :
  Vector3.length v <> 0 -> unitVec (Vector3.normalize v).
Proof.
  intros Hnz. apply vnormalize_unit.
  unfold Vector3.normalize. cbv zeta. case_bool_decide as Hl.
  - done.
  - rewrite vlength_dot.
    assert (unitVec (Vector3.scale v (1 / Vector3.length v))) as Hu.
    { pose proof (vlength_square v) as Hsq.
      unfold unitVec, dot, Vector3.scale in *. cbn [vx vy vz].
      field_simplify_eq; [|done]. nra. }
    rewrite Hu, sqrt_1. lra.
Qed.

Lemma vlength_nonzero (v : Vec3) : 0 < dot v v -> Vector3.length v <> 0.
Proof.
  intros H. rewrite vlength_dot. pose proof (sqrt_lt_R0 _ H). lra.
Qed.

Lemma vlength_zero_components (v : Vec3) :
  Vector3.length v <> 0 -> vx v <> 0 \/ vy v <> 0 \/ vz v <> 0.
Proof.
  intros Hnz.
  destruct (Req_dec (vx v) 0) as [Hx|]; [|by left].
  destruct (Req_dec (vy v) 0) as [Hy|]; [|by right; left].
  destruct (Req_dec (vz v) 0) as [Hz|]; [|by right; right].
  exfalso. apply Hnz. unfold Vector3.length. rewrite Hx, Hy, Hz.
  replace (0 * 0 + 0 * 0 + 0 * 0) with 0 by ring. apply sqrt_0.
Qed.

(** X3.  [getPerpendicularVector(v)], for a vector that is not null,
    returns a unit vector perpendicular to [v]. *)
Theorem getPerpendicularVector_unit_perp (v : Vec3) :
  Vector3.length v <> 0 ->
  Vector3.length (BSplineCurve.getPerpendicularVector v) = 1 /\
  Vector3.Dot v (BSplineCurve.getPerpendicularVector v) = 0.
Proof.
  intros Hnz. pose proof (vlength_zero_components v Hnz) as Hc.
  unfold BSplineCurve.getPerpendicularVector. cbv zeta.
  assert (forall axis, 0 < dot (Vector3.Cross v axis) (Vector3.Cross v axis) ->
            Vector3.length (Vector3.normalize (Vector3.Cross v axis)) = 1 /\
            Vector3.Dot v (Vector3.normalize (Vector3.Cross v axis)) = 0) as Hgo.
  { intros axis Hpos. split.
    - apply vlength_unit, vnormalize_unit_of_nonzero, vlength_nonzero, Hpos.
    - apply vnormalize_perp, cross_perp_l. }
  destruct (bool_decide (Rabs (vx v) <= Rabs (vy v))) eqn:Hxy;
    [destruct (bool_decide (Rabs (vx v) <= Rabs (vz v))) eqn:Hxz|];
    cbn [andb].
  - apply bool_decide_eq_true_1 in Hxy, Hxz. apply Hgo.
    unfold dot, Vector3.Cross, Vector3.Right. cbn [vx vy vz].
    revert Hxy Hxz. unfold Rabs. repeat destruct (Rcase_abs _); intros; nra.
  - apply bool_decide_eq_true_1 in Hxy. apply bool_decide_eq_false_1 in Hxz.
    case_bool_decide as Hyz.
    + apply Hgo. unfold dot, Vector3.Cross, Vector3.Up. cbn [vx vy vz].
      revert Hxy Hxz Hyz. unfold Rabs. repeat destruct (Rcase_abs _); intros; nra.
    + apply Hgo. unfold dot, Vector3.Cross, Vector3.Forward. cbn [vx vy vz].
      revert Hxy Hxz Hyz. unfold Rabs. repeat destruct (Rcase_abs _); intros; nra.
  - apply bool_decide_eq_false_1 in Hxy.
    case_bool_decide as Hyz.
    + apply Hgo. unfold dot, Vector3.Cross, Vector3.Up. cbn [vx vy vz].
      revert Hxy Hyz. unfold Rabs. repeat destruct (Rcase_abs _); intros; nra.
    + apply Hgo. unfold dot, Vector3.Cross, Vector3.Forward. cbn [vx vy vz].
      revert Hxy Hyz. unfold Rabs. repeat destruct (Rcase_abs _); intros; nra.
Qed.

Lemma getPerpendicularVector_unit_perp_witness :
  Vector3.length (mkVec3 1 0 0) <> 0 /\
  Vector3.length (BSplineCurve.getPerpendicularVector (mkVec3 1 0 0)) = 1 /\
  Vector3.Dot (mkVec3 1 0 0) (BSplineCurve.getPerpendicularVector (mkVec3 1 0 0)) = 0.
Proof.
  assert (Vector3.length (mkVec3 1 0 0) <> 0) as Hnz.
  { apply vlength_nonzero. unfold dot. cbn [vx vy vz]. lra. }
  split; [exact Hnz|].
  exact (getPerpendicularVector_unit_perp (mkVec3 1 0 0) Hnz).
Defined.
End FrameExtras.

(** ** Points of a B-spline curve *)

Section CurveExtras.
Import Vector3 BSplineCurve.
Local Open Scope R_scope.





(** X5.  The end of the parameter range.  At [t = 1] the span index is
    [numSpans], one past the last span; the start index is clamped but
    the local parameter is 0, so [getPointAt(1)] is the start of the
    last span, [(a + 4 b + c) / 6] for the last four control points
    [a, b, c, d]: it does not depend on the last control point. *)
Theorem getPointAt_one (pre : list Vec3) (a b c d : Vec3) :
  getPointAt (pre ++ [a; b; c; d]) 1
  = Some (mkVec3 ((vx a + 4 * vx b + vx c) / 6)
                 ((vy a + 4 * vy b + vy c) / 6)
                 ((vz a + 4 * vz b + vz c) / 6)).
Proof.
  unfold getPointAt.
  rewrite bool_decide_eq_false_2 by (rewrite length_app; simpl; lia).
  cbv zeta.
  assert (clampT 1 = 1) as -> by (unfold clampT, Rmax, Rmin; repeat destruct (Rle_dec _ _); lra).
  assert (numSpans (pre ++ [a; b; c; d]) = Z.of_nat (List.length pre) + 1)%Z as Hn.
  { unfold numSpans, degree. rewrite length_app. simpl. lia. }
  assert (spanOf (pre ++ [a; b; c; d]) 1 = Z.of_nat (List.length pre) + 1)%Z as Hs.
  { unfold spanOf. rewrite Hn, Rmult_1_l. symmetry. apply Int_part_spec. lra. }
  rewrite Hs, Hn.
  assert (Z.to_nat (startIndexOf (pre ++ [a; b; c; d]) (Z.of_nat (List.length pre) + 1))
          = List.length pre) as ->.
  { unfold startIndexOf. rewrite length_app. simpl. lia. }
  rewrite !lookup_app_r by lia.
  replace (List.length pre - List.length pre)%nat with 0%nat by lia.
  replace (List.length pre + 1 - List.length pre)%nat with 1%nat by lia.
  replace (List.length pre + 2 - List.length pre)%nat with 2%nat by lia.
  replace (List.length pre + 3 - List.length pre)%nat with 3%nat by lia.
  cbn [lookup list_lookup mbind option_bind evaluateBSpline].
  unfold add, scale. cbn [vx vy vz]. f_equal. f_equal; field.
Qed.

(** X6.  Where a smooth curve starts.  [createSmoothCurve(points, tension)]
    puts a phantom control point before the first point and one after
    the last, and the curve through the new control points starts at
    [first + (1 - tension) / 6 * (second - first)]: at the first point
    only for the tension 1. *)
Theorem createSmoothCurve_start (first second : Vec3) (rest : list Vec3) (tension : R) :
  List.length (createSmoothCurve (first :: second :: rest) tension)
  = (List.length (first :: second :: rest) + 2)%nat /\
  getPointAt (createSmoothCurve (first :: second :: rest) tension) 0
  = Some (mkVec3 (vx first + (1 - tension) / 6 * (vx second - vx first))
                 (vy first + (1 - tension) / 6 * (vy second - vy first))
                 (vz first + (1 - tension) / 6 * (vz second - vz first))).
Proof.
  unfold createSmoothCurve.
  rewrite bool_decide_eq_false_2 by (simpl; lia).
  set (points := first :: second :: rest).
  destruct (lookup_lt_is_Some_2 points (List.length points - 2)) as [sl Hsl];
    [subst points; simpl; lia|].
  destruct (lookup_lt_is_Some_2 points (List.length points - 1)) as [l Hl];
    [subst points; simpl; lia|].
  rewrite Hsl, Hl. change (points !! 0%nat) with (Some first).
  change (points !! 1%nat) with (Some second). cbv iota beta.
  split; [cbn [List.length]; rewrite length_app; simpl; lia|].
  set (ph := add first (scale (subtract first second) tension)).
  set (cps := ph :: points ++ [add l (scale (subtract l sl) tension)]).
  assert (4 <= List.length cps)%nat as Hlen.
  { subst cps points. cbn [List.length]. rewrite length_app. simpl. lia. }
  unfold getPointAt. rewrite bool_decide_eq_false_2 by lia. cbv zeta.
  assert (clampT 0 = 0) as -> by (unfold clampT, Rmax, Rmin; repeat destruct (Rle_dec _ _); lra).
  assert (spanOf cps 0 = 0%Z) as Hs.
  { unfold spanOf. rewrite Rmult_0_l. symmetry. apply Int_part_spec. lra. }
  rewrite Hs.
  assert (Z.to_nat (startIndexOf cps 0) = 0%nat) as -> by (unfold startIndexOf; lia).
  destruct (lookup_lt_is_Some_2 cps (0 + 3)) as [p3 H3]; [change (0 + 3)%nat with 3%nat; lia|].
  rewrite H3.
  change (cps !! 0%nat) with (Some ph).
  change (cps !! (0 + 1)%nat) with (Some first).
  change (cps !! (0 + 2)%nat) with (Some second).
  cbn [mbind option_bind evaluateBSpline].
  subst ph. unfold add, scale, subtract. cbn [vx vy vz]. f_equal. f_equal; field.
Qed.
End CurveExtras.

(** ** The smooth curve of the cartoon generator *)

Section InterpolateExtras.
Import CartoonGenerator.
Local Open Scope R_scope.

Lemma catmullRom_zero (p0 p1 p2 p3 : Vec3) :
  CartoonInterpolation.catmullRom p0 p1 p2 p3 0 = p1.
Proof.
  destruct p1 as [x y z]. unfold CartoonInterpolation.catmullRom. cbn [vx vy vz].
  f_equal; lra.
Qed.

Lemma linearInterpolate_zero (p1 p2 : Vec3) :
  CartoonInterpolation.linearInterpolate p1 p2 0 = p1.
Proof.
  destruct p1 as [x y z]. unfold CartoonInterpolation.linearInterpolate. cbn [vx vy vz].
  f_equal; ring.
Qed.

Lemma Int_part_IZR_id (k : Z) : Int_part (IZR k) = k.
Proof. symmetry. apply Int_part_spec. lra. Qed.

(** The sample parameter of the last iteration is 1. *)
Lemma last_sample_parameter (total : nat) :
  (2 <= total)%nat -> INR (total - 1) / (INR total - 1) = 1.
Proof.
  intros H. rewrite minus_INR by lia. simpl.
  assert (INR 2 <= INR total) by (apply le_INR; lia). simpl in *.
  field. lra.
Qed.

Lemma interpolateBody_first (points : list Vec3) (total : nat) (acc : list Vec3)
    (a : Vec3) :
  (2 <= List.length points)%nat -> points !! 0%nat = Some a ->
  interpolateBody points total 0 acc = Some (acc ++ [a]).
Proof.
  intros Hlen Ha. unfold interpolateBody. cbv zeta.
  replace (INR 0 / (INR total - 1) * (IZR (Z.of_nat (List.length points)) - 1))
    with (IZR 0) by (simpl; unfold Rdiv; ring).
  rewrite Int_part_IZR_id.
  replace (IZR 0 - IZR 0) with 0 by ring.
  destruct (lookup_lt_is_Some_2 points 1) as [b Hb]; [lia|].
  case_bool_decide as H2.
  - rewrite Ha, Hb. cbn [mbind option_bind]. by rewrite linearInterpolate_zero.
  - unfold lookupZ.
    rewrite !bool_decide_eq_true_2 by lia.
    replace (Z.to_nat (Z.max 0 (0 - 1))) with 0%nat by lia.
    change (Z.to_nat 0) with 0%nat.
    destruct (lookup_lt_is_Some_2 points
                (Z.to_nat (Z.min (Z.of_nat (List.length points) - 1) (0 + 1))))
      as [p2 ->]; [lia|].
    destruct (lookup_lt_is_Some_2 points
                (Z.to_nat (Z.min (Z.of_nat (List.length points) - 1) (0 + 2))))
      as [p3 ->]; [lia|].
    rewrite Ha. cbn [mbind option_bind]. by rewrite catmullRom_zero.
Qed.

Lemma interpolateBody_last (points : list Vec3) (total : nat) (acc : list Vec3) :
  (2 <= List.length points)%nat -> (2 <= total)%nat ->
  interpolateBody points total (total - 1) acc
  = p ← (if bool_decide (List.length points = 2)%nat
         then points !! 0%nat
         else points !! (List.length points - 1)%nat);
    Some (acc ++ [p]).
Proof.
  intros Hlen Htot. unfold interpolateBody. cbv zeta.
  rewrite last_sample_parameter by done. rewrite Rmult_1_l.
  replace (IZR (Z.of_nat (List.length points)) - 1)
    with (IZR (Z.of_nat (List.length points) - 1)) by (rewrite minus_IZR; ring).
  rewrite Int_part_IZR_id.
  replace (IZR (Z.of_nat (List.length points) - 1) - IZR (Z.of_nat (List.length points) - 1))
    with 0 by ring.
  destruct (lookup_lt_is_Some_2 points 0) as [a Ha]; [lia|].
  destruct (lookup_lt_is_Some_2 points 1) as [b Hb]; [lia|].
  destruct (lookup_lt_is_Some_2 points (List.length points - 1)) as [l Hl]; [lia|].
  destruct (lookup_lt_is_Some_2 points (List.length points - 2)) as [sl Hsl]; [lia|].
  case_bool_decide as H2.
  - rewrite Ha, Hb. cbn [mbind option_bind]. by rewrite linearInterpolate_zero.
  - unfold lookupZ. rewrite !bool_decide_eq_true_2 by lia.
    replace (Z.to_nat (Z.max 0 (Z.of_nat (List.length points) - 1 - 1)))
      with (List.length points - 2)%nat by lia.
    replace (Z.to_nat (Z.of_nat (List.length points) - 1))
      with (List.length points - 1)%nat by lia.
    replace (Z.to_nat (Z.min (Z.of_nat (List.length points) - 1)
                             (Z.of_nat (List.length points) - 1 + 1)))
      with (List.length points - 1)%nat by lia.
    replace (Z.to_nat (Z.min (Z.of_nat (List.length points) - 1)
                             (Z.of_nat (List.length points) - 1 + 2)))
      with (List.length points - 1)%nat by lia.
    rewrite Hsl, Hl. cbn [mbind option_bind]. by rewrite catmullRom_zero.
Qed.

(** The loop of [interpolateSmooth]: its first push and its last.  *)
Lemma interpolateSmooth_ends (points : list Vec3) (sampling : nat) (a e : Vec3) :
  (2 <= List.length points)%nat -> (2 <= (List.length points - 1) * sampling)%nat ->
  points !! 0%nat = Some a ->
  (if bool_decide (List.length points = 2)%nat
   then points !! 0%nat
   else points !! (List.length points - 1)%nat) = Some e ->
  exists smoothPoints,
    interpolateSmooth points sampling = Some smoothPoints /\
    List.length smoothPoints = ((List.length points - 1) * sampling)%nat /\
    smoothPoints !! 0%nat = Some a /\
    last smoothPoints = Some e.
Proof.
  intros Hlen Htot Ha He. unfold interpolateSmooth.
  rewrite bool_decide_eq_false_2 by lia.
  set (total := ((List.length points - 1) * sampling)%nat) in *.
  pose (P := fun (i : nat) (acc : list Vec3) =>
               List.length acc = i /\
               ((0 < i)%nat -> acc !! 0%nat = Some a) /\
               (i = total -> last acc = Some e)).
  destruct (forLoopM_inv P (interpolateBody points total) total 0 [])
    as (r & Hr & HP1 & HP2 & HP3).
  - split; [done|]. split; intros; lia.
  - intros i acc Hi (Hacc & Hfirst & _).
    destruct (decide (i = 0)%nat) as [->|Hi0].
    + rewrite (interpolateBody_first points total acc a) by done.
      destruct acc; [|done]. eexists. split; [done|].
      split; [done|]. split; [done|]. intros. lia.
    + destruct (decide (S i = total)) as [Hlast|Hnl].
      * replace i with (total - 1)%nat by lia.
        rewrite interpolateBody_last by done. rewrite He. cbn [mbind option_bind].
        eexists. split; [done|]. split; [rewrite length_app; simpl; lia|].
        split.
        -- intros _. rewrite lookup_app_l by lia. apply Hfirst. lia.
        -- intros _. apply last_snoc.
      * destruct (interpolateBody_is_Some points total i acc) as [p ->]; [lia..|].
        eexists. split; [done|]. split; [rewrite length_app; simpl; lia|].
        split.
        -- intros _. rewrite lookup_app_l by lia. apply Hfirst. lia.
        -- intros. lia.
  - exists r. split; [done|]. split; [lia|]. split; [apply HP2; lia | by apply HP3].
Qed.

(** X7.  [interpolateSmooth(points, sampling)] through three control
    points or more returns [(points.length - 1) * sampling] samples; the
    first is the first control point and the last is the last control
    point. *)
Theorem interpolateSmooth_endpoints (points : list Vec3) (sampling : nat) :
  (3 <= List.length points)%nat -> (1 <= sampling)%nat ->
  exists smoothPoints,
    interpolateSmooth points sampling = Some smoothPoints /\
    List.length smoothPoints = ((List.length points - 1) * sampling)%nat /\
    smoothPoints !! 0%nat = points !! 0%nat /\
    last smoothPoints = last points.
Proof.
  intros Hlen Hs.
  destruct (lookup_lt_is_Some_2 points 0) as [a Ha]; [lia|].
  destruct (lookup_lt_is_Some_2 points (List.length points - 1)) as [e He]; [lia|].
  destruct (interpolateSmooth_ends points sampling a e) as (r & Hr & Hl & Hf & Hlast);
    [lia | nia | done | by rewrite bool_decide_eq_false_2 by lia |].
  exists r. split; [done|]. split; [done|]. split; [by rewrite Ha|].
  rewrite Hlast, last_lookup. rewrite <- He. f_equal. lia.
Qed.

Lemma interpolateSmooth_endpoints_witness :
  (3 <= List.length exLine4)%nat /\ (1 <= 20)%nat /\
  exists smoothPoints,
    interpolateSmooth exLine4 20 = Some smoothPoints /\
    List.length smoothPoints = ((List.length exLine4 - 1) * 20)%nat /\
    smoothPoints !! 0%nat = exLine4 !! 0%nat /\
    last smoothPoints = last exLine4.
Proof.
  split; [simpl; lia | split; [lia|]].
  exact (interpolateSmooth_endpoints exLine4 20 ltac:(simpl; lia) ltac:(lia)).
Defined.

(** X8.  Two control points.  With exactly two points the loop
    interpolates linearly, and its last sample, at the parameter 1, falls
    in segment 1 with the local parameter 0: the last sample is the first
    point again, not the second. *)
Theorem interpolateSmooth_two_points (a b : Vec3) (sampling : nat) :
  (2 <= sampling)%nat ->
  exists smoothPoints,
    interpolateSmooth [a; b] sampling = Some smoothPoints /\
    List.length smoothPoints = sampling /\
    smoothPoints !! 0%nat = Some a /\
    last smoothPoints = Some a.
Proof.
  intros Hs.
  destruct (interpolateSmooth_ends [a; b] sampling a a) as (r & Hr & Hl & Hf & Hlast);
    [simpl; lia | simpl; lia | done | done |].
  exists r. split; [done|]. split; [|done].
  rewrite Hl. simpl. lia.
Qed.

Lemma interpolateSmooth_two_points_witness :
  (2 <= 20)%nat /\
  exists smoothPoints,
    interpolateSmooth [mkVec3 0 0 0; mkVec3 1 0 0] 20 = Some smoothPoints /\
    List.length smoothPoints = 20%nat /\
    smoothPoints !! 0%nat = Some (mkVec3 0 0 0) /\
    last smoothPoints = Some (mkVec3 0 0 0).
Proof.
  split; [lia|].
  exact (interpolateSmooth_two_points (mkVec3 0 0 0) (mkVec3 1 0 0) 20 ltac:(lia)).
Defined.
End InterpolateExtras.

(** ** Grouping the segments of a chain by cartoon type *)

Section GroupExtras.
Import CartoonGenerator.

Lemma alternating_snoc (groups : list Group) (g g' : Group) :
  alternating (groups ++ [g]) -> gr_cartoonType g <> gr_cartoonType g' ->
  alternating ((groups ++ [g]) ++ [g']).
Proof.
  intros Halt Hne i a b Ha Hb.
  destruct (decide (S i < List.length (groups ++ [g]))%nat) as [Hlt|Hge].
  - rewrite lookup_app_l in Ha, Hb by lia. by apply (Halt i).
  - assert (i < List.length (groups ++ [g]))%nat as Hi.
    { apply lookup_lt_Some in Ha. apply lookup_lt_Some in Hb.
      rewrite !length_app in *. simpl in *. lia. }
    rewrite lookup_app_l in Ha by done. rewrite length_app in *. simpl in *.
    assert (i = List.length groups) as -> by lia.
    rewrite lookup_app_r in Ha by lia.
    replace (List.length groups - List.length groups)%nat with 0%nat in Ha by lia.
    rewrite lookup_app_r in Hb by (rewrite length_app; simpl; lia).
    rewrite length_app in Hb. simpl in Hb.
    replace (S (List.length groups) - (List.length groups + 1))%nat with 0%nat in Hb by lia.
    simpl in *. congruence.
Qed.

Lemma alternating_replace_last (groups : list Group) (g g' : Group) :
  alternating (groups ++ [g]) -> gr_cartoonType g' = gr_cartoonType g ->
  alternating (groups ++ [g']).
Proof.
  intros Halt Heq i a b Ha Hb.
  assert (S i < List.length groups + 1)%nat as Hi.
  { apply lookup_lt_Some in Hb. rewrite length_app in Hb. simpl in Hb. lia. }
  rewrite lookup_app_l in Ha by lia.
  destruct (decide (S i < List.length groups)%nat) as [Hlt|Hge].
  - rewrite lookup_app_l in Hb by lia.
    apply (Halt i); by rewrite lookup_app_l by lia.
  - assert (S i = List.length groups) as Hs by lia.
    rewrite lookup_app_r in Hb by lia.
    replace (S i - List.length groups)%nat with 0%nat in Hb by lia.
    simpl in Hb. injection Hb as <-. rewrite Heq.
    apply (Halt i); [by rewrite lookup_app_l by lia|].
    rewrite lookup_app_r by lia.
    by replace (S i - List.length groups)%nat with 0%nat by lia.
Qed.

Lemma groupBody_inv (segment : CSegment) (st : list Group * option Group)
    (done_ : list CSegment) :
  (st.2 = None -> st.1 = []) ->
  concat (gr_segments <$> allGroups st) = done_ ->
  Forall groupOk (allGroups st) -> alternating (allGroups st) ->
  concat (gr_segments <$> allGroups (groupBody segment st)) = done_ ++ [segment] /\
  Forall groupOk (allGroups (groupBody segment st)) /\
  alternating (allGroups (groupBody segment st)) /\
  is_Some (groupBody segment st).2.
Proof.
  destruct st as [groups [g|]]; unfold allGroups, groupBody; cbn [fst snd].
  - intros _ Hc Hok Halt. case_bool_decide as Hty; cbn [fst snd].
    + split; [|split; [|split]].
      * rewrite fmap_app, concat_app, Hc. simpl. done.
      * apply Forall_app. split; [done|]. apply Forall_singleton.
        split; [done|]. split; [by apply Forall_singleton | done].
      * by apply alternating_snoc.
      * by eexists.
    + assert (gr_cartoonType g = cs_cartoonType segment) as Heq by done.
      rewrite Forall_app, Forall_singleton in Hok.
      destruct Hok as [Hoks (Hne & Hall & Hlen)].
      split; [|split; [|split]].
      * rewrite fmap_app, concat_app in *. simpl in *.
        rewrite !app_nil_r in *. rewrite <- Hc. by rewrite app_assoc.
      * apply Forall_app. split; [done|]. apply Forall_singleton.
        split; [|split]; cbn [gr_segments gr_cartoonType gr_points].
        -- by destruct (gr_segments g).
        -- apply Forall_app. split; [done|]. by apply Forall_singleton.
        -- rewrite !length_app. simpl. lia.
      * by apply (alternating_replace_last groups g).
      * by eexists.
  - intros Hopen Hc Hok Halt. rewrite (Hopen eq_refl) in *. simpl in *. subst done_.
    split; [done|]. split; [|split].
    + apply Forall_singleton.
      split; [done|]. split; [by apply Forall_singleton | done].
    + intros i a b Ha Hb. by destruct i.
    + by eexists.
Qed.

Lemma groupBody_closed_needs_open (segment : CSegment) (st : list Group * option Group) :
  (st.2 = None -> st.1 = []) ->
  ((groupBody segment st).2 = None -> (groupBody segment st).1 = []).
Proof.
  destruct st as [groups [g|]]; unfold groupBody; cbn [fst snd].
  - case_bool_decide; cbn [fst snd]; done.
  - done.
Qed.

(** X9.  [groupSegmentsByType(segments)] cuts the segments into runs:
    the groups' segments, put end to end, are the segments in their
    order; a group holds at least one segment, all of the group's
    cartoon type, and one point more than segments; and two groups that
    follow each other have different types. *)
Theorem groupSegmentsByType_runs (segments : list CSegment) :
  concat (gr_segments <$> groupSegmentsByType segments) = segments /\
  Forall groupOk (groupSegmentsByType segments) /\
  alternating (groupSegmentsByType segments).
Proof.
  unfold groupSegmentsByType.
  assert (forall st,
            concat (gr_segments <$> allGroups st) = segments ->
            Forall groupOk (allGroups st) -> alternating (allGroups st) ->
            (let '(groups, currentGroup) := st in
             concat (gr_segments <$>
                       match currentGroup with
                       | Some g => groups ++ [g]
                       | None => groups
                       end) = segments /\
             Forall groupOk match currentGroup with
                            | Some g => groups ++ [g]
                            | None => groups
                            end /\
             alternating match currentGroup with
                         | Some g => groups ++ [g]
                         | None => groups
                         end)) as Hfin.
  { intros [groups [g|]]; unfold allGroups; cbn [fst snd]; [done|].
    by rewrite app_nil_r. }
  set (step := fun st segment => groupBody segment st).
  assert (forall segs done_ st,
            (st.2 = None -> st.1 = []) ->
            concat (gr_segments <$> allGroups st) = done_ ->
            Forall groupOk (allGroups st) -> alternating (allGroups st) ->
            concat (gr_segments <$> allGroups (foldl step st segs)) = done_ ++ segs /\
            Forall groupOk (allGroups (foldl step st segs)) /\
            alternating (allGroups (foldl step st segs))) as Hloop.
  { induction segs as [|s segs IH]; intros done_ st Hopen Hc Hok Halt.
    - simpl. by rewrite app_nil_r.
    - simpl. destruct (groupBody_inv s st done_ Hopen Hc Hok Halt) as (Hc' & Hok' & Halt' & _).
      destruct (IH (done_ ++ [s]) (step st s)) as (H1 & H2 & H3);
        [by apply groupBody_closed_needs_open | done..|].
      by rewrite <- app_assoc in H1. }
  destruct (Hloop segments [] ([], None)) as (H1 & H2 & H3);
    [done | done | by apply Forall_nil | by intros i a b Ha|].
  specialize (Hfin (foldl step ([], None) segments) H1 H2 H3).
  destruct (foldl step ([], None) segments) as [groups cur]. exact Hfin.
Qed.
End GroupExtras.

(** ** What twist minimisation changes *)

Section TwistExtras.
Import CartoonMath Twist.
Local Open Scope R_scope.

Lemma scale_neg_neg (v : Vec3) : scale (scale v (-1)) (-1) = v.
Proof. destruct v as [x y z]. unfold scale. cbn [vx vy vz]. f_equal; ring. Qed.

Lemma twistBody_signs (prevFrame currFrame : Frame) :
  sameUpToSign currFrame (twistBody prevFrame currFrame).
Proof.
  unfold twistBody, sameUpToSign. cbv zeta.
  repeat case_bool_decide; cbn [tangent normal binormal];
    rewrite ?scale_neg_neg; auto.
Qed.

Lemma twistBody_binormal (prevFrame currFrame : Frame) :
  0 <= dot (binormal prevFrame) (binormal (twistBody prevFrame currFrame)).
Proof.
  unfold twistBody. cbv zeta.
  repeat case_bool_decide; cbn [tangent normal binormal] in *;
    rewrite ?dot_scale_neg in *; lra.
Qed.

Lemma sameUpToSign_refl (f : Frame) : sameUpToSign f f.
Proof. unfold sameUpToSign. auto. Qed.

Lemma twistLoop_signs steps : forall i frames0 frames,
  Forall2 sameUpToSign frames0 frames ->
  (forall j, (i <= j)%nat -> frames !! j = frames0 !! j) ->
  Forall2 sameUpToSign frames0 (twistLoop steps i frames).
Proof.
  induction steps as [|steps IH]; intros i frames0 frames Hrel Hrest; simpl; [done|].
  destruct (frames !! (i - 1)%nat) as [p|] eqn:Hp; [|done].
  destruct (frames !! i) as [c|] eqn:Hc; [|done].
  apply IH.
  - rewrite <- (list_insert_id frames0 i c) by (by rewrite <- Hrest by lia).
    apply Forall2_insert; [done | apply twistBody_signs].
  - intros j Hj. rewrite list_lookup_insert_ne by lia. apply Hrest. lia.
Qed.

Lemma twistLoop_first steps : forall i frames,
  (1 <= i)%nat -> twistLoop steps i frames !! 0%nat = frames !! 0%nat.
Proof.
  induction steps as [|steps IH]; intros i frames Hi; simpl; [done|].
  destruct (frames !! (i - 1)%nat); [|done].
  destruct (frames !! i); [|done].
  rewrite IH by lia. apply list_lookup_insert_ne. lia.
Qed.

Lemma twistLoop_binormals steps : forall i frames,
  (1 <= i)%nat -> (i + steps = List.length frames)%nat ->
  binormals_aligned_below i frames ->
  binormals_aligned_below (List.length frames) (twistLoop steps i frames).
Proof.
  induction steps as [|steps IH]; intros i frames Hi Hlen Hinv; simpl.
  - by replace (List.length frames) with i by lia.
  - destruct (lookup_lt_is_Some_2 frames (i - 1)) as [p Hp]; [lia|].
    destruct (lookup_lt_is_Some_2 frames i) as [c Hc]; [lia|].
    rewrite Hp, Hc.
    rewrite <- (length_insert frames i (twistBody p c)).
    apply IH; [lia | rewrite length_insert; lia |].
    intros j f g Hj Hf Hg.
    destruct (decide (S j = i)) as [Heq|Hne].
    + subst i.
      rewrite list_lookup_insert_eq in Hg by lia.
      rewrite list_lookup_insert_ne in Hf by lia.
      simpl in Hp. rewrite Nat.sub_0_r in Hp.
      injection Hg as <-. rewrite Hp in Hf. injection Hf as <-.
      apply twistBody_binormal.
    + rewrite list_lookup_insert_ne in Hf by lia.
      rewrite list_lookup_insert_ne in Hg by lia.
      apply (Hinv j); [lia | done | done].
Qed.
End TwistExtras.

(** X10.  [minimizeFrameTwisting(frames)] keeps the number of frames,
    leaves the first frame and every tangent as they are, and changes a
    normal or a binormal only into its opposite. *)
Theorem minimizeFrameTwisting_signs (frames : list Frame) :
  Forall2 sameUpToSign frames (Twist.minimizeFrameTwisting frames) /\
  Twist.minimizeFrameTwisting frames !! 0%nat = frames !! 0%nat.
Proof.
  unfold Twist.minimizeFrameTwisting. case_bool_decide as Hlen.
  - split; [|done]. apply Forall2_same_length_lookup_2; [done|].
    intros i f g Hf Hg. rewrite Hf in Hg. injection Hg as <-. apply sameUpToSign_refl.
  - split; [|by apply twistLoop_first].
    apply twistLoop_signs; [|done].
    apply Forall2_same_length_lookup_2; [done|].
    intros i f g Hf Hg. rewrite Hf in Hg. injection Hg as <-. apply sameUpToSign_refl.
Qed.

(** X11.  After [minimizeFrameTwisting], the binormals of two frames that
    follow each other do not point against each other either: their dot
    product is not negative. *)
Theorem minimizeFrameTwisting_binormals_aligned (frames : list Frame) (i : nat)
    (f g : Frame) :
  Twist.minimizeFrameTwisting frames !! i = Some f ->
  Twist.minimizeFrameTwisting frames !! S i = Some g ->
  (0 <= CartoonMath.dot (binormal f) (binormal g))%R.
Proof.
  unfold Twist.minimizeFrameTwisting. intros Hf Hg.
  case_bool_decide as Hlen.
  - apply lookup_lt_Some in Hg. lia.
  - pose proof (twistLoop_binormals (List.length frames - 1) 1 frames) as H.
    rewrite <- (twistLoop_length (List.length frames - 1) 1 frames) in H at 3.
    eapply (H ltac:(lia) ltac:(lia)); [| | exact Hf | exact Hg].
    + intros j ? ? Hj. lia.
    + apply lookup_lt_Some in Hg. done.
Qed.

Lemma minimizeFrameTwisting_binormals_aligned_witness :
  Twist.minimizeFrameTwisting [c5_f1; c5_f0] !! 0%nat = Some c5_f1 /\
  Twist.minimizeFrameTwisting [c5_f1; c5_f0] !! 1%nat = Some (Twist.twistBody c5_f1 c5_f0) /\
  (0 <= CartoonMath.dot (binormal c5_f1) (binormal (Twist.twistBody c5_f1 c5_f0)))%R.
Proof.
  assert (H0 : Twist.minimizeFrameTwisting [c5_f1; c5_f0] !! 0%nat = Some c5_f1)
    by reflexivity.
  assert (H1 : Twist.minimizeFrameTwisting [c5_f1; c5_f0] !! 1%nat
               = Some (Twist.twistBody c5_f1 c5_f0)) by reflexivity.
  split; [exact H0 | split; [exact H1 |]].
  exact (minimizeFrameTwisting_binormals_aligned _ _ _ _ H0 H1).
Defined.

(** ** Triangle indices and chunks *)

Section IndexExtras.
Import CartoonGeometry.

Lemma indexBody_bound (shapePoints m i j : nat) (indices : list nat) :
  (i < m)%nat -> (j < shapePoints)%nat ->
  Forall (fun k => k < (m + 1) * shapePoints)%nat indices ->
  Forall (fun k => k < (m + 1) * shapePoints)%nat (indexBody shapePoints i j indices).
Proof.
  intros Hi Hj Hall. unfold indexBody. cbv zeta.
  assert ((j + 1) mod shapePoints < shapePoints)%nat as Hnext
    by (apply Nat.mod_upper_bound; lia).
  rewrite !Forall_app. repeat split; [done| |]; repeat constructor; nia.
Qed.

Lemma index_loops_bound (m shapePoints : nat) :
  Forall (fun k => k < (m + 1) * shapePoints)%nat
    (forLoop m 0 (fun i => forLoop shapePoints 0 (indexBody shapePoints i)) []).
Proof.
  pose (P := fun (i : nat) (acc : list nat) =>
               Forall (fun k => k < (m + 1) * shapePoints)%nat acc).
  apply (forLoop_inv P _ m 0); [by apply Forall_nil|].
  intros i acc Hi Hacc. unfold P in *.
  apply (forLoop_inv (fun _ acc' => Forall (fun k => k < (m + 1) * shapePoints)%nat acc')
           _ shapePoints 0); [done|].
  intros j acc' Hj Hacc'. apply indexBody_bound; [lia | lia | done].
Qed.

(** X12.  Every triangle index that [generateGeometry] emits names a
    vertex that it emits: the indices are below the number of
    vertices. *)
Theorem generateGeometry_indices_in_range (extrude : CartoonExtrude) :
  Forall (fun k => k < vertexCount (generateGeometry extrude))%nat
         (g_indices (generateGeometry extrude)).
Proof.
  destruct (decide (2 <= ex_n extrude /\ 3 <= ex_nShapePoints extrude)%nat) as [[Hn Hs]|Hsmall].
  - destruct (generateGeometry_counts extrude Hn Hs) as [-> _].
    unfold generateGeometry. rewrite !bool_decide_eq_false_2 by lia. cbn [orb].
    destruct (forLoop (ex_n extrude) 0 _ _) as [[vs ns] cs]. cbn [g_indices].
    pose proof (index_loops_bound (ex_n extrude - 1) (ex_nShapePoints extrude)) as Hb.
    by replace (ex_n extrude - 1 + 1)%nat with (ex_n extrude) in Hb by lia.
  - unfold generateGeometry.
    destruct (bool_decide (ex_n extrude < 2)%nat) eqn:E1;
      [cbn [orb g_indices]; by apply Forall_nil|].
    destruct (bool_decide (ex_nShapePoints extrude < 3)%nat) eqn:E2;
      [cbn [orb g_indices]; by apply Forall_nil|].
    apply bool_decide_eq_false_1 in E1, E2. lia.
Qed.
End IndexExtras.

Section RibbonIndexExtras.
Import Ribbon.

Lemma createSegmentMesh_fields (segments : list Segment) (name : string * nat) :
  (2 <= List.length segments)%nat ->
  exists mesh, createSegmentMesh segments name = Some mesh /\
    rm_name mesh = name /\
    rm_indices mesh = forLoop (List.length segments - 1) 0 (facesBody segments) [].
Proof.
  intros Hlen. unfold createSegmentMesh.
  rewrite bool_decide_eq_false_2 by lia.
  destruct (forLoop (List.length segments) 0 _ ([], [])) as [positions uvs].
  destruct (lookup_lt_is_Some_2 segments 0) as [first ->]; [lia|].
  destruct (lookup_lt_is_Some_2 segments (List.length segments - 1)) as [last ->]; [lia|].
  cbn [mbind option_bind]. eexists. split; [reflexivity|]. done.
Qed.

Lemma facesBody_bound (segments : list Segment) (n m i : nat) (indices : list nat) :
  (forall s, s ∈ segments -> List.length (s_profile s) = n) ->
  (i < m)%nat -> (i < List.length segments)%nat ->
  Forall (fun k => k < (m + 1) * n)%nat indices ->
  Forall (fun k => k < (m + 1) * n)%nat (facesBody segments i indices).
Proof.
  intros Hprof Hi Hlen Hall. unfold facesBody. cbv zeta.
  destruct (lookup_lt_is_Some_2 segments i) as [s Hs]; [done|].
  rewrite Hs. simpl.
  rewrite (Hprof s) by (eapply list_elem_of_lookup_2; exact Hs).
  apply (forLoop_inv (fun _ acc => Forall (fun k => k < (m + 1) * n)%nat acc) _ n 0); [done|].
  intros j acc Hj Hacc.
  assert ((j + 1) mod n < n)%nat as Hnext by (apply Nat.mod_upper_bound; lia).
  rewrite !Forall_app. repeat split; [done| |]; repeat constructor; nia.
Qed.

(** X13.  [createSegmentMesh(segments, name)], for two segments or more
    whose profiles all have the same number of points, returns a mesh in
    which every triangle index names one of its vertices (three
    coordinates per vertex in [positions]). *)
Theorem createSegmentMesh_indices_in_range (segments : list Segment)
    (name : string * nat) (n : nat) :
  (2 <= List.length segments)%nat ->
  (forall s, s ∈ segments -> List.length (s_profile s) = n) ->
  exists mesh, createSegmentMesh segments name = Some mesh /\
    Forall (fun k => 3 * k < List.length (rm_positions mesh))%nat (rm_indices mesh).
Proof.
  intros Hlen Hprof.
  destruct (createSegmentMesh_counts segments name n Hlen Hprof) as (mesh & Hm & Hpos & _).
  destruct (createSegmentMesh_fields segments name Hlen) as (mesh' & Hm' & _ & Hidx).
  rewrite Hm in Hm'. injection Hm' as <-.
  exists mesh. split; [done|]. rewrite Hpos, Hidx.
  set (m := List.length segments) in *.
  assert (Forall (fun k => k < (m - 1 + 1) * n)%nat
            (forLoop (m - 1) 0 (facesBody segments) [])) as Hall.
  { apply (forLoop_inv (fun _ acc => Forall (fun k => k < (m - 1 + 1) * n)%nat acc)
             _ (m - 1) 0); [by apply Forall_nil|].
    intros i acc Hi Hacc. apply (facesBody_bound segments n); [done | lia | lia | done]. }
  eapply Forall_impl; [exact Hall|]. intros k Hk. simpl in Hk.
  replace (m - 1 + 1)%nat with m in Hk by lia. lia.
Qed.
End RibbonIndexExtras.

Lemma createSegmentMesh_indices_in_range_witness :
  (2 <= List.length [exSegment 0; exSegment 1])%nat /\
  (forall s, s ∈ [exSegment 0; exSegment 1] -> List.length (s_profile s) = 4%nat) /\
  exists mesh, Ribbon.createSegmentMesh [exSegment 0; exSegment 1] ("A"%string, 0%nat) = Some mesh /\
    Forall (fun k => 3 * k < List.length (rm_positions mesh))%nat (rm_indices mesh).
Proof.
  assert (forall s, s ∈ [exSegment 0; exSegment 1] -> List.length (s_profile s) = 4%nat) as Hp.
  { intros s Hs. repeat (apply elem_of_cons in Hs as [->|Hs]; [reflexivity|]).
    by apply elem_of_nil in Hs. }
  split; [simpl; lia | split; [exact Hp |]].
  exact (createSegmentMesh_indices_in_range [exSegment 0; exSegment 1] ("A"%string, 0%nat) 4
           ltac:(simpl; lia) Hp).
Defined.

Section RibbonChunkExtras.
Import Ribbon.

Lemma div4_facts (n : nat) : (n = 4 * (n / 4) + n mod 4 /\ n mod 4 < 4)%nat.
Proof.
  split; [apply Nat.div_mod_eq | apply Nat.mod_upper_bound; lia].
Qed.

Lemma ribbonLoop_names (segments : list Segment) (chainId : string) fuel :
  forall k meshes,
  ((List.length segments - 1) / 4 - k <= fuel)%nat ->
  rm_name <$> ribbonLoop fuel (4 * k) segments chainId meshes
  = (rm_name <$> meshes)
    ++ ((fun c => (chainId, 4 * c)%nat) <$> seq k ((List.length segments - 1) / 4 - k)).
Proof.
  pose proof (div4_facts (List.length segments - 1)) as [Hdiv Hmod].
  induction fuel as [|fuel IH]; intros k meshes Hfuel; cbn [ribbonLoop].
  - replace ((List.length segments - 1) / 4 - k)%nat with 0%nat by lia.
    simpl. by rewrite app_nil_r.
  - change (Z.of_nat 4) with 4%Z. case_bool_decide as Hi.
    + destruct (createSegmentMesh_fields (take (4 + 1) (drop (4 * k) segments))
                  (chainId, (4 * k)%nat)) as (mesh & -> & Hname & _).
      { rewrite length_take, length_drop. lia. }
      replace (4 * k + 4)%nat with (4 * S k)%nat by lia.
      rewrite IH by lia.
      rewrite fmap_app. cbn [fmap list_fmap]. rewrite Hname, <- app_assoc.
      f_equal.
      assert (exists d, (List.length segments - 1) / 4 - k = S d /\
                        (List.length segments - 1) / 4 - S k = d)%nat as (d & -> & ->).
      { exists ((List.length segments - 1) / 4 - S k)%nat. lia. }
      done.
    + assert ((List.length segments - 1) / 4 - k = 0)%nat as -> by lia.
      simpl. by rewrite app_nil_r.
Qed.
End RibbonChunkExtras.

(** X14.  [createRibbonMeshes(segments, chainId)] makes
    [floor((segments.length - 1) / 4)] meshes (none for fewer than five
    segments), named by the chain and the index of their first segment,
    0, 4, 8, ...; a chunk starts where the one before it ends, and the
    segments after the last multiple of four are in no mesh. *)
Theorem createRibbonMeshes_names (segments : list Segment) (chainId : string) :
  rm_name <$> Ribbon.createRibbonMeshes segments chainId
  = (fun c => (chainId, 4 * c)%nat) <$> seq 0 ((List.length segments - 1) / 4).
Proof.
  unfold Ribbon.createRibbonMeshes.
  pose proof (ribbonLoop_names segments chainId (List.length segments) 0 []) as H.
  rewrite Nat.sub_0_r in H. change (4 * 0)%nat with 0%nat in H.
  cbn [fmap list_fmap app] in H. apply H.
  pose proof (div4_facts (List.length segments - 1)). lia.
Qed.

(** ** The parser: atoms grouped by residue *)

Section AtomMapExtras.
Import PDBParser.

Lemma pushAtom_keys (atomMap : list (ResKey * list (Atom jsnum))) (k : ResKey)
    (atom : Atom jsnum) :
  ((k ∈ atomMap.*1) /\ ((pushAtom atomMap k atom).*1 = atomMap.*1)) \/
  ((k ∉ atomMap.*1) /\ ((pushAtom atomMap k atom).*1 = atomMap.*1 ++ [k])).
Proof.
  induction atomMap as [|[k0 l0] rest IH]; cbn [pushAtom fmap list_fmap fst app].
  - right. split; [apply not_elem_of_nil | done].
  - case_bool_decide as Hk; cbn [fmap list_fmap fst].
    + subst k0. left. split; [apply list_elem_of_here | done].
    + destruct IH as [[Hin ->] | [Hnin ->]].
      * left. split; [by apply list_elem_of_further | done].
      * right. split; [|done]. intros [->|Hin]%elem_of_cons; done.
Qed.

Lemma elem_of_keys (atomMap : list (ResKey * list (Atom jsnum))) (k : ResKey)
    (atoms : list (Atom jsnum)) :
  (k, atoms) ∈ atomMap -> k ∈ atomMap.*1.
Proof. intros H. apply list_elem_of_fmap. by exists (k, atoms). Qed.

Lemma pushAtom_entries (atomMap : list (ResKey * list (Atom jsnum))) (k k' : ResKey)
    (atom : Atom jsnum) (atoms' : list (Atom jsnum)) :
  NoDup atomMap.*1 ->
  (k', atoms') ∈ pushAtom atomMap k atom ->
  (k' <> k /\ (k', atoms') ∈ atomMap) \/
  (k' = k /\ ((exists atoms, (k, atoms) ∈ atomMap /\ atoms' = atoms ++ [atom]) \/
              ((k ∉ atomMap.*1) /\ atoms' = [atom]))).
Proof.
  induction atomMap as [|[k0 l0] rest IH]; cbn [pushAtom fmap list_fmap fst].
  - intros _ [E|Hin]%elem_of_cons; [|by apply elem_of_nil in Hin].
    injection E as -> ->. right. split; [done|]. right. split; [apply not_elem_of_nil | done].
  - intros [Hk0 Hnd]%NoDup_cons. case_bool_decide as Hk.
    + subst k0. intros [E|Hin]%elem_of_cons.
      * injection E as -> ->. right. split; [done|]. left.
        exists l0. split; [apply list_elem_of_here | done].
      * left. split; [|by apply list_elem_of_further].
        intros ->. apply Hk0. by apply (elem_of_keys rest k atoms').
    + intros [E|Hin]%elem_of_cons.
      * injection E as -> ->. left. split; [done | apply list_elem_of_here].
      * destruct (IH Hnd Hin) as [[Hne Hold] | [-> [(atoms & Hold & ->) | [Hnk ->]]]].
        -- left. split; [done | by apply list_elem_of_further].
        -- right. split; [done|]. left. exists atoms.
           split; [by apply list_elem_of_further | done].
        -- right. split; [done|]. right. split; [|done].
           intros [->|Hin']%elem_of_cons; done.
Qed.

Lemma filter_none (k : ResKey) (atoms : list (Atom jsnum)) :
  (forall a, a ∈ atoms -> resKeyOf a <> k) ->
  filter (fun a => resKeyOf a = k) atoms = [].
Proof.
  intros H. induction atoms as [|a atoms IH]; [done|].
  rewrite filter_cons_False by (apply H, list_elem_of_here).
  apply IH. intros b Hb. apply H. by apply list_elem_of_further.
Qed.

Lemma parseAtom_inv (line : string) (st : ParserState) :
  atomMapInv st -> atomMapInv (parseAtom line st).
Proof.
  intros (Hnd & Hent & Hcov). unfold parseAtom. cbv zeta.
  fold (resKeyOf (atomOfLine line)).
  set (atom := atomOfLine line). set (k := resKeyOf atom).
  unfold atomMapInv. cbn [ps_atoms ps_atomMap].
  destruct (pushAtom_keys (ps_atomMap st) k atom) as [[Hin Hkeys] | [Hnin Hkeys]].
  - rewrite Hkeys. split; [done|]. split.
    + intros k' atoms' H'.
      destruct (pushAtom_entries _ _ _ _ _ Hnd H')
        as [[Hne Hold] | [-> [(atoms & Hold & ->) | [Hnk ->]]]].
      * destruct (Hent _ _ Hold) as [Hn ->]. split; [done|].
        rewrite filter_app, filter_cons_False by done. by rewrite app_nil_r.
      * destruct (Hent _ _ Hold) as [Hn ->]. split; [by destruct (filter _ _)|].
        rewrite filter_app, filter_cons_True by done. done.
      * done.
    + intros a [Ha | ->%list_elem_of_singleton]%elem_of_app; [by apply Hcov | done].
  - rewrite Hkeys. split; [|split].
    + apply NoDup_app. split; [done|]. split; [|apply NoDup_singleton].
      intros x Hx ->%list_elem_of_singleton. done.
    + intros k' atoms' H'.
      destruct (pushAtom_entries _ _ _ _ _ Hnd H')
        as [[Hne Hold] | [-> [(atoms & Hold & ->) | [Hnk ->]]]].
      * destruct (Hent _ _ Hold) as [Hn ->]. split; [done|].
        rewrite filter_app, filter_cons_False by done. by rewrite app_nil_r.
      * exfalso. apply Hnin. by apply (elem_of_keys _ _ atoms).
      * split; [done|].
        rewrite filter_app, filter_cons_True by done.
        rewrite filter_none; [done|]. intros a Ha Hk. apply Hnk. rewrite <- Hk.
        by apply Hcov.
    + intros a [Ha | ->%list_elem_of_singleton]%elem_of_app.
      * apply elem_of_app. left. by apply Hcov.
      * apply elem_of_app. right. by apply list_elem_of_singleton.
Qed.

(** X15.  The atom map that [parse] builds from the ATOM and HETATM
    lines: its keys are distinct; the array stored under a key is never
    empty and holds exactly the atoms with that key, in the order of the
    file; and every atom read is under its key. *)
Theorem parseLines_atomMap (lines : list string) :
  NoDup (ps_atomMap (parseLines lines)).*1 /\
  (forall k atoms, (k, atoms) ∈ ps_atomMap (parseLines lines) ->
     atoms <> [] /\ atoms = filter (fun a => resKeyOf a = k) (ps_atoms (parseLines lines))) /\
  (forall a, a ∈ ps_atoms (parseLines lines) ->
     resKeyOf a ∈ (ps_atomMap (parseLines lines)).*1).
Proof.
  change (atomMapInv (parseLines lines)). unfold parseLines.
  assert (forall st, atomMapInv st ->
            atomMapInv (foldl (fun st line =>
                                 if JS.startsWith line "ATOM" || JS.startsWith line "HETATM"
                                 then parseAtom line st else st) st lines)) as H.
  { induction lines as [|line lines IH]; intros st Hst; [done|].
    simpl. apply IH. destruct (_ || _); [by apply parseAtom_inv | done]. }
  apply H. split; [apply NoDup_nil_2|]. split.
  - intros k atoms Hin. by apply elem_of_nil in Hin.
  - intros a Ha. by apply elem_of_nil in Ha.
Qed.

(** X16.  [guessElement(atomName)] answers one of nine symbols, and
    never ['CA']: a name that starts with CA starts with C, and the test
    for C comes first. *)
Theorem guessElement_range (atomName : string) :
  guessElement atomName ∈ ["C"; "N"; "O"; "S"; "P"; "H"; "FE"; "MG"; "ZN"]%string.
Proof.
  unfold guessElement. cbv zeta.
  set (name := toUpperCase (JS.trim atomName)).
  destruct (JS.startsWith name "C") eqn:HC; [set_solver|].
  destruct (JS.startsWith name "N"); [set_solver|].
  destruct (JS.startsWith name "O"); [set_solver|].
  destruct (JS.startsWith name "S"); [set_solver|].
  destruct (JS.startsWith name "P"); [set_solver|].
  destruct (JS.startsWith name "H"); [set_solver|].
  destruct (JS.startsWith name "FE"); [set_solver|].
  destruct (JS.startsWith name "MG"); [set_solver|].
  destruct (JS.startsWith name "CA") eqn:HCA.
  - exfalso. unfold JS.startsWith in *. destruct name as [|c rest]; [done|].
    cbn [String.prefix] in *. destruct (ascii_dec "C" c); [|done].
    by destruct rest.
  - destruct (JS.startsWith name "ZN"); set_solver.
Qed.
End AtomMapExtras.

(** ** What the HELIX and SHEET records write *)

Section RecordExtras.
Import PDBRecords.
Context {A : Type}.

(** A pass over records, one residue at a time: when a write keeps what
    the tests read and overrides an earlier write, the pass leaves the
    write of the last record that holds the residue. *)
Lemma recordPass_last {Rec : Type} (inRec : Rec -> RecordResidue A -> bool)
    (set : Rec -> RecordResidue A -> RecordResidue A) :
  (forall x y r, inRec x (set y r) = inRec x r) ->
  (forall x y r, set x (set y r) = set x r) ->
  forall (recs : list Rec) (residues : list (RecordResidue A)),
  foldl (fun (residues : list (RecordResidue A)) rec =>
           (fun r => if inRec rec r then set rec r else r) <$> residues)
        residues recs
  = (fun r => match last (List.filter (fun rec => inRec rec r) recs) with
              | Some rec => set rec r
              | None => r
              end) <$> residues.
Proof.
  intros Hkeep Hover recs.
  induction recs as [|rec recs IH]; intros residues; cbn [foldl List.filter].
  - symmetry. apply list_fmap_id.
  - rewrite IH, <- list_fmap_compose. apply list_fmap_ext.
    intros i r _. cbn [compose].
    destruct (inRec rec r) eqn:Hr.
    + rewrite (List.filter_ext _ (fun x => inRec x r)) by (intros x; apply Hkeep).
      rewrite last_cons. destruct (last _) as [x|]; [apply Hover | done].
    + done.
Qed.

Lemma last_filter_existsb {Rec : Type} (p : Rec -> bool) (recs : list Rec) :
  match last (List.filter p recs) with
  | Some x => existsb p recs = true /\ p x = true /\ x ∈ recs
  | None => existsb p recs = false
  end.
Proof.
  induction recs as [|rec recs IH]; cbn [List.filter existsb]; [done|].
  destruct (p rec) eqn:Hp; cbn [orb].
  - rewrite last_cons. destruct (last _) as [x|].
    + destruct IH as (_ & Hx & Hin). split; [done|]. split; [done|].
      by apply list_elem_of_further.
    + split; [done|]. split; [done|]. apply list_elem_of_here.
  - destruct (last _) as [x|]; [|done].
    destruct IH as (He & Hx & Hin). split; [done|]. split; [done|].
    by apply list_elem_of_further.
Qed.

(** X17.  What [assignFromPDBRecords] writes.  It keeps the residues in
    their number and order.  A residue that lies in the range of some
    SHEET record ends as 'sheet', whatever the HELIX records say;
    otherwise one in the range of some HELIX record ends as 'helix'.  A
    residue in the range of a HELIX record gets the [helixClass] of the
    last such record, and keeps it when a SHEET record relabels it; one
    in the range of a SHEET record gets the [sheetId] of the last such
    record.  Nothing else of a residue is written, and a residue or a
    record whose sequence number is not a number matches nothing. *)
Theorem assignFromPDBRecords_closed_form (helices : list HelixRecord)
    (sheets : list SheetRecord) (residues : list (RecordResidue A)) :
  Forall2 (recordResult helices sheets) residues
          (assignFromPDBRecords helices sheets residues) /\
  (forall helix (r : RecordResidue A), rr_resSeq r = NaN \/ hx_initResSeq helix = NaN \/ hx_endResSeq helix = NaN ->
     inHelix helix r = false) /\
  (forall sheet (r : RecordResidue A), rr_resSeq r = NaN \/ sh_initResSeq sheet = NaN \/ sh_endResSeq sheet = NaN ->
     inSheet sheet r = false).
Proof.
  split; [|split].
  - unfold assignFromPDBRecords. cbv zeta.
    rewrite (recordPass_last inHelix setHelix) by done.
    rewrite (recordPass_last inSheet setSheet) by done.
    rewrite <- list_fmap_compose. apply Forall2_fmap_r, Forall_Forall2_diag.
    apply Forall_forall. intros r _. cbn [compose]. unfold recordResult.
    pose proof (last_filter_existsb (fun helix => inHelix helix r) helices) as Hh.
    pose proof (last_filter_existsb (fun sheet => inSheet sheet r) sheets) as Hs.
    destruct (last (List.filter (fun helix => inHelix helix r) helices)) as [helix|].
    + destruct Hh as (Hh & _ & _). rewrite Hh.
      rewrite (List.filter_ext (fun sheet => inSheet sheet (setHelix helix r))
                               (fun sheet => inSheet sheet r)) by done.
      destruct (last (List.filter (fun sheet => inSheet sheet r) sheets)) as [sheet|].
      * destruct Hs as (Hs & _ & _). by rewrite Hs.
      * by rewrite Hs.
    + rewrite Hh.
      destruct (last (List.filter (fun sheet => inSheet sheet r) sheets)) as [sheet|].
      * destruct Hs as (Hs & _ & _). by rewrite Hs.
      * by rewrite Hs.
  - intros helix r H. unfold inHelix, JSMath.geb, JSMath.leb.
    destruct H as [-> | [-> | ->]].
    + by rewrite andb_false_r.
    + destruct (rr_resSeq r) as [|x|[]]; by rewrite ?andb_false_r.
    + destruct (rr_resSeq r) as [|x|[]]; by rewrite ?andb_false_r.
  - intros sheet r H. unfold inSheet, JSMath.geb, JSMath.leb.
    destruct H as [-> | [-> | ->]].
    + by rewrite andb_false_r.
    + destruct (rr_resSeq r) as [|x|[]]; by rewrite ?andb_false_r.
    + destruct (rr_resSeq r) as [|x|[]]; by rewrite ?andb_false_r.
Qed.
End RecordExtras.

(** ** The smoothing passes, one at a time *)

Section SmoothingExtras.
Import Analyzer.

Lemma enforceBody_run_inv (a0 : list Assignment) (ssType : string) (k i : nat)
    (st : nat * Z * list Assignment) :
  enforceRunInv a0 ssType i st ->
  enforceRunInv a0 ssType (S i) (enforceBody ssType k i st).
Proof.
  destruct st as [[run rs] a]. unfold enforceRunInv.
  intros (Hlen & Hrun & Hrs & Hcur & Hsame).
  unfold enforceBody.
  destruct (bool_decide (i < List.length a)%nat
            && bool_decide (labelAt a i = Some ssType)) eqn:HisType.
  - apply andb_prop in HisType as [_ Hi%bool_decide_eq_true].
    split; [done|]. split; [lia|]. split; [|split; [|done]].
    + intros _. case_bool_decide; [lia | rewrite Hrs by lia; lia].
    + intros j Hj. destruct (decide (j = i)) as [->|]; [done|]. apply Hcur. lia.
  - clear HisType.
    destruct (bool_decide (0 < run)%nat && bool_decide (run < k)%nat) eqn:Hshort.
    + apply andb_prop in Hshort as [Hpos%bool_decide_eq_true Hlt%bool_decide_eq_true].
      rewrite (Hrs Hpos), Nat2Z.id.
      split; [by rewrite clear_length|]. split; [lia|]. split; [lia|].
      split; [intros j Hj; lia|].
      intros j. rewrite clear_labelAt. case_decide as Hin; [|apply Hsame].
      right. rewrite (Hcur j) by lia. split; [|done].
      destruct (Hsame j) as [<- | [H0 _]]; [apply Hcur; lia | done].
    + split; [done|]. split; [lia|]. split; [lia|]. split; [intros j Hj; lia | done].
Qed.

Lemma enforceMinimumLength_frame (assignments : list Assignment)
    (ssType : string) (minLength : nat) :
  List.length (enforceMinimumLength assignments ssType minLength)
  = List.length assignments /\
  forall j,
    labelAt (enforceMinimumLength assignments ssType minLength) j = labelAt assignments j \/
    (labelAt assignments j = Some ssType /\
     labelAt (enforceMinimumLength assignments ssType minLength) j = Some "coil").
Proof.
  unfold enforceMinimumLength.
  assert (enforceRunInv assignments ssType (0 + (List.length assignments + 1))
            (forLoop (List.length assignments + 1) 0 (enforceBody ssType minLength)
                     (0%nat, (-1)%Z, assignments))) as Hinv.
  { apply (forLoop_inv (enforceRunInv assignments ssType)).
    - unfold enforceRunInv.
      split; [done|]. split; [lia|]. split; [intros; lia|].
      split; [intros j Hj; lia | by left].
    - intros i st _. apply enforceBody_run_inv. }
  destruct (forLoop _ _ _ _) as [[run rs] a]. cbn [snd].
  destruct Hinv as (Hlen & _ & _ & _ & Hsame). done.
Qed.

(** X18.  [enforceMinimumLength(assignments, ssType, minLength)] keeps
    the number of assignments and changes a label only from [ssType] to
    'coil': every other label is left as it was. *)
Theorem enforceMinimumLength_only_clears (assignments : list Assignment)
    (ssType : string) (minLength : nat) :
  List.length (enforceMinimumLength assignments ssType minLength)
  = List.length assignments /\
  forall j,
    labelAt (enforceMinimumLength assignments ssType minLength) j = labelAt assignments j \/
    (labelAt assignments j = Some ssType /\
     labelAt (enforceMinimumLength assignments ssType minLength) j = Some "coil").
Proof. exact (enforceMinimumLength_frame assignments ssType minLength). Qed.

(** What a sequence of gap-filling writes keeps true. *)
Lemma fillStep_frame (a b c : list Assignment) :
  (List.length b = List.length a /\
   (forall j, labelAt b j = labelAt a j \/ labelAt a j = Some "coil") /\
   (forall j l, labelAt b j = Some l -> exists j', labelAt a j' = Some l)) ->
  fillStep b c ->
  List.length c = List.length a /\
  (forall j, labelAt c j = labelAt a j \/ labelAt a j = Some "coil") /\
  (forall j l, labelAt c j = Some l -> exists j', labelAt a j' = Some l).
Proof.
  intros (Hlen & Hsame & Hsub) (i & label & Hi & Hcoil & Hprev & ->).
  split; [by rewrite length_alter|]. split.
  - intros j. destruct (decide (j = i)) as [->|Hne].
    + right. destruct (Hsame i) as [<- | H]; done.
    + rewrite labelAt_alter_ne by done. apply Hsame.
  - intros j l. destruct (decide (j = i)) as [->|Hne].
    + rewrite labelAt_alter_eq, Hcoil. cbn. intros [= <-]. by apply (Hsub (i - 1)%nat).
    + rewrite labelAt_alter_ne by done. apply Hsub.
Qed.

Lemma fillShortGaps_frame (assignments : list Assignment) (maxGapLength : nat) :
  List.length (fillShortGaps assignments maxGapLength) = List.length assignments /\
  (forall j, labelAt (fillShortGaps assignments maxGapLength) j = labelAt assignments j \/
             labelAt assignments j = Some "coil") /\
  (forall j l, labelAt (fillShortGaps assignments maxGapLength) j = Some l ->
     exists j', labelAt assignments j' = Some l).
Proof.
  pose proof (fillShortGaps_steps assignments maxGapLength) as Hsteps.
  set (out := fillShortGaps assignments maxGapLength) in *. clearbody out.
  revert out Hsteps. apply rtc_ind_r.
  - split; [done|]. split; [by left|]. intros j l Hl. by exists j.
  - intros b c Hab Hbc IH. by apply (fillStep_frame assignments b c).
Qed.

(** X19.  [fillShortGaps(assignments, maxGapLength)] keeps the number of
    assignments, rewrites only entries that were 'coil', and writes only
    labels that the input already held. *)
Theorem fillShortGaps_only_fills (assignments : list Assignment) (maxGapLength : nat) :
  List.length (fillShortGaps assignments maxGapLength) = List.length assignments /\
  (forall j, labelAt (fillShortGaps assignments maxGapLength) j = labelAt assignments j \/
             labelAt assignments j = Some "coil") /\
  (forall j l, labelAt (fillShortGaps assignments maxGapLength) j = Some l ->
     exists j', labelAt assignments j' = Some l).
Proof. exact (fillShortGaps_frame assignments maxGapLength). Qed.
End SmoothingExtras.

(** ** The analysis of a whole chain *)

Section ChainExtras.
Import Analyzer.
Local Open Scope R_scope.

Lemma assignmentOf_label (score : Score) : structureLabel (assignmentOf score).
Proof.
  unfold assignmentOf, structureLabel.
  repeat (case_bool_decide; cbn [andb]); auto.
Qed.

Lemma calculateGeometryScores_length (residues : list Residue) :
  List.length (calculateGeometryScores residues) = List.length residues.
Proof.
  unfold calculateGeometryScores.
  apply (forLoop_inv (fun i (acc : list Score) => List.length acc = i) _
           (List.length residues) 0); [done|].
  intros i acc _ Hacc. rewrite length_app. simpl. lia.
Qed.

Lemma applyGeometryAssignments_labels (scores : list Score) (residues : list Residue) :
  List.length (applyGeometryAssignments scores residues) = List.length scores /\
  Forall (fun a => structureLabel (as_assignment a))
         (applyGeometryAssignments scores residues).
Proof.
  unfold applyGeometryAssignments.
  apply (forLoop_inv
           (fun i (acc : list Assignment) =>
              List.length acc = i /\
              Forall (fun a => structureLabel (as_assignment a)) acc)
           _ (List.length scores) 0); [by split|].
  intros i acc Hi [Hlen Hall].
  destruct (lookup_lt_is_Some_2 scores i) as [score ->]; [lia|].
  split; [rewrite length_app; simpl; lia|].
  apply Forall_app. split; [done|]. apply Forall_singleton. apply assignmentOf_label.
Qed.

Lemma labelAt_Forall (P : string -> Prop) (a : list Assignment) :
  Forall (fun x => P (as_assignment x)) a <-> forall j l, labelAt a j = Some l -> P l.
Proof.
  rewrite Forall_lookup. unfold labelAt. split.
  - intros H j l Hl. apply fmap_Some in Hl as (x & Hx & ->). by apply (H j).
  - intros H j x Hx. apply (H j). by rewrite Hx.
Qed.

Lemma smoothAssignments_labels (assignments : list Assignment) :
  Forall (fun a => structureLabel (as_assignment a)) assignments ->
  List.length (smoothAssignments assignments) = List.length assignments /\
  Forall (fun a => structureLabel (as_assignment a)) (smoothAssignments assignments).
Proof.
  intros Hall. rewrite labelAt_Forall in Hall. unfold smoothAssignments. cbv zeta.
  set (a1 := enforceMinimumLength assignments "helix" helix_minLength).
  set (a2 := enforceMinimumLength a1 "sheet" sheet_minLength).
  destruct (enforceMinimumLength_frame assignments "helix" helix_minLength)
    as [Hl1 Hs1].
  destruct (enforceMinimumLength_frame a1 "sheet" sheet_minLength) as [Hl2 Hs2].
  destruct (fillShortGaps_frame a2 2) as (Hl3 & _ & Hsub).
  fold a1 in Hl1, Hs1. fold a2 in Hl2, Hs2.
  split; [lia|]. apply labelAt_Forall. intros j l Hl.
  destruct (Hsub j l Hl) as [j' Hj'].
  destruct (Hs2 j') as [E | [_ E]]; rewrite Hj' in E; [|injection E as ->; by right; right].
  destruct (Hs1 j') as [E' | [_ E']]; rewrite <- E in E';
    [by apply (Hall j') | injection E' as ->; by right; right].
Qed.

Lemma applyAssignments_lookup (assignments : list Assignment) (residues : list Residue)
    (i : nat) :
  applyAssignments assignments residues !! i
  = match assignments !! i with
    | Some a => setStructure (as_assignment a) (sc_confidence (as_score a)) <$> residues !! i
    | None => residues !! i
    end.
Proof.
  unfold applyAssignments.
  pose (P := fun (n : nat) (acc : list Residue) =>
               forall i, acc !! i
                 = if decide (i < n)%nat then
                     match assignments !! i with
                     | Some a => setStructure (as_assignment a) (sc_confidence (as_score a))
                                   <$> residues !! i
                     | None => residues !! i
                     end
                   else residues !! i).
  assert (P (0 + List.length assignments)%nat
            (forLoop (List.length assignments) 0
               (fun i residues =>
                  match assignments !! i with
                  | Some a => alter (setStructure (as_assignment a)
                                       (sc_confidence (as_score a))) i residues
                  | None => residues
                  end) residues)) as HP.
  { apply (forLoop_inv P).
    - intros j. by rewrite decide_False by lia.
    - intros n acc Hn Hacc j.
      destruct (lookup_lt_is_Some_2 assignments n) as [a Ha]; [lia|].
      rewrite Ha. destruct (decide (j = n)) as [->|Hne].
      + rewrite list_lookup_alter_eq, Hacc, decide_False, decide_True, Ha by lia. done.
      + rewrite list_lookup_alter_ne, Hacc by done.
        destruct (decide (j < n)%nat), (decide (j < S n)%nat); try lia; done. }
  rewrite HP. case_decide as Hi; [done|].
  rewrite (lookup_ge_None_2 assignments) by lia. done.
Qed.

Lemma analyzeChain_residues (residues : list Residue) :
  Forall2 (fun r r' => exists label confidence,
             structureLabel label /\ r' = setStructure label confidence r)
          residues (analyzeChain residues).
Proof.
  unfold analyzeChain. case_bool_decide as Hshort.
  - unfold assignDefaultStructure. apply Forall2_fmap_r, Forall_Forall2_diag.
    apply Forall_forall. intros r _. exists "coil"%string, 0.1.
    split; [by right; right | done].
  - cbv zeta.
    set (scores := calculateGeometryScores residues).
    set (assignments := applyGeometryAssignments scores residues).
    destruct (applyGeometryAssignments_labels scores residues) as [Hlen Hall].
    fold assignments in Hlen, Hall.
    destruct (smoothAssignments_labels assignments Hall) as [Hlen' Hall'].
    set (smoothed := smoothAssignments assignments) in *.
    assert (List.length smoothed = List.length residues) as Hn.
    { rewrite Hlen', Hlen. apply calculateGeometryScores_length. }
    apply Forall2_same_length_lookup_2.
    + apply Nat.le_antisymm.
      * destruct (decide (List.length residues <= List.length (applyAssignments smoothed residues))%nat)
          as [|Hgt]; [done|].
        pose proof (applyAssignments_lookup smoothed residues
                      (List.length (applyAssignments smoothed residues))) as E.
        rewrite lookup_ge_None_2 in E by lia.
        destruct (lookup_lt_is_Some_2 smoothed
                    (List.length (applyAssignments smoothed residues))) as [a Ha]; [lia|].
        destruct (lookup_lt_is_Some_2 residues
                    (List.length (applyAssignments smoothed residues))) as [r Hr]; [lia|].
        rewrite Ha, Hr in E. done.
      * destruct (decide (List.length (applyAssignments smoothed residues) <= List.length residues)%nat)
          as [|Hgt]; [done|].
        pose proof (applyAssignments_lookup smoothed residues (List.length residues)) as E.
        rewrite (lookup_ge_None_2 smoothed), (lookup_ge_None_2 residues) in E by lia.
        apply lookup_ge_None in E. lia.
    + intros i r r' Hr Hr'.
      rewrite applyAssignments_lookup, Hr in Hr'.
      destruct (lookup_lt_is_Some_2 smoothed i) as [a Ha];
        [apply lookup_lt_Some in Hr; lia|].
      rewrite Ha in Hr'. cbn in Hr'. injection Hr' as <-.
      exists (as_assignment a), (sc_confidence (as_score a)). split; [|done].
      rewrite Forall_lookup in Hall'. by apply (Hall' i).
Qed.

(** X20.  [analyzeChain(residues)] keeps the number of residues and
    changes nothing of a residue but its label and its confidence; it
    gives every residue a confidence and one of the labels 'helix',
    'sheet' and 'coil'. *)
Theorem analyzeChain_labels (residues : list Residue) :
  Forall2 (fun r r' => exists label confidence,
             structureLabel label /\ r' = setStructure label confidence r)
          residues (analyzeChain residues).
Proof. exact (analyzeChain_residues residues). Qed.

Lemma countBody_total (residues : list Residue) :
  Forall (fun r => structureLabel (r_secondaryStructure r)) residues ->
  forall helix sheet coil,
  let '(helix', sheet', coil') :=
    foldl (fun counts residue => AnalyzerSummary.countBody residue counts)
          (helix, sheet, coil) residues in
  (helix' + sheet' + coil' = helix + sheet + coil + List.length residues)%nat.
Proof.
  induction 1 as [|r residues Hr _ IH]; intros helix sheet coil; cbn [foldl List.length].
  - lia.
  - unfold AnalyzerSummary.countBody at 2. cbv zeta.
    destruct Hr as [-> | [-> | ->]]; cbn [bool_decide decide_rel]; 
      repeat (case_bool_decide; try done).
    + specialize (IH (S helix) sheet coil). destruct (foldl _ _ _) as [[h s] c]. lia.
    + specialize (IH helix (S sheet) coil). destruct (foldl _ _ _) as [[h s] c]. lia.
    + specialize (IH helix sheet (S coil)). destruct (foldl _ _ _) as [[h s] c]. lia.
Qed.

(** X21.  The summary that [analyzeChain(residues)] returns accounts for
    every residue: its counts of helix, sheet and coil add up to its
    total, which is the number of residues. *)
Theorem analyzeChainSummary_total (residues : list Residue) :
  let summary := AnalyzerSummary.analyzeChainSummary residues in
  (sm_helix summary + sm_sheet summary + sm_coil summary = sm_total summary)%nat /\
  sm_total summary = List.length residues.
Proof.
  unfold AnalyzerSummary.analyzeChainSummary. case_bool_decide as Hshort.
  - cbn. split; [lia | done].
  - unfold AnalyzerSummary.getAssignmentSummary.
    pose proof (analyzeChain_residues residues) as Hlab.
    assert (Forall (fun r => structureLabel (r_secondaryStructure r)) (analyzeChain residues))
      as Hall.
    { apply Forall_lookup. intros i r' Hr'.
      destruct (Forall2_lookup_r _ _ _ _ _ Hlab Hr') as (r & _ & label & conf & Hl & ->).
      done. }
    pose proof (countBody_total _ Hall 0 0 0)%nat as Hc.
    destruct (foldl _ _ _) as [[h s] c]. cbn.
    rewrite (Forall2_length _ _ _ Hlab). split; [lia | done].
Qed.
End ChainExtras.

(** ** Ranges of the angles and of the scores *)

Section ScoreExtras.
Import Analyzer.
Local Open Scope R_scope.

Lemma angleBetweenVectors_range (v1 v2 : Vec3) : 0 <= angleBetweenVectors v1 v2 <= PI.
Proof.
  unfold angleBetweenVectors. cbv zeta.
  destruct (_ || _); [|apply acos_bound].
  pose proof PI_RGT_0. lra.
Qed.

(** X22.  The angles are in range: [angleBetweenVectors] answers between
    0 and pi, also for a null vector (then 0), and
    [calculateTorsionAngle], in degrees, between -180 and 180. *)
Theorem angles_in_range (v1 v2 p1 p2 p3 p4 : Vec3) :
  0 <= angleBetweenVectors v1 v2 <= PI /\
  -180 <= calculateTorsionAngle p1 p2 p3 p4 <= 180.
Proof.
  split; [apply angleBetweenVectors_range|].
  unfold calculateTorsionAngle. cbv zeta.
  set (n1 := crossProduct (vector3D p1 p2) (vector3D p2 p3)).
  set (n2 := crossProduct (vector3D p2 p3) (vector3D p3 p4)).
  pose proof (angleBetweenVectors_range n1 n2) as [Hlo Hhi].
  pose proof PI_RGT_0 as Hpi.
  assert (0 <= angleBetweenVectors n1 n2 * 180 / PI <= 180) as [H1 H2].
  { split.
    - apply Rmult_le_pos; [nra|]. apply Rlt_le, Rinv_0_lt_compat, Hpi.
    - apply Rmult_le_reg_r with PI; [done|].
      unfold Rdiv. rewrite Rmult_assoc, Rinv_l by lra. nra. }
  case_bool_decide.
  - replace (1 * angleBetweenVectors n1 n2 * 180 / PI)
      with (angleBetweenVectors n1 n2 * 180 / PI) by (unfold Rdiv; ring). lra.
  - replace (-1 * angleBetweenVectors n1 n2 * 180 / PI)
      with (- (angleBetweenVectors n1 n2 * 180 / PI)) by (unfold Rdiv; ring). lra.
Qed.

(** A loop that adds a term between 0 and 1 to the score and 1 to the
    count keeps the score between 0 and the count. *)
Lemma foldl_inv {A B : Type} (P : B -> Prop) (f : B -> A -> B) (l : list A) (b : B) :
  P b -> (forall b x, P b -> P (f b x)) -> P (foldl f b l).
Proof.
  intros Hb Hstep. revert b Hb. induction l as [|x l IH]; intros b Hb; [done|].
  simpl. apply IH. by apply Hstep.
Qed.

Lemma tolerance_term (x ideal tolerance : R) :
  0 < tolerance -> Rabs (x - ideal) <= tolerance ->
  0 <= 1 - Rabs (x - ideal) / tolerance <= 1.
Proof.
  intros Htol Hx. pose proof (Rabs_pos (x - ideal)) as Hpos.
  assert (0 <= Rabs (x - ideal) / tolerance <= 1) as [H1 H2].
  { split.
    - apply Rmult_le_pos; [done|]. by apply Rlt_le, Rinv_0_lt_compat.
    - apply Rmult_le_reg_r with tolerance; [done|].
      unfold Rdiv. rewrite Rmult_assoc, Rinv_l by lra. lra. }
  lra.
Qed.

Lemma ratio_range (s c : R) : 0 <= s <= c -> 0 <= (if bool_decide (c > 0) then s / c else 0) <= 1.
Proof.
  intros [Hs Hc]. case_bool_decide as Hpos; [|lra]. split.
  - apply Rmult_le_pos; [done|]. by apply Rlt_le, Rinv_0_lt_compat.
  - apply Rmult_le_reg_r with c; [done|].
    unfold Rdiv. rewrite Rmult_assoc, Rinv_l by lra. lra.
Qed.

Lemma count_ratio_range (xs : list R) (P : R -> bool) :
  0 <= foldl (fun n x => if P x then n + 1 else n) 0 xs / INR (List.length xs) <= 1.
Proof.
  assert (forall l s (k : nat), 0 <= s <= INR k ->
            0 <= foldl (fun n x => if P x then n + 1 else n) s l
              <= INR (k + List.length l)) as Hgen.
  { induction l as [|x l IH]; intros s k Hs; simpl.
    - by rewrite Nat.add_0_r.
    - replace (k + S (List.length l))%nat with (S k + List.length l)%nat by lia.
      apply IH. rewrite S_INR. destruct (P x); lra. }
  specialize (Hgen xs 0 0%nat ltac:(simpl; lra)). simpl in Hgen.
  destruct xs as [|x xs].
  - simpl. unfold Rdiv. rewrite Rinv_0. lra.
  - set (n := INR (List.length (x :: xs))) in *.
    assert (0 < n) by (subst n; apply lt_0_INR; simpl; lia).
    destruct Hgen as [H1 H2]. split.
    + apply Rmult_le_pos; [done|]. by apply Rlt_le, Rinv_0_lt_compat.
    + apply Rmult_le_reg_r with n; [done|].
      unfold Rdiv. rewrite Rmult_assoc, Rinv_l by lra. lra.
Qed.

Lemma scoreHelicalGeometry_range (distances angles torsions : list R) :
  0 <= scoreHelicalGeometry distances angles torsions <= 1.
Proof.
  unfold scoreHelicalGeometry.
  pose (P := fun sc : R * R => 0 <= sc.1 <= sc.2).
  set (f1 := fun '(score, count) dist => _).
  assert (P (foldl f1 (0, 0) distances)) as H1.
  { apply foldl_inv; [unfold P; simpl; lra|].
    intros [s c] x Hsc. unfold P, f1 in *. cbn [fst snd] in *.
    case_bool_decide as Hx; [|lra].
    pose proof (tolerance_term x helix_caDistance helix_distanceTolerance
                  ltac:(unfold helix_distanceTolerance; lra) Hx). lra. }
  destruct (foldl f1 (0, 0) distances) as [s1 c1].
  set (f2 := fun '(score, count) angle => _).
  assert (P (foldl f2 (s1, c1) angles)) as H2.
  { apply foldl_inv; [done|].
    intros [s c] x Hsc. unfold P, f2 in *. cbn [fst snd] in *.
    case_bool_decide as Hx; [|lra].
    pose proof (tolerance_term x helix_turnAngle helix_angleTolerance
                  ltac:(unfold helix_angleTolerance; lra) Hx). lra. }
  destruct (foldl f2 (s1, c1) angles) as [s2 c2].
  unfold P in H2. cbn [fst snd] in H2.
  case_bool_decide as Ht.
  - pose proof (count_ratio_range torsions
                  (fun torsion => bool_decide
                     (Rabs (torsion - sum torsions / INR (List.length torsions)) < 30)))
      as Hr.
    apply ratio_range. lra.
  - by apply ratio_range.
Qed.

Lemma scoreSheetGeometry_range (distances angles : list R) :
  0 <= scoreSheetGeometry distances angles <= 1.
Proof.
  unfold scoreSheetGeometry. cbv zeta.
  set (first :=
         if extendedConformation distances
         then 0 + Rmin 1 ((avgDistanceOf distances - sheet_minDistance) / 0.5)
         else 0).
  assert (0 <= first <= 1) as Hf.
  { subst first. unfold extendedConformation. case_bool_decide as He; [|lra].
    unfold Rmin. destruct (Rle_dec _ _); [lra|].
    assert (0 <= (avgDistanceOf distances - sheet_minDistance) / 0.5); [|lra].
    apply Rmult_le_pos; lra. }
  case_bool_decide as Ha.
  - pose proof (count_ratio_range angles
                  (fun angle => bool_decide (angle < sheet_maxTurnAngle)
                                || bool_decide (angle > 180 - sheet_maxTurnAngle))) as Hr.
    apply ratio_range. lra.
  - apply ratio_range. lra.
Qed.

Lemma calculateConfidence_range (caAtoms : list Vec3) (distances angles : list R) :
  0.1 <= calculateConfidence caAtoms distances angles <= 1.
Proof.
  unfold calculateConfidence. cbv zeta.
  set (c1 := if bool_decide (List.length caAtoms < geometryWindow)%nat
             then 1.0 * (INR (List.length caAtoms) / INR geometryWindow) else 1.0).
  assert (0 <= c1 <= 1) as Hc1.
  { subst c1. case_bool_decide as Hlen; [|lra].
    unfold geometryWindow in *.
    assert (0 <= INR (List.length caAtoms)) by apply pos_INR.
    assert (INR (List.length caAtoms) <= INR 5) by (apply le_INR; lia).
    simpl in *. lra. }
  split; [apply Rmax_l|].
  apply Rmax_lub; [lra|]. case_bool_decide; lra.
Qed.

(** X23.  The scores of a window are in range: the helix, sheet and coil
    scores of [analyzeLocalGeometry] and its confidence all lie between
    0 and 1, and the coil score is one minus the greater of the other
    two. *)
Theorem analyzeLocalGeometry_ranges (window : list Residue) :
  let g := analyzeLocalGeometry window in
  0 <= lg_helix g <= 1 /\ 0 <= lg_sheet g <= 1 /\ 0 <= lg_coil g <= 1 /\
  0 <= lg_confidence g <= 1 /\
  lg_coil g = 1 - Rmax (lg_helix g) (lg_sheet g).
Proof.
  unfold analyzeLocalGeometry. case_bool_decide as Hfew.
  - cbn. rewrite Rmax_left by lra. repeat split; lra.
  - cbv zeta. cbn [lg_helix lg_sheet lg_coil lg_confidence].
    set (ca := extractCAAtoms window).
    pose proof (scoreHelicalGeometry_range (calculateDistances ca) (calculateAngles ca)
                  (calculateTorsions ca)) as Hh.
    pose proof (scoreSheetGeometry_range (calculateDistances ca) (calculateAngles ca)) as Hs.
    pose proof (calculateConfidence_range ca (calculateDistances ca) (calculateAngles ca)) as Hc.
    set (h := scoreHelicalGeometry _ _ _) in *.
    set (s := scoreSheetGeometry _ _) in *.
    assert (0 <= Rmax h s <= 1) as Hm.
    { unfold Rmax. destruct (Rle_dec h s); lra. }
    rewrite (Rmax_right 0) by lra.
    repeat split; lra.
Qed.
End ScoreExtras.

(** ** Moving average of a path *)

Section SmoothPathExtras.
Import Vector3 SplineUtils.
Local Open Scope R_scope.



End SmoothPathExtras.

(** ** Colours from hue, saturation and lightness *)

Section ColorExtras.
Import RibbonColors.
Local Open Scope R_scope.




End ColorExtras.

(** ** The parser's geometric pass *)

Section ParserGeometryExtras.
Import ParserGeometry.
Local Open Scope R_scope.

Lemma isTurn_isStraight (angle : R) : isTurn angle = true -> isStraight angle = false.
Proof.
  unfold isTurn, isStraight. intros [H1%bool_decide_eq_true _]%andb_prop.
  apply bool_decide_eq_false_2. lra.
Qed.

(** The two counting loops together count no angle twice. *)
Lemma counts_disjoint (vectors : list (option Vec3)) steps :
  forall i n m,
  (forLoop steps i
     (fun i count =>
        match vectors !! i, vectors !! (i + 1)%nat with
        | Some u, Some w =>
            match turnAngle u w with
            | Some angle => if isTurn angle then S count else count
            | None => count
            end
        | _, _ => count
        end) n
   + forLoop steps i
       (fun i count =>
          match vectors !! i, vectors !! (i + 1)%nat with
          | Some u, Some w =>
              match turnAngle u w with
              | Some angle => if isStraight angle then S count else count
              | None => count
              end
          | _, _ => count
          end) m
   <= n + m + steps)%nat.
Proof.
  induction steps as [|steps IH]; intros i n m; cbn [forLoop]; [lia|].
  destruct (vectors !! i) as [u|]; [|specialize (IH (S i) n m); lia].
  destruct (vectors !! (i + 1)%nat) as [w|]; [|specialize (IH (S i) n m); lia].
  destruct (turnAngle u w) as [angle|]; [|specialize (IH (S i) n m); lia].
  destruct (isTurn angle) eqn:Ht.
  - rewrite (isTurn_isStraight angle Ht). specialize (IH (S i) (S n) m). lia.
  - destruct (isStraight angle).
    + specialize (IH (S i) n (S m)). lia.
    + specialize (IH (S i) n m). lia.
Qed.

Lemma segmentsOf_length (caAtoms : list (Atom R)) :
  List.length (segmentsOf caAtoms).2 = (List.length caAtoms - 1)%nat.
Proof.
  unfold segmentsOf.
  pose (P := fun (i : nat) (acc : list R * list (option Vec3)) => List.length acc.2 = i).
  apply (forLoop_inv P _ (List.length caAtoms - 1) 0); [done|].
  intros i [ds vs] Hi Hacc. unfold P in *. cbn [snd] in *.
  destruct (lookup_lt_is_Some_2 caAtoms i) as [p ->]; [lia|].
  destruct (lookup_lt_is_Some_2 caAtoms (i + 1)) as [q ->]; [lia|].
  destruct (direction p q) as [dist u]. cbn [snd]. rewrite length_app. simpl. lia.
Qed.

Lemma analyzeLocalGeometry_angles (residueWindow : list Residue) :
  analyzeLocalGeometry residueWindow = angleVerdict residueWindow.
Proof.
  unfold analyzeLocalGeometry, angleVerdict. cbv zeta. case_bool_decide as Hfew; [done|].
  destruct (segmentsOf (omap r_ca residueWindow)) as [distances vectors]. cbn [snd].
  f_equal; apply bool_decide_ext;
    repeat case_bool_decide; cbn [andb Nat.add]; split; intros; try done; lia.
Qed.

(** X26.  The parser's [analyzeLocalGeometry(residueWindow)] is decided
    by the turning angles alone: its tests on the average CA-CA distance
    add 2 to a score that needs 3, and never change the answer.  And it
    never answers helix and sheet at once: an angle between 70 and 130
    degrees is not below 30, and each answer needs all but one of the
    angles of the window on its side. *)
Theorem analyzeLocalGeometry_exclusive (residueWindow : list Residue) :
  analyzeLocalGeometry residueWindow = angleVerdict residueWindow /\
  analyzeLocalGeometry residueWindow <> (true, true).
Proof.
  split; [apply analyzeLocalGeometry_angles|].
  rewrite analyzeLocalGeometry_angles.
  unfold angleVerdict. cbv zeta. case_bool_decide as Hfew; [done|].
  pose proof (segmentsOf_length (omap r_ca residueWindow)) as Hlen.
  set (vectors := (segmentsOf (omap r_ca residueWindow)).2) in *.
  pose proof (counts_disjoint vectors (List.length vectors - 1) 0 0 0) as Hsum.
  fold (countAngles isTurn vectors) in Hsum.
  fold (countAngles isStraight vectors) in Hsum.
  intros [=Hh Hs].
  apply bool_decide_eq_true_1 in Hh, Hs. lia.
Qed.

Lemma geometryBody_step (indices : list nat) (i : nat) (residues0 residues : list Residue) :
  Forall2 geometryStep residues0 residues ->
  Forall2 geometryStep residues0 (geometryBody indices i residues).
Proof.
  intros Hrel. unfold geometryBody.
  destruct (indices !! i) as [k|]; [|done].
  destruct (residues !! k) as [residue|] eqn:Hk; [|done].
  case_bool_decide as Hcoil; [done|].
  assert (r_secondaryStructure residue = "coil"%string) as Hlabel by done.
  cbv zeta. destruct (analyzeLocalGeometry _) as [isHelix isSheet].
  destruct (Forall2_lookup_r _ _ _ _ _ Hrel Hk) as (r0 & Hk0 & Hstep).
  assert (residue = r0) as ->.
  { destruct Hstep as [-> | [_ [-> | ->]]]; [done | cbn in Hlabel; discriminate..]. }
  assert (forall label, label = "helix"%string \/ label = "sheet"%string ->
            Forall2 geometryStep residues0 (alter (PDBParser.relabel label) k residues))
    as Halter.
  { intros label Hl. apply Forall2_same_length_lookup_2.
    - rewrite length_alter. by apply Forall2_length in Hrel.
    - intros j r r' Hr Hr'. destruct (decide (j = k)) as [->|Hne].
      + rewrite list_lookup_alter_eq, Hk in Hr'. cbn in Hr'. injection Hr' as <-.
        rewrite Hk0 in Hr. injection Hr as <-.
        right. split; [done|]. destruct Hl as [-> | ->]; auto.
      + rewrite list_lookup_alter_ne in Hr' by done.
        by apply (Forall2_lookup_lr _ _ _ j _ _ Hrel). }
  destruct isHelix; [apply Halter; by left|].
  destruct isSheet; [apply Halter; by right | done].
Qed.

Lemma assignChainByGeometry_frame (residues : list Residue) :
  Forall2 geometryStep residues (assignChainByGeometry residues).
Proof.
  unfold assignChainByGeometry. cbv zeta.
  apply (forLoop_inv (fun _ acc => Forall2 geometryStep residues acc)).
  - apply Forall_Forall2_diag, Forall_forall. intros r _. by left.
  - intros i acc _ Hacc. by apply geometryBody_step.
Qed.

(** X27.  The geometric pass of the parser, on the residues of a chain,
    keeps their number and leaves a residue as it is or turns one that
    was labelled 'coil' into 'helix' or 'sheet', changing nothing else:
    a label that a HELIX or SHEET record gave is never overwritten. *)
Theorem assignChainByGeometry_keeps_records (residues : list Residue) :
  Forall2 geometryStep residues (assignChainByGeometry residues).
Proof. exact (assignChainByGeometry_frame residues). Qed.
End ParserGeometryExtras.

(** ** The bounding box of the atoms *)

Section BoundsExtras.
Import JSMath Bounds.
Local Open Scope R_scope.

Lemma boundsBody_axes (atoms : list (Atom jsnum)) : forall lo hi,
  let r := foldl boundsBody (lo, hi) atoms in
  (tx r.1, tx r.2) = foldl (axisBody a_x) (tx lo, tx hi) atoms /\
  (ty r.1, ty r.2) = foldl (axisBody a_y) (ty lo, ty hi) atoms /\
  (tz r.1, tz r.2) = foldl (axisBody a_z) (tz lo, tz hi) atoms.
Proof.
  induction atoms as [|atom atoms IH]; intros lo hi; cbn [foldl]; [done|].
  apply (IH (mkTriple _ _ _) (mkTriple _ _ _)).
Qed.

Lemma axis_numbers (coord : Atom jsnum -> jsnum) (atoms : list (Atom jsnum)) :
  Forall (fun atom => exists v, coord atom = Num v) atoms ->
  forall l h, l <= h ->
  exists l' h',
    foldl (axisBody coord) (Num l, Num h) atoms = (Num l', Num h') /\
    l' <= l /\ h <= h' /\
    (forall atom v, atom ∈ atoms -> coord atom = Num v -> l' <= v <= h') /\
    (l' = l \/ exists atom, atom ∈ atoms /\ coord atom = Num l') /\
    (h' = h \/ exists atom, atom ∈ atoms /\ coord atom = Num h').
Proof.
  induction 1 as [|atom atoms [v Hv] _ IH]; intros l h Hlh; cbn [foldl].
  - exists l, h. split; [done|]. split; [lra|]. split; [lra|].
    split; [|by split; left]. intros atom v Hin. by apply elem_of_nil in Hin.
  - unfold axisBody at 2. cbn [fst snd]. rewrite Hv. cbn [min max].
    assert (Rmin l v <= Rmax h v) as Hle
      by (unfold Rmin, Rmax; repeat destruct (Rle_dec _ _); lra).
    destruct (IH (Rmin l v) (Rmax h v) Hle) as (l' & h' & -> & Hl & Hh & Hall & Hlo & Hhi).
    exists l', h'. split; [done|].
    assert (Rmin l v <= l /\ Rmin l v <= v /\ h <= Rmax h v /\ v <= Rmax h v)
      as (M1 & M2 & M3 & M4)
      by (unfold Rmin, Rmax; repeat destruct (Rle_dec _ _); lra).
    split; [lra|]. split; [lra|]. split; [|split].
    + intros atom' v' [-> | Hin]%elem_of_cons Hv'.
      * rewrite Hv in Hv'. injection Hv' as <-. lra.
      * by apply (Hall atom').
    + destruct Hlo as [-> | (atom' & Hin & E)].
      * unfold Rmin. destruct (Rle_dec l v); [by left|].
        right. exists atom. split; [apply list_elem_of_here | done].
      * right. exists atom'. split; [by apply list_elem_of_further | done].
    + destruct Hhi as [-> | (atom' & Hin & E)].
      * unfold Rmax. destruct (Rle_dec h v); [|by left].
        right. exists atom. split; [apply list_elem_of_here | done].
      * right. exists atom'. split; [by apply list_elem_of_further | done].
Qed.

Lemma axis_finite (coord : Atom jsnum -> jsnum) (atoms : list (Atom jsnum)) :
  atoms <> [] ->
  Forall (fun atom => exists v, coord atom = Num v) atoms ->
  exists l h,
    foldl (axisBody coord) (Inf false, Inf true) atoms = (Num l, Num h) /\
    (forall atom v, atom ∈ atoms -> coord atom = Num v -> l <= v <= h) /\
    (exists atom, atom ∈ atoms /\ coord atom = Num l) /\
    (exists atom, atom ∈ atoms /\ coord atom = Num h).
Proof.
  intros Hne Hall. destruct atoms as [|atom atoms]; [done|].
  apply Forall_cons in Hall as [[v Hv] Hall].
  cbn [foldl]. unfold axisBody at 2. cbn [fst snd]. rewrite Hv. cbn [min max].
  destruct (axis_numbers coord atoms Hall v v ltac:(lra))
    as (l & h & -> & Hl & Hh & Hin & Hlo & Hhi).
  exists l, h. split; [done|]. split; [|split].
  - intros atom' v' [-> | Hin']%elem_of_cons Hv'.
    + rewrite Hv in Hv'. injection Hv' as <-. lra.
    + by apply (Hin atom').
  - destruct Hlo as [-> | (atom' & Hin' & E)].
    + exists atom. split; [apply list_elem_of_here | done].
    + exists atom'. split; [by apply list_elem_of_further | done].
  - destruct Hhi as [-> | (atom' & Hin' & E)].
    + exists atom. split; [apply list_elem_of_here | done].
    + exists atom'. split; [by apply list_elem_of_further | done].
Qed.

Lemma min_NaN_r (a : jsnum) : min a NaN = NaN.
Proof. by destruct a as [| |[]]. Qed.

Lemma max_NaN_r (a : jsnum) : max a NaN = NaN.
Proof. by destruct a as [| |[]]. Qed.

Lemma axis_NaN_stays (coord : Atom jsnum -> jsnum) (atoms : list (Atom jsnum)) :
  foldl (axisBody coord) (NaN, NaN) atoms = (NaN, NaN).
Proof. induction atoms as [|atom atoms IH]; [done|]. exact IH. Qed.

Lemma axis_NaN (coord : Atom jsnum -> jsnum) (atoms : list (Atom jsnum)) (atom : Atom jsnum) :
  atom ∈ atoms -> coord atom = NaN ->
  forall acc, foldl (axisBody coord) acc atoms = (NaN, NaN).
Proof.
  intros Hin Hnan. induction atoms as [|atom' atoms IH]; intros acc.
  - by apply elem_of_nil in Hin.
  - cbn [foldl]. apply elem_of_cons in Hin as [<- | Hin].
    + unfold axisBody at 2. rewrite Hnan, min_NaN_r, max_NaN_r. apply axis_NaN_stays.
    + by apply IH.
Qed.

Lemma finiteAtom_axes (atoms : list (Atom jsnum)) :
  Forall finiteAtom atoms ->
  Forall (fun atom => exists v, a_x atom = Num v) atoms /\
  Forall (fun atom => exists v, a_y atom = Num v) atoms /\
  Forall (fun atom => exists v, a_z atom = Num v) atoms.
Proof.
  intros H. repeat split; eapply Forall_impl; try exact H;
    intros atom (x & y & z & Hx & Hy & Hz); eauto.
Qed.

(** X28.  [getBoundingBox()].  When there is an atom and every
    coordinate read is a number, the box is tight: [min] and [max] are
    numbers, every atom lies between them on each axis, each bound is
    the coordinate of some atom, and [size] is [max - min].  And one
    atom whose x coordinate failed to parse makes both [min.x] and
    [max.x] not-a-number. *)
Theorem getBoundingBox_contains (atoms : list (Atom jsnum)) :
  (atoms <> [] -> Forall finiteAtom atoms ->
   exists lx ly lz hx hy hz,
     bb_min (getBoundingBox atoms) = mkTriple (Num lx) (Num ly) (Num lz) /\
     bb_max (getBoundingBox atoms) = mkTriple (Num hx) (Num hy) (Num hz) /\
     bb_size (getBoundingBox atoms)
       = Some (mkTriple (Num (hx - lx)) (Num (hy - ly)) (Num (hz - lz))) /\
     (forall atom x y z, atom ∈ atoms ->
        a_x atom = Num x -> a_y atom = Num y -> a_z atom = Num z ->
        lx <= x <= hx /\ ly <= y <= hy /\ lz <= z <= hz) /\
     (exists atom, atom ∈ atoms /\ a_x atom = Num lx) /\
     (exists atom, atom ∈ atoms /\ a_x atom = Num hx) /\
     (exists atom, atom ∈ atoms /\ a_y atom = Num ly) /\
     (exists atom, atom ∈ atoms /\ a_y atom = Num hy) /\
     (exists atom, atom ∈ atoms /\ a_z atom = Num lz) /\
     (exists atom, atom ∈ atoms /\ a_z atom = Num hz)) /\
  (forall atom, atom ∈ atoms -> a_x atom = NaN ->
     tx (bb_min (getBoundingBox atoms)) = NaN /\ tx (bb_max (getBoundingBox atoms)) = NaN).
Proof.
  split.
  - intros Hne Hall. unfold getBoundingBox.
    rewrite bool_decide_eq_false_2 by (by destruct atoms).
    destruct (finiteAtom_axes atoms Hall) as (Hx & Hy & Hz).
    destruct (axis_finite a_x atoms Hne Hx) as (lx & hx & Ex & Bx & Lx & Ux).
    destruct (axis_finite a_y atoms Hne Hy) as (ly & hy & Ey & By & Ly & Uy).
    destruct (axis_finite a_z atoms Hne Hz) as (lz & hz & Ez & Bz & Lz & Uz).
    pose proof (boundsBody_axes atoms (mkTriple (Inf false) (Inf false) (Inf false))
                  (mkTriple (Inf true) (Inf true) (Inf true))) as (Ax & Ay & Az).
    cbv zeta in Ax, Ay, Az. cbn [tx ty tz] in Ax, Ay, Az.
    rewrite Ex in Ax. rewrite Ey in Ay. rewrite Ez in Az.
    destruct (foldl boundsBody _ atoms) as [[x0 y0 z0] [x1 y1 z1]].
    cbn [fst snd tx ty tz] in *.
    injection Ax as -> ->. injection Ay as -> ->. injection Az as -> ->.
    exists lx, ly, lz, hx, hy, hz. cbn [bb_min bb_max bb_size].
    split; [done|]. split; [done|]. split; [done|].
    split; [|by repeat split].
    intros atom x y z Hin Hax Hay Haz.
    split; [by apply (Bx atom) | split; [by apply (By atom) | by apply (Bz atom)]].
  - intros atom Hin Hnan. unfold getBoundingBox.
    rewrite bool_decide_eq_false_2
      by (destruct atoms; [by apply elem_of_nil in Hin | done]).
    pose proof (boundsBody_axes atoms (mkTriple (Inf false) (Inf false) (Inf false))
                  (mkTriple (Inf true) (Inf true) (Inf true))) as (Ax & _).
    cbv zeta in Ax. cbn [tx] in Ax.
    rewrite (axis_NaN a_x atoms atom Hin Hnan) in Ax.
    destruct (foldl boundsBody _ atoms) as [lo hi].
    cbn [fst snd bb_min bb_max] in *. by injection Ax as -> ->.
Qed.
End BoundsExtras.

(** ** Chains from residues *)

Section ChainsExtras.
Import Chains.

Lemma pushResidue_ids (chainMap : list Chain) (residue : Residue) :
  ((r_chainId residue ∈ c_id <$> chainMap) /\
   (c_id <$> pushResidue chainMap residue) = (c_id <$> chainMap)) \/
  ((r_chainId residue ∉ c_id <$> chainMap) /\
   (c_id <$> pushResidue chainMap residue) = (c_id <$> chainMap) ++ [r_chainId residue]).
Proof.
  induction chainMap as [|chain rest IH]; cbn [pushResidue fmap list_fmap app].
  - right. split; [apply not_elem_of_nil | done].
  - case_bool_decide as Hk; cbn [fmap list_fmap c_id].
    + left. rewrite Hk. split; [apply list_elem_of_here | done].
    + destruct IH as [[Hin ->] | [Hnin ->]].
      * left. split; [by apply list_elem_of_further | done].
      * right. split; [|done]. intros [E|Hin]%elem_of_cons; [by apply Hk | done].
Qed.

Lemma pushResidue_entries (chainMap : list Chain) (residue : Residue) (chain' : Chain) :
  NoDup (c_id <$> chainMap) ->
  chain' ∈ pushResidue chainMap residue ->
  (c_id chain' <> r_chainId residue /\ chain' ∈ chainMap) \/
  (c_id chain' = r_chainId residue /\
   ((exists chain, chain ∈ chainMap /\ c_id chain = c_id chain' /\
                   c_residues chain' = c_residues chain ++ [residue]) \/
    ((r_chainId residue ∉ c_id <$> chainMap) /\ c_residues chain' = [residue]))).
Proof.
  induction chainMap as [|chain rest IH]; cbn [pushResidue fmap list_fmap].
  - intros _ [->|Hin]%elem_of_cons; [|by apply elem_of_nil in Hin].
    right. split; [done|]. right. split; [apply not_elem_of_nil | done].
  - intros [Hk0 Hnd]%NoDup_cons. case_bool_decide as Hk.
    + intros [->|Hin]%elem_of_cons.
      * right. split; [done|]. left. exists chain.
        split; [apply list_elem_of_here | done].
      * left. split; [|by apply list_elem_of_further].
        intros E. apply Hk0. rewrite Hk, <- E. by apply list_elem_of_fmap_2.
    + intros [->|Hin]%elem_of_cons.
      * left. split; [done | apply list_elem_of_here].
      * destruct (IH Hnd Hin) as [[Hne Hold] | [E [(c0 & Hold & Eid & Eres) | [Hnk Eres]]]].
        -- left. split; [done | by apply list_elem_of_further].
        -- right. split; [done|]. left. exists c0.
           split; [by apply list_elem_of_further | done].
        -- right. split; [done|]. right. split; [|done].
           intros [E'|Hin']%elem_of_cons; [by apply Hk | done].
Qed.

Lemma filter_none_chain (id : string) (residues : list Residue) :
  (forall r, r ∈ residues -> r_chainId r <> id) ->
  filter (fun r => r_chainId r = id) residues = [].
Proof.
  intros H. induction residues as [|r residues IH]; [done|].
  rewrite filter_cons_False by (apply H, list_elem_of_here).
  apply IH. intros b Hb. apply H. by apply list_elem_of_further.
Qed.

Lemma pushResidue_inv (kept : list Residue) (chainMap : list Chain) (residue : Residue) :
  chainMapInv kept chainMap ->
  chainMapInv (kept ++ [residue]) (pushResidue chainMap residue).
Proof.
  intros (Hnd & Hent & Hcov). unfold chainMapInv.
  destruct (pushResidue_ids chainMap residue) as [[Hin Hids] | [Hnin Hids]].
  - rewrite Hids. split; [done|]. split.
    + intros chain' H'.
      destruct (pushResidue_entries _ _ _ Hnd H')
        as [[Hne Hold] | [E [(c0 & Hold & Eid & Eres) | [Hnk Eres]]]].
      * destruct (Hent _ Hold) as [Hn Hf]. split; [done|].
        rewrite filter_app, filter_cons_False by (intros E; by apply Hne).
        by rewrite app_nil_r.
      * destruct (Hent _ Hold) as [Hn Hf]. rewrite Eres.
        split; [by destruct (c_residues c0)|].
        rewrite filter_app, filter_cons_True by done. by rewrite Hf, Eid.
      * by destruct Hnk.
    + intros r [Hr | ->%list_elem_of_singleton]%elem_of_app; [by apply Hcov | done].
  - rewrite Hids. split; [|split].
    + apply NoDup_app. split; [done|]. split; [|apply NoDup_singleton].
      intros x Hx ->%list_elem_of_singleton. done.
    + intros chain' H'.
      destruct (pushResidue_entries _ _ _ Hnd H')
        as [[Hne Hold] | [E [(c0 & Hold & Eid & Eres) | [Hnk Eres]]]].
      * destruct (Hent _ Hold) as [Hn Hf]. split; [done|].
        rewrite filter_app, filter_cons_False by (intros E; by apply Hne).
        by rewrite app_nil_r.
      * exfalso. apply Hnin. rewrite <- E, <- Eid. by apply list_elem_of_fmap_2.
      * rewrite Eres. split; [done|].
        rewrite filter_app, filter_cons_True by done.
        rewrite filter_none_chain; [done|]. intros r Hr Hk. apply Hnk.
        rewrite <- E, <- Hk. by apply Hcov.
    + intros r [Hr | ->%list_elem_of_singleton]%elem_of_app.
      * apply elem_of_app. left. by apply Hcov.
      * apply elem_of_app. right. by apply list_elem_of_singleton.
Qed.

Lemma buildChains_loop (residues : list MarkedResidue) :
  forall kept chainMap,
  chainMapInv kept chainMap ->
  chainMapInv (kept ++ keptResidues residues)
    (foldl (fun chainMap residue =>
              if mr_isLigand residue then chainMap
              else pushResidue chainMap (mr_residue residue)) chainMap residues).
Proof.
  induction residues as [|[r ligand] residues IH]; intros kept chainMap Hinv.
  - unfold keptResidues. simpl. by rewrite app_nil_r.
  - cbn [foldl mr_isLigand mr_residue]. unfold keptResidues. cbn [List.filter mr_isLigand].
    destruct ligand; cbn [negb].
    + by apply IH.
    + cbn [fmap list_fmap mr_residue].
      replace (kept ++ r :: (mr_residue <$> List.filter _ residues))
        with ((kept ++ [r]) ++ keptResidues residues) by (by rewrite <- app_assoc).
      apply IH. by apply pushResidue_inv.
Qed.

(** X30.  [buildChains()] groups the residues that it does not pass over
    by their chain identifier: the chains have distinct identifiers; a
    chain is never empty and holds exactly the kept residues of its
    identifier, in their order; every kept residue is in the chain of
    its identifier; and the type of a chain is read off its own
    residues. *)
Theorem buildChains_groups (residues : list MarkedResidue) :
  NoDup (c_id <$> buildChains residues) /\
  (forall chain, chain ∈ buildChains residues ->
     c_residues chain <> [] /\
     c_residues chain
       = filter (fun r => r_chainId r = c_id chain) (keptResidues residues) /\
     c_type chain = chainTypeOf (c_residues chain)) /\
  (forall r, r ∈ keptResidues residues -> r_chainId r ∈ c_id <$> buildChains residues).
Proof.
  unfold buildChains. cbv zeta.
  destruct (buildChains_loop residues [] []) as (Hnd & Hent & Hcov).
  { split; [apply NoDup_nil_2|]. split.
    - intros chain Hin. by apply elem_of_nil in Hin.
    - intros r Hr. by apply elem_of_nil in Hr. }
  cbn [app] in *.
  set (chainMap := foldl _ [] residues) in *.
  assert ((c_id <$> ((fun chain => mkChain (c_id chain) (c_residues chain)
                                     (chainTypeOf (c_residues chain))) <$> chainMap))
          = (c_id <$> chainMap)) as Hids.
  { rewrite <- list_fmap_compose. by apply list_fmap_ext. }
  rewrite Hids. split; [done|]. split; [|done].
  intros chain (c0 & -> & Hin)%list_elem_of_fmap. cbn [c_residues c_id c_type].
  destruct (Hent c0 Hin) as [Hne Hf]. done.
Qed.
End ChainsExtras.
